(** * Open/R KvStore: a shallow embedding of the replicated key-value store

    The development follows [openr/kvstore/KvStore.cpp]: the conflict
    resolution of [KvStore::mergeKeyValues], the value comparison used by the
    three-way full sync ([KvStore::compareValues], [KvStoreDb::dumpDifference]),
    the outbound ttl adjustment ([KvStoreDb::updatePublicationTtl]), the peer
    state machine ([KvStoreDb::getNextState]), the initialization barrier
    ([KvStoreDb::processInitializationEvent], [KvStore::initialKvStoreDbSynced]),
    area lookup ([KvStore::getAreaDbOrThrow]), loop suppression
    ([KvStoreDb::mergePublication]) and the self-originated key cache
    ([KvStoreDb::unsetSelfOriginatedKey]).

    Thrift [i64] fields are integers in [Z]; [std::string] and thrift [binary]
    are [string] (a list of bytes); [std::unordered_map] is [gmap];
    [std::optional] and thrift optional fields are [option]. *)

From Stdlib Require Import ZArith String Ascii List Lia Bool.
From stdpp Require Import gmap strings list fin_maps.

Local Open Scope Z_scope.

(** ** Faults

    A dereference of [end()], an access to an unset optional thrift field, an
    index past the end of a vector and a failed [CHECK] are not results of the C++ functions; the embedding makes
    them explicit so that "no invalid access" is a statement about values. *)

Inductive Fault : Type :=
| EndIteratorDeref   (* [it->second] with [it == map.end()] *)
| BadFieldAccess     (* [*field_ref()] on an unset optional field *)
| OutOfRange         (* [vector::operator[]] past the end *)
| CheckFailure.      (* glog [CHECK(...)] aborts the process *)

Inductive result (A : Type) : Type :=
| Ok (a : A)
| Raise (f : Fault).
Arguments Ok {A} a.
Arguments Raise {A} f.

#[global] Instance result_ret : MRet result := fun A a => Ok a.
#[global] Instance result_bind : MBind result := fun A B k m =>
  match m with
  | Ok a => k a
  | Raise f => Raise f
  end.

(** [it->second] for an iterator obtained from [find]. *)
Definition deref {A : Type} (it : option A) : result A :=
  match it with
  | Some a => Ok a
  | None => Raise EndIteratorDeref
  end.

(** [*x.field_ref()] for an optional thrift field. *)
Definition field_value {A : Type} (field : option A) : result A :=
  match field with
  | Some a => Ok a
  | None => Raise BadFieldAccess
  end.

(** ** Platform and constants

    [std::string::compare] only promises the sign of its result; the hash
    function and the constants of [Constants.h] are declared outside the
    translated sources and are taken as parameters. *)

Class Platform : Type := {
  str_compare : string → string → Z;
  str_compare_sign : ∀ a b,
    match String.compare a b with
    | Eq => str_compare a b = 0
    | Lt => str_compare a b < 0
    | Gt => 0 < str_compare a b
    end;
  generateHash : Z → string → option string → Z;
  kTtlInfinity : Z;
  kTtlThreshold : Z;
  kDefaultArea : string
}.

(** [operator>] on [std::string]: lexicographic on bytes. *)
Definition string_gt (a b : string) : bool :=
  match String.compare a b with
  | Gt => true
  | _ => false
  end.

(** ** Data model ([KvStore.thrift]) *)

Record Value : Type := mkValue {
  version : Z;
  originatorId : string;
  value : option string;
  ttl : Z;
  ttlVersion : Z;
  hash : option Z
}.

#[global] Instance Value_eq_dec : EqDecision Value.
Proof. solve_decision. Defined.

Definition set_ttl (v : Value) (t tv : Z) : Value :=
  mkValue (version v) (originatorId v) (value v) t tv (hash v).

Definition set_hash (v : Value) (h : option Z) : Value :=
  mkValue (version v) (originatorId v) (value v) (ttl v) (ttlVersion v) h.

Inductive FilterOperator : Type := OR | AND.

Record KvStoreFilters : Type := {
  keyPrefixList_ : list string;
  originatorIds_ : gset string
}.

(** Modelled from the spec: [KeyPrefix::keyMatch] is declared outside the
    translated sources; a key matches when one of the configured prefixes is a
    prefix of it. *)
Definition keyPrefixMatch (prefixes : list string) (key : string) : bool :=
  existsb (fun p => String.prefix p key) prefixes.

Definition is_nil {A : Type} (l : list A) : bool :=
  match l with
  | [] => true
  | _ => false
  end.

Definition set_is_empty (s : gset string) : bool := bool_decide (s = ∅).

Definition keyMatchAny (f : KvStoreFilters) (key : string) (v : Value) : bool :=
  if is_nil (keyPrefixList_ f) && set_is_empty (originatorIds_ f) then true
  else if negb (is_nil (keyPrefixList_ f)) && keyPrefixMatch (keyPrefixList_ f) key then true
  else if negb (set_is_empty (originatorIds_ f))
          && bool_decide (originatorId v ∈ originatorIds_ f) then true
  else false.

Definition keyMatchAll (f : KvStoreFilters) (key : string) (v : Value) : bool :=
  if is_nil (keyPrefixList_ f) && set_is_empty (originatorIds_ f) then true
  else if negb (is_nil (keyPrefixList_ f)) && negb (keyPrefixMatch (keyPrefixList_ f) key) then false
  else if negb (set_is_empty (originatorIds_ f))
          && negb (bool_decide (originatorId v ∈ originatorIds_ f)) then false
  else true.

Definition keyMatch (f : KvStoreFilters) (key : string) (v : Value)
    (oper : FilterOperator) : bool :=
  match oper with
  | OR => keyMatchAny f key v
  | AND => keyMatchAll f key v
  end.

(** ** MergeEngine: [KvStore::mergeKeyValues] *)

Section MergeEngine.
Context `{Platform}.

(** The two flags computed by the loop body (the block that sets
    updateAllNeeded and updateTtlNeeded, followed by the ttl-only block). [kvStoreIt] is the result of
    [kvStore.find(key)], [myVersion] the version read from it, or 0. *)
Definition updateNeeded (kvStoreIt : option Value) (myVersion : Z)
    (v : Value) : result (bool * bool) :=
  let newVersion := version v in
  flags ←
    match value v with
    | Some payload =>
        if newVersion >? myVersion then Ok (true, false)
        else
          cur ← deref kvStoreIt;
          if string_gt (originatorId v) (originatorId cur) then Ok (true, false)
          else if bool_decide (originatorId v = originatorId cur) then
            mine ← field_value (value cur);
            let rc := str_compare payload mine in
            if rc >? 0 then Ok (true, false)
            else if rc =? 0 then
              if ttlVersion v >? ttlVersion cur then Ok (false, true)
              else Ok (false, false)
            else Ok (false, false)
          else Ok (false, false)
    | None => Ok (false, false)
    end;
  let '(updateAllNeeded, updateTtlNeeded) := flags in
  let ttlOnly :=
    match value v, kvStoreIt with
    | None, Some cur =>
        bool_decide (version v = version cur)
        && bool_decide (originatorId v = originatorId cur)
        && (ttlVersion v >? ttlVersion cur)
    | _, _ => false
    end in
  Ok (updateAllNeeded, updateTtlNeeded || ttlOnly).

Inductive MergeAction : Type := NoUpdate | UpdateAll | UpdateTtl.

(** Everything the loop body decides before it writes: filter, ttl
    validity, stale version, and the two flags. *)
Definition mergeAction (filters : option KvStoreFilters)
    (kvStoreIt : option Value) (key : string) (v : Value) : result MergeAction :=
  if match filters with
     | Some f => negb (keyMatch f key v OR)
     | None => false
     end
  then Ok NoUpdate
  else if negb (ttl v =? kTtlInfinity) && (ttl v <=? 0) then Ok NoUpdate
  else
    let myVersion :=
      match kvStoreIt with
      | Some cur => version cur
      | None => 0
      end in
    if version v <? myVersion then Ok NoUpdate
    else
      flags ← updateNeeded kvStoreIt myVersion v;
      match flags with
      | (true, _) => Ok UpdateAll
      | (false, true) => Ok UpdateTtl
      | (false, false) => Ok NoUpdate
      end.

(** The record written on a value update: the incoming value, with its
    hash generated when it carries none. *)
Definition storedValue (v : Value) : Value :=
  match hash v with
  | Some _ => v
  | None => set_hash v (Some (generateHash (version v) (originatorId v) (value v)))
  end.

(** [unordered_map::emplace]: no effect when the key is present. *)
Definition emplace {A : Type} (k : string) (a : A) (m : gmap string A) : gmap string A :=
  match m !! k with
  | Some _ => m
  | None => <[k := a]> m
  end.

(** The writes of the loop body, on the pair (kvStore, kvUpdates). *)
Definition applyAction (a : MergeAction) (key : string) (v : Value)
    (st : gmap string Value * gmap string Value)
  : result (gmap string Value * gmap string Value) :=
  let '(kvStore, kvUpdates) := st in
  match a with
  | NoUpdate => Ok st
  | UpdateAll =>
      match value v with
      | None => Raise CheckFailure
      | Some _ => Ok (<[key := storedValue v]> kvStore, emplace key v kvUpdates)
      end
  | UpdateTtl =>
      match kvStore !! key with
      | None => Raise CheckFailure
      | Some cur =>
          Ok (<[key := set_ttl cur (ttl v) (ttlVersion v)]> kvStore,
              emplace key v kvUpdates)
      end
  end.

(** One iteration of [for (const auto& [key, value] : keyVals)]. *)
Definition mergeKeyValue (filters : option KvStoreFilters)
    (st : gmap string Value * gmap string Value) (key : string) (v : Value)
  : result (gmap string Value * gmap string Value) :=
  a ← mergeAction filters (st.1 !! key) key v;
  applyAction a key v st.

Fixpoint mergeLoop (filters : option KvStoreFilters)
    (st : gmap string Value * gmap string Value) (kvs : list (string * Value))
  : result (gmap string Value * gmap string Value) :=
  match kvs with
  | [] => Ok st
  | (key, v) :: rest =>
      st' ← mergeKeyValue filters st key v;
      mergeLoop filters st' rest
  end.

(** [mergeKeyValues kvStore keyVals filters]: the updated store together
    with the returned [kvUpdates]. *)
Definition mergeKeyValues (kvStore keyVals : gmap string Value)
    (filters : option KvStoreFilters)
  : result (gmap string Value * gmap string Value) :=
  mergeLoop filters (kvStore, ∅) (map_to_list keyVals).

End MergeEngine.

(** ** Three-way full sync: [KvStore::compareValues], [KvStoreDb::dumpDifference] *)

Record Publication : Type := mkPublication {
  keyVals : gmap string Value;
  expiredKeys : list string;
  nodeIds : option (list string);
  tobeUpdatedKeys : option (list string);
  floodRootId : option string;
  area : string
}.

Definition emptyPublication (a : string) : Publication :=
  mkPublication ∅ [] None None None a.

Definition set_keyVals (p : Publication) (kv : gmap string Value) : Publication :=
  mkPublication kv (expiredKeys p) (nodeIds p) (tobeUpdatedKeys p)
    (floodRootId p) (area p).

Section FullSync.
Context `{Platform}.

(** Result: 1 when [v1] is better, -1 when [v2] is better, 0 when they are
    the same, -2 when unknown; on the last path the raw result of
    [std::string::compare] is returned. *)
Definition compareValues (v1 v2 : Value) : Z :=
  if negb (version v1 =? version v2) then
    if version v1 >? version v2 then 1 else -1
  else if negb (bool_decide (originatorId v1 = originatorId v2)) then
    if string_gt (originatorId v1) (originatorId v2) then 1 else -1
  else if
    match hash v1, hash v2 with
    | Some h1, Some h2 => h1 =? h2
    | _, _ => false
    end
  then
    if negb (ttlVersion v1 =? ttlVersion v2) then
      if ttlVersion v1 >? ttlVersion v2 then 1 else -1
    else 0
  else
    match value v1, value v2 with
    | Some p1, Some p2 => str_compare p1 p2
    | _, _ => -2
    end.

(** Body of [for (const auto& key : allKeys)], on the pair
    (thriftPub.keyVals, thriftPub.tobeUpdatedKeys). *)
Definition dumpDifferenceKey (myKeyVal reqKeyVal : gmap string Value)
    (acc : gmap string Value * list string) (key : string)
  : gmap string Value * list string :=
  let '(kvs, tobe) := acc in
  match myKeyVal !! key with
  | None => (kvs, tobe ++ [key])
  | Some myVal =>
      match reqKeyVal !! key with
      | None => (emplace key myVal kvs, tobe)
      | Some reqVal =>
          let rc := compareValues myVal reqVal in
          let kvs' :=
            if (rc =? 1) || (rc =? -2) then emplace key myVal kvs else kvs in
          let tobe' :=
            if (rc =? -1) || (rc =? -2) then tobe ++ [key] else tobe in
          (kvs', tobe')
      end
  end.

Definition dumpDifference (area_ : string)
    (myKeyVal reqKeyVal : gmap string Value) : Publication :=
  let allKeys : gset string := dom myKeyVal ∪ dom reqKeyVal in
  let '(kvs, tobe) :=
    foldl (dumpDifferenceKey myKeyVal reqKeyVal) (∅, []) (elements allKeys) in
  mkPublication kvs [] None (Some tobe) None area_.

End FullSync.

(** ** Outbound ttl: [KvStoreDb::updatePublicationTtl] *)

Record TtlCountdownQueueEntry : Type := mkQueueEntry {
  expiryTime : Z;            (* steady_clock time point, in nanoseconds *)
  qKey : string;
  qVersion : Z;
  qTtlVersion : Z;
  qOriginatorId : string
}.

(** [duration_cast<milliseconds>] of a [steady_clock] duration: nanosecond
    ticks, truncated toward zero. *)
Definition duration_cast_ms (ticks : Z) : Z := Z.quot ticks 1000000.

Section OutboundTtl.
Context `{Platform}.

(** Body of [for (const auto& qE : ttlCountdownQueue_)]. [ttlDecr] is
    [kvParams_.ttlDecr] in milliseconds, [timeNow] the clock read once
    before the loop. *)
Definition updateTtlEntry (ttlDecr timeNow : Z) (removeAboutToExpire : bool)
    (kvs : gmap string Value) (qE : TtlCountdownQueueEntry) : gmap string Value :=
  match kvs !! qKey qE with
  | None => kvs
  | Some v =>
      if negb (version v =? qVersion qE)
         || negb (bool_decide (originatorId v = qOriginatorId qE))
         || negb (ttlVersion v =? qTtlVersion qE)
      then kvs
      else
        let timeLeft := duration_cast_ms (expiryTime qE - timeNow) in
        if timeLeft <=? ttlDecr then delete (qKey qE) kvs
        else if removeAboutToExpire && (timeLeft <? kTtlThreshold)
        then delete (qKey qE) kvs
        else <[qKey qE := set_ttl v (timeLeft - ttlDecr) (ttlVersion v)]> kvs
  end.

(** The queue is given in its iteration order. *)
Definition updatePublicationTtl (ttlCountdownQueue_ : list TtlCountdownQueueEntry)
    (ttlDecr timeNow : Z) (thriftPub : Publication) (removeAboutToExpire : bool)
  : Publication :=
  set_keyVals thriftPub
    (foldl (updateTtlEntry ttlDecr timeNow removeAboutToExpire)
           (keyVals thriftPub) ttlCountdownQueue_).

End OutboundTtl.

(** ** Peer state machine: [KvStoreDb::getNextState] *)

Inductive KvStorePeerState : Type := IDLE | SYNCING | INITIALIZED.

(** [KvStorePeerEvent] is declared in [KvStore.h]; its numbering is read off
    the column comments of the transition matrix, which has four columns:
    column 0 is PEER_ADD, column 2 SYNC_RESP_RCVD, column 3 THRIFT_API_ERROR,
    and column 1 (PEER_DEL) is empty in every row. *)
Inductive KvStorePeerEvent : Type :=
  PEER_ADD | PEER_DEL | SYNC_RESP_RCVD | THRIFT_API_ERROR.

#[global] Instance KvStorePeerState_eq_dec : EqDecision KvStorePeerState.
Proof. solve_decision. Defined.

Definition state_index (s : KvStorePeerState) : nat :=
  match s with
  | IDLE => 0
  | SYNCING => 1
  | INITIALIZED => 2
  end%nat.

Definition event_index (e : KvStorePeerEvent) : nat :=
  match e with
  | PEER_ADD => 0
  | PEER_DEL => 1
  | SYNC_RESP_RCVD => 2
  | THRIFT_API_ERROR => 3
  end%nat.

Definition stateMap : list (list (option KvStorePeerState)) :=
  [ (* index 0 - IDLE *)
    [Some SYNCING; None; None; Some IDLE];
    (* index 1 - SYNCING *)
    [None; None; Some INITIALIZED; Some IDLE];
    (* index 2 - INITIALIZED *)
    [None; None; Some INITIALIZED; Some IDLE] ].

Definition getNextState (currState : option KvStorePeerState)
    (event : KvStorePeerEvent) : result KvStorePeerState :=
  match currState with
  | None => Raise CheckFailure              (* CHECK(currState.has_value()) *)
  | Some s =>
      match stateMap !! state_index s with
      | None => Raise OutOfRange
      | Some row =>
          match row !! event_index event with
          | None => Raise OutOfRange
          | Some None => Raise CheckFailure  (* CHECK(nextState.has_value()) *)
          | Some (Some next) => Ok next
          end
      end
  end.

(** ** Area lookup: [KvStore::getAreaDbOrThrow] *)

Inductive KvStoreError : Type := mkKvStoreError (message : string).

Section AreaLookup.
Context `{Platform}.
Context {Db : Type}.

(** Returns the area id under which the database is registered together
    with the database, or the thrown [KvStoreError]. *)
Definition getAreaDbOrThrow (kvStoreDb_ : gmap string Db) (areaId : string)
  : KvStoreError + (string * Db) :=
  match kvStoreDb_ !! areaId with
  | Some db => inr (areaId, db)
  | None =>
      let defaultArea := kDefaultArea in
      if bool_decide (size kvStoreDb_ = 1%nat)
         && (bool_decide (is_Some (kvStoreDb_ !! defaultArea))
             || bool_decide (areaId = defaultArea))
      then
        match map_to_list kvStoreDb_ with
        | first :: _ => inr first             (* kvStoreDb_.begin() *)
        | [] => inl (mkKvStoreError ("Invalid area: " +:+ areaId))
        end
      else inl (mkKvStoreError ("Invalid area: " +:+ areaId))
  end.

End AreaLookup.

(** ** The per-area database: [KvStoreDb]

    The record holds the members of the class that [mergePublication],
    [eraseSelfOriginatedKey] and [unsetSelfOriginatedKey] read or write, and a
    log of what leaves the object: publications pushed on
    [kvParams_.kvStoreUpdatesQueue] and [setKvStoreKeyVals] requests issued on
    peer clients. *)

Record KvStorePeer : Type := mkPeer {
  peerState : KvStorePeerState;                     (* peerSpec.state *)
  numThriftApiErrors : Z;
  pendingKeysDuringInitialization : gset string
}.

Record KvStoreDb : Type := mkDb {
  area_ : string;
  nodeId : string;                                  (* kvParams_.nodeId *)
  filters : option KvStoreFilters;                  (* kvParams_.filters *)
  kvStore_ : gmap string Value;
  thriftPeers_ : gmap string KvStorePeer;
  ttlCountdownQueue_ : list TtlCountdownQueueEntry;
  selfOriginatedKeyVals_ : gmap string Value;       (* the [value] of each entry *)
  keysToAdvertise_ : gset string;
  keysToUnset_ : gmap string Value;
  unsetThrottleCalls : nat;     (* calls of [unsetSelfOriginatedKeysThrottled_] *)
  counters : gmap string Z;                         (* fb303 stats *)
  updatesQueue : list Publication;                  (* pushed to subscribers *)
  peerRequests : list (string * gmap string Value)  (* (peer, keyVals) sent *)
}.

Definition set_kvStore (db : KvStoreDb) (kv : gmap string Value) : KvStoreDb :=
  mkDb (area_ db) (nodeId db) (filters db) kv (thriftPeers_ db)
    (ttlCountdownQueue_ db) (selfOriginatedKeyVals_ db) (keysToAdvertise_ db)
    (keysToUnset_ db) (unsetThrottleCalls db) (counters db) (updatesQueue db)
    (peerRequests db).

Definition set_thriftPeers (db : KvStoreDb) (ps : gmap string KvStorePeer) : KvStoreDb :=
  mkDb (area_ db) (nodeId db) (filters db) (kvStore_ db) ps
    (ttlCountdownQueue_ db) (selfOriginatedKeyVals_ db) (keysToAdvertise_ db)
    (keysToUnset_ db) (unsetThrottleCalls db) (counters db) (updatesQueue db)
    (peerRequests db).

Definition set_ttlCountdownQueue (db : KvStoreDb) (q : list TtlCountdownQueueEntry)
  : KvStoreDb :=
  mkDb (area_ db) (nodeId db) (filters db) (kvStore_ db) (thriftPeers_ db)
    q (selfOriginatedKeyVals_ db) (keysToAdvertise_ db)
    (keysToUnset_ db) (unsetThrottleCalls db) (counters db) (updatesQueue db)
    (peerRequests db).

Definition set_selfOriginated (db : KvStoreDb) (so : gmap string Value)
    (adv : gset string) : KvStoreDb :=
  mkDb (area_ db) (nodeId db) (filters db) (kvStore_ db) (thriftPeers_ db)
    (ttlCountdownQueue_ db) so adv
    (keysToUnset_ db) (unsetThrottleCalls db) (counters db) (updatesQueue db)
    (peerRequests db).

Definition set_keysToUnset (db : KvStoreDb) (ku : gmap string Value) (calls : nat)
  : KvStoreDb :=
  mkDb (area_ db) (nodeId db) (filters db) (kvStore_ db) (thriftPeers_ db)
    (ttlCountdownQueue_ db) (selfOriginatedKeyVals_ db) (keysToAdvertise_ db)
    ku calls (counters db) (updatesQueue db) (peerRequests db).

Definition set_counters (db : KvStoreDb) (c : gmap string Z) : KvStoreDb :=
  mkDb (area_ db) (nodeId db) (filters db) (kvStore_ db) (thriftPeers_ db)
    (ttlCountdownQueue_ db) (selfOriginatedKeyVals_ db) (keysToAdvertise_ db)
    (keysToUnset_ db) (unsetThrottleCalls db) c (updatesQueue db)
    (peerRequests db).

(** [fb303::fbData->addStatValue(key, n, COUNT/SUM)]. *)
Definition addStatValue (key : string) (n : Z) (db : KvStoreDb) : KvStoreDb :=
  set_counters db (<[key := default 0 (counters db !! key) + n]> (counters db)).

(** Two's complement wrap of a 64-bit signed integer. *)
Definition wrap_int64 (z : Z) : Z := (z + 2 ^ 63) mod 2 ^ 64 - 2 ^ 63.

(** *** Self-originated keys *)

Definition eraseSelfOriginatedKey (key : string) (db : KvStoreDb) : KvStoreDb :=
  set_selfOriginated db (delete key (selfOriginatedKeyVals_ db))
    (keysToAdvertise_ db ∖ {[key]}).

Definition unsetSelfOriginatedKey (key : string) (tombstone : string)
    (db : KvStoreDb) : KvStoreDb :=
  (* erase key *)
  let db := eraseSelfOriginatedKey key db in
  match kvStore_ db !! key with
  | None => db
  | Some cur =>
      (* Overwrite all values and increment version. *)
      let thriftValue :=
        mkValue (wrap_int64 (version cur + 1)) (nodeId db) (Some tombstone)
          (ttl cur) 0 (hash cur) in
      set_keysToUnset db (emplace key thriftValue (keysToUnset_ db))
        (S (unsetThrottleCalls db))
  end.

(** *** [mergePublication] *)

Section MergePublication.
Context `{Platform}.

(** [floodPublication] and [finalizeFullSync] are reached only after the
    loop check; they involve the rate limiter, the DUAL spanning tree and
    the thrift clients, and are kept abstract: the properties below hold for
    whatever they do to the database. *)
Variable floodPublication : Publication → KvStoreDb → KvStoreDb.
Variable finalizeFullSync : gset string → string → KvStoreDb → KvStoreDb.

(** [updateTtlCountdownQueue]: one entry per value with a finite ttl.
    [timeNow] is [steady_clock::now()], a count of nanoseconds in a signed
    64-bit integer; [std::chrono::milliseconds(ttl)] is converted to
    nanoseconds and added to it in that type, and both operations wrap
    around when the result does not fit. *)
Definition updateTtlCountdownQueue (timeNow : Z) (publication : Publication)
    (db : KvStoreDb) : KvStoreDb :=
  set_ttlCountdownQueue db
    (foldl (fun q kv =>
              if negb (ttl kv.2 =? kTtlInfinity) then
                q ++ [mkQueueEntry
                        (wrap_int64 (timeNow + wrap_int64 (ttl kv.2 * 1000000)))
                        kv.1 (version kv.2) (ttlVersion kv.2)
                        (originatorId kv.2)]
              else q)
           (ttlCountdownQueue_ db) (map_to_list (keyVals publication))).

Definition map_is_empty {A : Type} (m : gmap string A) : bool :=
  bool_decide (size m = 0%nat).

(** Returns the database after the call and the reported number of
    key-value updates. *)
Definition mergePublication (timeNow : Z) (rcvdPublication : Publication)
    (senderId : option string) (db : KvStoreDb) : result (KvStoreDb * nat) :=
  (* Add counters *)
  let db := addStatValue "kvstore.received_publications" 1 db in
  let db := addStatValue ("kvstore.received_publications." +:+ area_ db) 1 db in
  let db := addStatValue "kvstore.received_key_vals"
              (Z.of_nat (size (keyVals rcvdPublication))) db in
  let db := addStatValue ("kvstore.received_key_vals." +:+ area_ db)
              (Z.of_nat (size (keyVals rcvdPublication))) db in
  let keysTobeUpdated : gset string :=
    list_to_set (default [] (tobeUpdatedKeys rcvdPublication)) in
  let '(keysTobeUpdated, db) :=
    match senderId with
    | Some sender =>
        match thriftPeers_ db !! sender with
        | Some peer =>
            (keysTobeUpdated ∪ pendingKeysDuringInitialization peer,
             set_thriftPeers db
               (<[sender := mkPeer (peerState peer) (numThriftApiErrors peer) ∅]>
                  (thriftPeers_ db)))
        | None => (keysTobeUpdated, db)
        end
    | None => (keysTobeUpdated, db)
    end in
  let needFinalizeFullSync :=
    bool_decide (is_Some senderId) && negb (set_is_empty keysTobeUpdated) in
  (* This can happen when KvStore is emitting expired-key updates *)
  if map_is_empty (keyVals rcvdPublication) && negb needFinalizeFullSync
  then Ok (db, 0%nat)
  else
    (* loop detection *)
    if match nodeIds rcvdPublication with
       | Some ids => bool_decide (nodeId db ∈ ids)
       | None => false
       end
    then Ok (addStatValue "kvstore.looped_publications" 1 db, 0%nat)
    else
      (* Generate delta with local KvStore *)
      merged ← mergeKeyValues (kvStore_ db) (keyVals rcvdPublication) (filters db);
      let db := set_kvStore db merged.1 in
      let deltaPublication :=
        mkPublication merged.2 [] (nodeIds rcvdPublication) None
          (floodRootId rcvdPublication) (area_ db) in
      let kvUpdateCnt := size merged.2 in
      let db := addStatValue "kvstore.updated_key_vals" (Z.of_nat kvUpdateCnt) db in
      let db := addStatValue ("kvstore.updated_key_vals." +:+ area_ db)
                  (Z.of_nat kvUpdateCnt) db in
      (* Update ttl values of keys *)
      let db := updateTtlCountdownQueue timeNow deltaPublication db in
      let db :=
        if negb (map_is_empty merged.2)
        then floodPublication deltaPublication db
        else addStatValue "kvstore.received_redundant_publications" 1 db in
      let db :=
        if needFinalizeFullSync
        then match senderId with
             | Some sender => finalizeFullSync keysTobeUpdated sender db
             | None => db
             end
        else db in
      Ok (db, kvUpdateCnt).

End MergePublication.

(** ** Initialization barrier

    The projection of [KvStore] and [KvStoreDb] on the members that decide
    the KVSTORE_SYNCED signal: per area the peer states, the error counts and
    [initialSyncCompleted_]; globally [initialSyncSignalSent_] and the
    outbound queue of [KvStorePublication] variants. *)

Module Barrier.

Inductive InitializationEvent : Type :=
| INITIALIZING | AGENT_CONFIGURED | LINK_DISCOVERED | NEIGHBOR_DISCOVERED
| KVSTORE_SYNCED | RIB_COMPUTED | FIB_SYNCED | PREFIX_DB_SYNCED
| INITIALIZATION_DONE      (* INITIALIZED = 8 in the thrift enum *)
| PEERS_DISCOVERED | PEER_DISCOVERY_ERROR | KVSTORE_SYNC_ERROR.

(** [std::variant<thrift::Publication, thrift::InitializationEvent>] *)
Inductive KvStorePublication : Type :=
| PublicationMsg (p : Publication)
| InitializationMsg (e : InitializationEvent).

Record KvStorePeer : Type := mkPeer {
  peerState : KvStorePeerState;
  numThriftApiErrors : Z
}.

Record KvStoreDb : Type := mkDb {
  thriftPeers_ : gmap string KvStorePeer;
  initialSyncCompleted_ : bool
}.

Record KvStore : Type := mkStore {
  kvStoreDb_ : gmap string KvStoreDb;
  initialSyncSignalSent_ : bool;
  kvStoreUpdatesQueue : list KvStorePublication
}.

(** [PeerEvent] maps an area to the peers to add and to delete. *)
Record AreaPeerEvent : Type := mkAreaPeerEvent {
  peersToAdd : list string;      (* names of the [PeersMap] entries *)
  peersToDel : list string
}.

Definition set_db (st : KvStore) (a : string) (db : KvStoreDb) : KvStore :=
  mkStore (<[a := db]> (kvStoreDb_ st)) (initialSyncSignalSent_ st)
    (kvStoreUpdatesQueue st).

Definition push (m : KvStorePublication) (st : KvStore) : KvStore :=
  mkStore (kvStoreDb_ st) (initialSyncSignalSent_ st)
    (kvStoreUpdatesQueue st ++ [m]).

(** Modelled from the spec: the getters [getInitialSyncedWithPeers] and
    [getPeerCnt] are defined in the class header, outside the translated
    sources; they read the area's completion flag and the number of its
    thrift peers. *)
Definition getInitialSyncedWithPeers (db : KvStoreDb) : bool :=
  initialSyncCompleted_ db.
Definition getPeerCnt (db : KvStoreDb) : nat := size (thriftPeers_ db).

(** [KvStore::initialKvStoreDbSynced] *)
Fixpoint allDbSynced (dbs : list (string * KvStoreDb)) : bool :=
  match dbs with
  | [] => true
  | (_, db) :: rest =>
      if negb (getInitialSyncedWithPeers db) then false else allDbSynced rest
  end.

Definition initialKvStoreDbSynced (st : KvStore) : KvStore :=
  if negb (allDbSynced (map_to_list (kvStoreDb_ st))) then st
  else if negb (initialSyncSignalSent_ st) then
    (* Publish KvStore synced signal. *)
    mkStore (kvStoreDb_ st) true
      (kvStoreUpdatesQueue st ++ [InitializationMsg KVSTORE_SYNCED])
  else st.

(** The loop of [processInitializationEvent]: [false] when it returns
    early on a peer that is neither INITIALIZED nor has seen an error. *)
Fixpoint peersSynced (peers : list (string * KvStorePeer)) : bool :=
  match peers with
  | [] => true
  | (_, peerStore) :: rest =>
      if bool_decide (peerState peerStore = INITIALIZED) then peersSynced rest
      else if numThriftApiErrors peerStore >? 0 then peersSynced rest
      else false
  end.

(** [KvStoreDb::processInitializationEvent] of the database of area [a],
    followed by the callback into [KvStore]. *)
Definition processInitializationEvent (a : string) (st : KvStore) : KvStore :=
  match kvStoreDb_ st !! a with
  | None => st
  | Some db =>
      if peersSynced (map_to_list (thriftPeers_ db)) then
        (* Sync with all peers are completed. *)
        let st := set_db st a (mkDb (thriftPeers_ db) true) in
        initialKvStoreDbSynced st
      else st
  end.

(** [KvStoreDb::processThriftSuccess]; [pushed] are the publications that
    [mergePublication] floods to the subscribers during the call. *)
Definition processThriftSuccess (a peerName : string)
    (pushed : list Publication) (st : KvStore) : result KvStore :=
  match kvStoreDb_ st !! a with
  | None => Ok st
  | Some db =>
      match thriftPeers_ db !! peerName with
      | None => Ok st
      | Some peer =>
          if bool_decide (peerState peer = IDLE) then Ok st
          else
            let st := foldl (fun s p => push (PublicationMsg p) s) st pushed in
            (* State transition *)
            let oldState := peerState peer in
            next ← getNextState (Some oldState) SYNC_RESP_RCVD;
            let db' :=
              mkDb (<[peerName := mkPeer next (numThriftApiErrors peer)]>
                      (thriftPeers_ db))
                   (initialSyncCompleted_ db) in
            let st := set_db st a db' in
            if negb (initialSyncCompleted_ db') then
              Ok (processInitializationEvent a st)
            else Ok st
      end
  end.

(** [KvStoreDb::processThriftFailure] *)
Definition processThriftFailure (a peerName : string) (st : KvStore)
  : result KvStore :=
  match kvStoreDb_ st !! a with
  | None => Ok st
  | Some db =>
      match thriftPeers_ db !! peerName with
      | None => Ok st
      | Some peer =>
          let oldState := peerState peer in
          next ← getNextState (Some oldState) THRIFT_API_ERROR;
          let db' :=
            mkDb (<[peerName := mkPeer next (numThriftApiErrors peer + 1)]>
                    (thriftPeers_ db))
                 (initialSyncCompleted_ db) in
          let st := set_db st a db' in
          if negb (initialSyncCompleted_ db') then
            Ok (processInitializationEvent a st)
          else Ok st
      end
  end.

(** [KvStoreDb::addThriftPeers]: a known peer is reset to IDLE and keeps its
    error count; a new peer starts IDLE without errors. *)
Definition addThriftPeers (peers : list string) (db : KvStoreDb) : KvStoreDb :=
  mkDb
    (foldl (fun ps peerName =>
              match ps !! peerName with
              | Some peer => <[peerName := mkPeer IDLE (numThriftApiErrors peer)]> ps
              | None => <[peerName := mkPeer IDLE 0]> ps
              end)
           (thriftPeers_ db) peers)
    (initialSyncCompleted_ db).

(** [KvStoreDb::delThriftPeers] *)
Definition delThriftPeers (peers : list string) (db : KvStoreDb) : KvStoreDb :=
  mkDb (foldl (fun ps peerName => delete peerName ps) (thriftPeers_ db) peers)
    (initialSyncCompleted_ db).

(** [KvStoreDb::requestThriftPeerSync]: [ready] lists the peers whose
    backoff allows a try and whose client could be created, in the order in
    which the scan reaches them before it stops. *)
Fixpoint requestThriftPeerSync (ready : list string) (db : KvStoreDb)
  : result KvStoreDb :=
  match ready with
  | [] => Ok db
  | peerName :: rest =>
      match thriftPeers_ db !! peerName with
      | Some peer =>
          if bool_decide (peerState peer = IDLE) then
            next ← getNextState (Some (peerState peer)) PEER_ADD;
            requestThriftPeerSync rest
              (mkDb (<[peerName := mkPeer next (numThriftApiErrors peer)]>
                       (thriftPeers_ db))
                    (initialSyncCompleted_ db))
          else requestThriftPeerSync rest db
      | None => requestThriftPeerSync rest db
      end
  end.

Section WithPlatform.
Context `{Platform}.

(** [semifuture_addUpdateKvStorePeers(area, peers).get()] *)
Definition addUpdateKvStorePeers (a : string) (peers : list string)
    (st : KvStore) : KvStoreError + KvStore :=
  match getAreaDbOrThrow (kvStoreDb_ st) a with
  | inl e => inl e
  | inr (a', db) =>
      if is_nil peers
      then inl (mkKvStoreError "Empty peerNames from peer-add request, ignoring")
      else inr (set_db st a' (addThriftPeers peers db))
  end.

(** [semifuture_deleteKvStorePeers(area, peers).get()] *)
Definition deleteKvStorePeers (a : string) (peers : list string)
    (st : KvStore) : KvStoreError + KvStore :=
  match getAreaDbOrThrow (kvStoreDb_ st) a with
  | inl e => inl e
  | inr (a', db) =>
      if is_nil peers
      then inl (mkKvStoreError "Empty peerNames from peer-del request, ignoring")
      else inr (set_db st a' (delThriftPeers peers db))
  end.

(** First loop of [processPeerUpdates]; an exception leaves the loop with
    the state reached so far. *)
Fixpoint applyPeerEvent (event : list (string * AreaPeerEvent)) (st : KvStore)
  : KvStore * option KvStoreError :=
  match event with
  | [] => (st, None)
  | (a, areaPeerEvent) :: rest =>
      match
        (if negb (is_nil (peersToAdd areaPeerEvent))
         then addUpdateKvStorePeers a (peersToAdd areaPeerEvent) st
         else inr st)
      with
      | inl e => (st, Some e)
      | inr st1 =>
          match
            (if negb (is_nil (peersToDel areaPeerEvent))
             then deleteKvStorePeers a (peersToDel areaPeerEvent) st1
             else inr st1)
          with
          | inl e => (st1, Some e)
          | inr st2 => applyPeerEvent rest st2
          end
      end
  end.

(** Second loop of [processPeerUpdates], over the areas of [kvStoreDb_]. *)
Definition completeEmptyAreas (st : KvStore) : KvStore :=
  foldl (fun s entry =>
           match kvStoreDb_ s !! entry.1 with
           | Some db =>
               if negb (bool_decide (getPeerCnt db = 0%nat)) then s
               else processInitializationEvent entry.1 s
           | None => s
           end)
        st (map_to_list (kvStoreDb_ st)).

(** [KvStore::processPeerUpdates]; when an exception escapes the first
    loop the second one is not reached. *)
Definition processPeerUpdates (event : list (string * AreaPeerEvent))
    (st : KvStore) : KvStore :=
  match applyPeerEvent event st with
  | (st', Some _) => st'
  | (st', None) =>
      if negb (initialSyncSignalSent_ st') then completeEmptyAreas st'
      else st'
  end.

(** What can happen to the store between two observations. *)
Inductive Event : Type :=
| PeerUpdates (event : list (string * AreaPeerEvent))
| AddPeers (a : string) (peers : list string)
| DelPeers (a : string) (peers : list string)
| SyncTimer (a : string) (ready : list string)
| ThriftSuccess (a peerName : string) (pushed : list Publication)
| ThriftFailure (a peerName : string)
| Flood (p : Publication).

Definition step (e : Event) (st : KvStore) : result KvStore :=
  match e with
  | PeerUpdates event => Ok (processPeerUpdates event st)
  | AddPeers a peers =>
      match addUpdateKvStorePeers a peers st with
      | inl _ => Ok st
      | inr st' => Ok st'
      end
  | DelPeers a peers =>
      match deleteKvStorePeers a peers st with
      | inl _ => Ok st
      | inr st' => Ok st'
      end
  | SyncTimer a ready =>
      match kvStoreDb_ st !! a with
      | None => Ok st
      | Some db => db' ← requestThriftPeerSync ready db; Ok (set_db st a db')
      end
  | ThriftSuccess a peerName pushed => processThriftSuccess a peerName pushed st
  | ThriftFailure a peerName => processThriftFailure a peerName st
  | Flood p => Ok (push (PublicationMsg p) st)
  end.

Fixpoint run (evs : list Event) (st : KvStore) : result KvStore :=
  match evs with
  | [] => Ok st
  | e :: rest => st' ← step e st; run rest st'
  end.

(** The store as the constructor leaves it: one database per configured
    area, without peers. *)
Definition initial (areaIds : gset string) : KvStore :=
  mkStore (gset_to_gmap (mkDb ∅ false) areaIds) false [].

Definition isSyncedSignal (m : KvStorePublication) : bool :=
  match m with
  | InitializationMsg KVSTORE_SYNCED => true
  | _ => false
  end.

(** Number of KVSTORE_SYNCED events published so far. *)
Definition syncedCount (q : list KvStorePublication) : nat :=
  length (List.filter isSyncedSignal q).

End WithPlatform.

End Barrier.

(** ** Dumps: [KvStoreDb::getKeyVals], [dumpAllWithFilters], [dumpHashWithFilters]

    A default-constructed [thrift::Publication] has empty [keyVals] and
    [expiredKeys] and its optional fields unset. Where [keyMatch] is called
    with two arguments the operator is the default of its declaration in
    [KvStore.h], which is [FilterOperator::OR] (see the comment at the call
    in [semifuture_dumpKvStoreKeys]). *)

(** [KvStoreDb::getKeyVals] *)
Definition getKeyVals (area_ : string) (kvStore_ : gmap string Value)
    (keys : list string) : Publication :=
  set_keyVals (emptyPublication area_)
    (foldl (fun kvs key =>
              (* if requested key if found, respond with version and value *)
              match kvStore_ !! key with
              | Some v => <[key := v]> kvs
              | None => kvs
              end)
           ∅ keys).

(** [KvStoreDb::dumpAllWithFilters] *)
Definition dumpAllWithFilters (area_ : string) (kvStore_ : gmap string Value)
    (kvFilters : KvStoreFilters) (oper : FilterOperator) : Publication :=
  set_keyVals (emptyPublication area_)
    match oper with
    | AND =>
        foldl (fun kvs kv =>
                 if negb (keyMatchAll kvFilters kv.1 kv.2) then kvs
                 else <[kv.1 := kv.2]> kvs)
              ∅ (map_to_list kvStore_)
    | OR =>
        foldl (fun kvs kv =>
                 if negb (keyMatch kvFilters kv.1 kv.2 OR) then kvs
                 else <[kv.1 := kv.2]> kvs)
              ∅ (map_to_list kvStore_)
    end.

(** The record that [dumpHashWithFilters] writes for a stored value: every
    field but the payload. *)
Definition hashOnly (v : Value) : Value :=
  mkValue (version v) (originatorId v) None (ttl v) (ttlVersion v) (hash v).

(** [KvStoreDb::dumpHashWithFilters]; the [DCHECK] on the hash is compiled
    out of release builds and has no effect on the result. *)
Definition dumpHashWithFilters (area_ : string) (kvStore_ : gmap string Value)
    (kvFilters : KvStoreFilters) : Publication :=
  set_keyVals (emptyPublication area_)
    (foldl (fun kvs kv =>
              if negb (keyMatch kvFilters kv.1 kv.2 OR) then kvs
              else <[kv.1 := hashOnly kv.2]> kvs)
           ∅ (map_to_list kvStore_)).


(** ** Ttl expiry: [KvStoreDb::cleanupTtlCountdownQueue]

    [TtlCountdownQueue] is declared in [KvStore.h]. The function uses it as
    a priority queue on the expiry time through [empty], [top] and [pop];
    the two operations are parameters here, on the list of queued entries,
    and [queueLaws] states what the loop relies on: [top] is an entry with
    the least expiry time and [pop] removes it. *)

Definition queueLaws
    (top : list TtlCountdownQueueEntry → option TtlCountdownQueueEntry)
    (pop : list TtlCountdownQueueEntry → list TtlCountdownQueueEntry) : Prop :=
  ∀ queue,
    match top queue with
    | None => queue = []
    | Some t =>
        queue ≡ₚ t :: pop queue
        ∧ ∀ e, e ∈ queue → expiryTime t ≤ expiryTime e
    end.

Section TtlExpiry.
Variable top : list TtlCountdownQueueEntry → option TtlCountdownQueueEntry.
Variable pop : list TtlCountdownQueueEntry → list TtlCountdownQueueEntry.

(** Body of the loop for a [top] that has expired, on the pair
    (kvStore_, expiredKeys). *)
Definition expireTop (t : TtlCountdownQueueEntry)
    (st : gmap string Value * list string) : gmap string Value * list string :=
  match st.1 !! qKey t with
  | Some v =>
      if (version v =? qVersion t)
         && bool_decide (originatorId v = qOriginatorId t)
         && (ttlVersion v =? qTtlVersion t)
      then (delete (qKey t) st.1, st.2 ++ [qKey t])
      else st
  | None => st
  end.

(** [while (not ttlCountdownQueue_.empty())]: every iteration pops one
    entry, so the length of the queue bounds the number of iterations. *)
Fixpoint cleanupLoop (fuel : nat) (now : Z) (queue : list TtlCountdownQueueEntry)
    (st : gmap string Value * list string)
  : list TtlCountdownQueueEntry * (gmap string Value * list string) :=
  match fuel with
  | O => (queue, st)
  | S fuel =>
      match top queue with
      | None => (queue, st)
      | Some t =>
          if expiryTime t >? now then
            (* Nothing in queue worth evicting *)
            (queue, st)
          else cleanupLoop fuel now (pop queue) (expireTop t st)
      end
  end.

(** Returns the database after the call and the publication of expired keys
    handed to [floodPublication], if any. The rescheduling of the countdown
    timer and the log sample of [logKvEvent] are not part of the state. *)
Definition cleanupTtlCountdownQueue (now : Z) (db : KvStoreDb)
  : KvStoreDb * option Publication :=
  let '(queue, (kvStore, expiredKeys)) :=
    cleanupLoop (length (ttlCountdownQueue_ db)) now (ttlCountdownQueue_ db)
      (kvStore_ db, []) in
  let db := set_ttlCountdownQueue (set_kvStore db kvStore) queue in
  if is_nil expiredKeys then
    (* no key expires *)
    (db, None)
  else
    (addStatValue "kvstore.expired_key_vals" (Z.of_nat (length expiredKeys)) db,
     Some (mkPublication ∅ expiredKeys None None None (area_ db))).

End TtlExpiry.

(** A queue on a plain list: the first entry among those with the least
    expiry time, together with the other entries. *)
Fixpoint extractMin (queue : list TtlCountdownQueueEntry)
  : option (TtlCountdownQueueEntry * list TtlCountdownQueueEntry) :=
  match queue with
  | [] => None
  | e :: rest =>
      match extractMin rest with
      | None => Some (e, [])
      | Some (m, others) =>
          if expiryTime e <=? expiryTime m then Some (e, rest)
          else Some (m, e :: others)
      end
  end.

Definition list_top (queue : list TtlCountdownQueueEntry)
  : option TtlCountdownQueueEntry := fst <$> extractMin queue.

Definition list_pop (queue : list TtlCountdownQueueEntry)
  : list TtlCountdownQueueEntry :=
  match extractMin queue with
  | Some (_, others) => others
  | None => []
  end.


(** ** Self-originated keys against received publications:
       [KvStoreDb::processPublicationForSelfOriginatedKey] *)

(** Body of the loop, on the pair (selfOriginatedKeyVals_,
    keysToAdvertise_). *)
Definition refreshSelfOriginatedKey (nodeId : string)
    (st : gmap string Value * gset string) (key : string) (rcvdValue : Value)
  : result (gmap string Value * gset string) :=
  match value rcvdValue with
  | None => Ok st                              (* ignore TTL update *)
  | Some rcvdPayload =>
      match st.1 !! key with
      | None => Ok st                          (* none of our interest *)
      | Some currValue =>
          let currVersion := version currValue in
          let rcvdVersion := version rcvdValue in
          if currVersion >? rcvdVersion then
            (* case-1: ignore rcvdValue since it is "older" than local keys. *)
            Ok st
          else
            shouldOverride ←
              (if currVersion <? rcvdVersion then
                 (* case-2: rcvdValue has higher version, MUST override. *)
                 Ok true
               else if negb (bool_decide (originatorId rcvdValue = nodeId))
               then Ok true
               else
                 currPayload ← field_value (value currValue);
                 Ok (negb (bool_decide (currPayload = rcvdPayload))));
            if shouldOverride : bool then
              Ok (<[key := mkValue (wrap_int64 (rcvdVersion + 1))
                             (originatorId currValue) (value currValue)
                             (ttl currValue) 0 (hash currValue)]> st.1,
                  st.2 ∪ {[key]})
            else if ttlVersion currValue <? ttlVersion rcvdValue then
              (* update local ttlVersion if received higher ttlVersion. *)
              Ok (<[key := set_ttl currValue (ttl currValue)
                             (ttlVersion rcvdValue)]> st.1, st.2)
            else Ok st
      end
  end.

Fixpoint refreshLoop (nodeId : string) (st : gmap string Value * gset string)
    (kvs : list (string * Value)) : result (gmap string Value * gset string) :=
  match kvs with
  | [] => Ok st
  | (key, rcvdValue) :: rest =>
      st' ← refreshSelfOriginatedKey nodeId st key rcvdValue;
      refreshLoop nodeId st' rest
  end.

(** Returns the database and the number of calls of
    [advertiseSelfOriginatedKeysThrottled_], whose timer is not part of the
    state. *)
Definition processPublicationForSelfOriginatedKey (publication : Publication)
    (db : KvStoreDb) : result (KvStoreDb * nat) :=
  (* direct return to avoid performance issue *)
  if map_is_empty (selfOriginatedKeyVals_ db) then Ok (db, 0%nat)
  else
    st ← refreshLoop (nodeId db) (selfOriginatedKeyVals_ db, keysToAdvertise_ db)
           (map_to_list (keyVals publication));
    Ok (set_selfOriginated db st.1 st.2, 1%nat).


(** ** Rate-limited flooding: [KvStoreDb::bufferPublication],
       [KvStoreDb::floodBufferedUpdates]

    [publicationBuffer_] maps a flood root id (or none) to the keys that
    wait to be flooded. The counters are sums of the values added to them. *)

Abbreviation PublicationBuffer := (gmap (option string) (gset string)).

(** [publicationBuffer_[floodRootId].emplace(key)] *)
Definition bufferKey (floodRootId : option string) (buffer : PublicationBuffer)
    (key : string) : PublicationBuffer :=
  <[floodRootId := default ∅ (buffer !! floodRootId) ∪ {[key]}]> buffer.

Definition bufferPublication (publication : Publication)
    (st : KvStoreDb * PublicationBuffer) : KvStoreDb * PublicationBuffer :=
  let '(db, buffer) := st in
  let db := addStatValue "kvstore.rate_limit_suppress" 1 db in
  let db := addStatValue "kvstore.rate_limit_keys"
              (Z.of_nat (size (keyVals publication))) db in
  let floodRootId := floodRootId publication in
  (* update or add keys *)
  let buffer :=
    foldl (fun b kv => bufferKey floodRootId b kv.1) buffer
          (map_to_list (keyVals publication)) in
  let buffer := foldl (bufferKey floodRootId) buffer (expiredKeys publication) in
  (db, buffer).

Definition set_expiredKeys (p : Publication) (ks : list string) : Publication :=
  mkPublication (keyVals p) ks (nodeIds p) (tobeUpdatedKeys p)
    (floodRootId p) (area p).

(** The publication merged for one root id: the buffered keys with the
    values that the store holds now, and as expired keys those that it no
    longer holds. The area of the publication is left at its default. *)
Definition mergedPublication (kvStore_ : gmap string Value)
    (rootId : option string) (keys : list string) : Publication :=
  foldl (fun publication key =>
           match kvStore_ !! key with
           | Some v =>
               set_keyVals publication (emplace key v (keyVals publication))
           | None =>
               set_expiredKeys publication (expiredKeys publication ++ [key])
           end)
        (mkPublication ∅ [] None None rootId EmptyString) keys.

(** Returns the publications handed to [floodPublication] (without rate
    limit and without setting the flood root), in the order of the buffer,
    and the buffer after the call. *)
Definition floodBufferedUpdates (kvStore_ : gmap string Value)
    (buffer : PublicationBuffer) : list Publication * PublicationBuffer :=
  if bool_decide (size buffer = 0%nat) then ([], buffer)
  else
    (* merge publication per root-id *)
    ((fun entry => mergedPublication kvStore_ entry.1 (elements entry.2))
       <$> map_to_list buffer,
     ∅).


(** ** Local writes: [KvStoreDb::setKeyVals] *)

(** [thrift::KeySetParams], the fields that [setKeyVals] reads. *)
Record KeySetParams : Type := mkKeySetParams {
  ks_keyVals : gmap string Value;
  ks_nodeIds : option (list string);
  ks_floodRootId : option string;
  ks_timestamp_ms : option Z
}.

Section SetKeyVals.
Context `{Platform}.
Variable floodPublication : Publication → KvStoreDb → KvStoreDb.
Variable finalizeFullSync : gset string → string → KvStoreDb → KvStoreDb.

(** The hash written over each value that has a payload. *)
Definition withContentHash (v : Value) : Value :=
  match value v with
  | Some _ => set_hash v (Some (generateHash (version v) (originatorId v) (value v)))
  | None => v
  end.

(** [unixNow] is [getUnixTimeStampMs()], [timeNow] the steady clock read by
    [updateTtlCountdownQueue]. [mergePublication] is called without a
    sender. *)
Definition setKeyVals (unixNow timeNow : Z) (setParams : KeySetParams)
    (db : KvStoreDb) : result KvStoreDb :=
  (* Update statistics *)
  let db := addStatValue "kvstore.cmd_key_set" 1 db in
  let db :=
    match ks_timestamp_ms setParams with
    | Some timestamp_ms =>
        let floodMs := unixNow - timestamp_ms in
        if floodMs >? 0
        then addStatValue "kvstore.flood_duration_ms" floodMs db
        else db
    | None => db
    end in
  (* Update hash for key-values *)
  let keyVals := withContentHash <$> ks_keyVals setParams in
  (* Create publication and merge it with local KvStore *)
  let rcvdPublication :=
    mkPublication keyVals [] (ks_nodeIds setParams) None
      (ks_floodRootId setParams) EmptyString in
  merged ← mergePublication floodPublication finalizeFullSync timeNow
             rcvdPublication None db;
  Ok merged.1.

End SetKeyVals.


(** ** Decision: [PrefixState] ([openr/decision/PrefixState.cpp])

    [folly::CIDRNetwork], [thrift::PrefixEntry] and [PrefixKey] are declared
    outside the translated sources. The functions use a network as the key of
    a hash map, compare prefix entries with [==], read the forwarding type
    and algorithm of an entry, and read the network and the (node, area)
    pair of a key; these are the parameters of the section. *)

Module PrefixState.

Inductive PrefixForwardingType : Type := IP | SR_MPLS.
Inductive PrefixForwardingAlgorithm : Type := SP_ECMP | KSP2_ED_ECMP.

#[global] Instance PrefixForwardingType_eq_dec : EqDecision PrefixForwardingType.
Proof. solve_decision. Defined.
#[global] Instance PrefixForwardingAlgorithm_eq_dec :
  EqDecision PrefixForwardingAlgorithm.
Proof. solve_decision. Defined.

(** [NodeAndArea]: a pair (node name, area). *)
Abbreviation NodeAndArea := (string * string)%type.

Section WithTypes.
Context {CIDRNetwork : Type} `{Countable CIDRNetwork}.
Context {PrefixEntry : Type} `{EqDecision PrefixEntry}.
Variable forwardingType : PrefixEntry → PrefixForwardingType.
Variable forwardingAlgorithm : PrefixEntry → PrefixForwardingAlgorithm.

Record PrefixKey : Type := mkPrefixKey {
  getCIDRNetwork : CIDRNetwork;
  getNodeAndArea : NodeAndArea
}.

(** [prefixes_]: per network, the entry of each (node, area). *)
Abbreviation PrefixEntries := (gmap NodeAndArea PrefixEntry).
Abbreviation Prefixes := (gmap CIDRNetwork (gmap NodeAndArea PrefixEntry)).

(** [PrefixState::updatePrefix]: the set of changed networks and the state
    after the call. *)
Definition updatePrefix (key : PrefixKey) (entry : PrefixEntry)
    (prefixes_ : Prefixes) : gset CIDRNetwork * Prefixes :=
  (* prefixes_[key.getCIDRNetwork()] *)
  let entries := default ∅ (prefixes_ !! getCIDRNetwork key) in
  match entries !! getNodeAndArea key with
  | Some old =>
      (* not inserted *)
      if decide (old = entry) then
        (* Skip rest of code, if prefix exists and has no change *)
        (∅, prefixes_)
      else
        ({[getCIDRNetwork key]},
         <[getCIDRNetwork key := <[getNodeAndArea key := entry]> entries]>
           prefixes_)
  | None =>
      ({[getCIDRNetwork key]},
       <[getCIDRNetwork key := <[getNodeAndArea key := entry]> entries]>
         prefixes_)
  end.

(** [PrefixState::deletePrefix] *)
Definition deletePrefix (key : PrefixKey) (prefixes_ : Prefixes)
  : gset CIDRNetwork * Prefixes :=
  match prefixes_ !! getCIDRNetwork key with
  | Some entries =>
      match entries !! getNodeAndArea key with
      | Some _ =>
          let entries := delete (getNodeAndArea key) entries in
          ({[getCIDRNetwork key]},
           (* clean up data structures *)
           if bool_decide (size entries = 0%nat)
           then delete (getCIDRNetwork key) prefixes_
           else <[getCIDRNetwork key := entries]> prefixes_)
      | None => (∅, prefixes_)
      end
  | None => (∅, prefixes_)
  end.

(** The loop of [hasConflictingForwardingInfo] against the first entry. *)
Fixpoint conflictsWith (firstEntry : PrefixEntry)
    (entries : list (NodeAndArea * PrefixEntry)) : bool :=
  match entries with
  | [] => false
  | (_, entry) :: rest =>
      if negb (bool_decide (forwardingAlgorithm firstEntry
                            = forwardingAlgorithm entry)) then true
      else if negb (bool_decide (forwardingType firstEntry
                                 = forwardingType entry)) then true
      else conflictsWith firstEntry rest
  end.

(** [PrefixState::hasConflictingForwardingInfo] *)
Definition hasConflictingForwardingInfo (prefixEntries : PrefixEntries) : bool :=
  match map_to_list prefixEntries with
  | [] => false           (* empty entries are no conflict *)
  | (_, firstEntry) :: _ =>
      conflictsWith firstEntry (map_to_list prefixEntries)
  end.

(** The thrift structures of the received-routes query, with the fields that
    [PrefixState.cpp] reads and writes.  The conversions between a thrift
    prefix and a network are those of [LsdbUtil]. *)
Context {IpPrefix : Type}.
Variable toIPNetwork : IpPrefix → CIDRNetwork.
Variable toIpPrefix : CIDRNetwork → IpPrefix.

Record ReceivedRoute : Type := mkReceivedRoute {
  rr_key : NodeAndArea;          (* key.node, key.area *)
  rr_route : PrefixEntry
}.

Record ReceivedRouteDetail : Type := mkReceivedRouteDetail {
  rd_prefix : IpPrefix;
  rd_routes : list ReceivedRoute
}.

Record ReceivedRouteFilter : Type := mkReceivedRouteFilter {
  rf_prefixes : option (list IpPrefix);
  rf_nodeName : option string;
  rf_areaName : option string
}.

(** [PrefixState::filterAndAddReceivedRoute] *)
Definition filterAndAddReceivedRoute (routes : list ReceivedRouteDetail)
    (nodeFilter areaFilter : option string) (prefix : CIDRNetwork)
    (prefixEntries : PrefixEntries) : list ReceivedRouteDetail :=
  (* Return immediately if no prefix-entry *)
  if bool_decide (size prefixEntries = 0%nat) then routes
  else
    (* Add prefix entries and honor the filter *)
    let detailRoutes :=
      foldl (fun acc (item : NodeAndArea * PrefixEntry) =>
               let '(nodeAndArea, prefixEntry) := item in
               if match nodeFilter with
                  | Some n => negb (bool_decide (n = nodeAndArea.1))
                  | None => false
                  end then acc
               else if match areaFilter with
                       | Some a => negb (bool_decide (a = nodeAndArea.2))
                       | None => false
                       end then acc
               else acc ++ [mkReceivedRoute nodeAndArea prefixEntry])
            [] (map_to_list prefixEntries) in
    (* Add detail if there are entries to return *)
    if negb (bool_decide (length detailRoutes = 0%nat))
    then routes ++ [mkReceivedRouteDetail (toIpPrefix prefix) detailRoutes]
    else routes.

(** [PrefixState::getReceivedRoutesFiltered] *)
Definition getReceivedRoutesFiltered (filter : ReceivedRouteFilter)
    (prefixes_ : Prefixes) : list ReceivedRouteDetail :=
  match rf_prefixes filter with
  | Some prefixes =>
      foldl (fun routes prefix =>
               match prefixes_ !! toIPNetwork prefix with
               | None => routes
               | Some entries =>
                   filterAndAddReceivedRoute routes
                     (rf_nodeName filter) (rf_areaName filter)
                     (toIPNetwork prefix) entries
               end)
            [] prefixes
  | None =>
      foldl (fun routes (item : CIDRNetwork * PrefixEntries) =>
               filterAndAddReceivedRoute routes
                 (rf_nodeName filter) (rf_areaName filter) item.1 item.2)
            [] (map_to_list prefixes_)
  end.

(** The entry of a node and area under a network. *)
Definition entryAt (prefixes_ : Prefixes) (network : CIDRNetwork)
    (nodeAndArea : NodeAndArea) : option PrefixEntry :=
  match prefixes_ !! network with
  | Some entries => entries !! nodeAndArea
  | None => None
  end.

(** No network is kept without an entry. *)
Definition noEmptyEntries (prefixes_ : Prefixes) : Prop :=
  ∀ network entries, prefixes_ !! network = Some entries → entries ≠ ∅.

End WithTypes.

End PrefixState.


(** ** Flooding to peers: the loop over [floodPeers] of
       [KvStoreDb::floodPublication]

    [floodPeers] is the result of [getFloodPeers], in the order in which the
    loop visits it; [senderId] is the node from which the publication came,
    if any, and [keyVals] the key-values of the request that is sent. A call
    of [semifuture_setKvStoreKeyVals] on the client of a peer is recorded in
    [peerRequests]. *)

Definition floodToPeer (senderId : option string) (keyVals : gmap string Value)
    (db : KvStoreDb) (peerName : string) : KvStoreDb :=
  match thriftPeers_ db !! peerName with
  | None => db                                 (* Invalid flooding peer *)
  | Some thriftPeer =>
      if bool_decide (senderId = Some peerName) then
        (* Do not flood towards senderId from whom we received this
           publication *)
        db
      else if negb (bool_decide (peerState thriftPeer = INITIALIZED)) then
        (* store key for flooding after intialized *)
        set_thriftPeers db
          (<[peerName :=
               mkPeer (peerState thriftPeer) (numThriftApiErrors thriftPeer)
                 (pendingKeysDuringInitialization thriftPeer ∪ dom keyVals)]>
             (thriftPeers_ db))
      else
        let db := addStatValue "kvstore.thrift.num_flood_pub" 1 db in
        let db := addStatValue "kvstore.thrift.num_flood_key_vals"
                    (Z.of_nat (size keyVals)) db in
        mkDb (area_ db) (nodeId db) (filters db) (kvStore_ db) (thriftPeers_ db)
          (ttlCountdownQueue_ db) (selfOriginatedKeyVals_ db)
          (keysToAdvertise_ db) (keysToUnset_ db) (unsetThrottleCalls db)
          (counters db) (updatesQueue db)
          (peerRequests db ++ [(peerName, keyVals)])
  end.

Definition floodToPeers (senderId : option string) (keyVals : gmap string Value)
    (floodPeers : list string) (db : KvStoreDb) : KvStoreDb :=
  foldl (floodToPeer senderId keyVals) db floodPeers.


(** ** The tuple order of the specification

    (version, originator id, payload), each compared "higher wins"; an absent
    payload is placed below every present one. *)

Definition payload_cmp (a b : option string) : comparison :=
  match a, b with
  | None, None => Eq
  | None, Some _ => Lt
  | Some _, None => Gt
  | Some x, Some y => String.compare x y
  end.

Definition tuple_cmp (a b : Value) : comparison :=
  match version a ?= version b with
  | Eq =>
      match String.compare (originatorId a) (originatorId b) with
      | Eq => payload_cmp (value a) (value b)
      | c => c
      end
  | c => c
  end.

(** [a] does not rank below [b]: greater tuple, or equal tuple and a
    ttl version that is not smaller. *)
Definition rank_le (b a : Value) : Prop :=
  tuple_cmp a b = Gt ∨ (tuple_cmp a b = Eq ∧ ttlVersion b ≤ ttlVersion a).

Definition passesFilter (filters : option KvStoreFilters) (key : string)
    (v : Value) : bool :=
  match filters with
  | Some f => keyMatch f key v OR
  | None => true
  end.

Definition validTtl `{Platform} (v : Value) : bool :=
  (ttl v =? kTtlInfinity) || (0 <? ttl v).

(** The entry found under a key after the loop body has run with the given
    action. *)
Definition mergedEntry `{Platform} (a : MergeAction) (cur : option Value)
    (v : Value) : option Value :=
  match a with
  | NoUpdate => cur
  | UpdateAll => Some (storedValue v)
  | UpdateTtl => (fun c => set_ttl c (ttl v) (ttlVersion v)) <$> cur
  end.

(** A sequence of publications merged one after the other. *)
Fixpoint mergeSequence `{Platform} (filters : option KvStoreFilters)
    (kvStore : gmap string Value) (pubs : list (gmap string Value))
  : result (gmap string Value) :=
  match pubs with
  | [] => Ok kvStore
  | keyVals :: rest =>
      merged ← mergeKeyValues kvStore keyVals filters;
      mergeSequence filters merged.1 rest
  end.

(** ** A reference platform

    [std::string::compare] returning -1, 0 or 1, a toy hash, and the values
    that [Constants.h] gives to the constants upstream. It instantiates the
    parameters in the examples. *)

Definition sign_compare (a b : string) : Z :=
  match String.compare a b with
  | Eq => 0
  | Lt => -1
  | Gt => 1
  end.

Definition toy_hash (v : Z) (o : string) (p : option string) : Z :=
  v + Z.of_nat (String.length o) + Z.of_nat (String.length (default EmptyString p)).

Definition reference_platform : Platform :=
  Build_Platform sign_compare
    ltac:(intros a b; unfold sign_compare; destruct (String.compare a b); lia)
    toy_hash (-2147483648) 500 "0".

(** ** The transition table of the specification *)

(** The transition table as the specification writes it (section 4.3);
    [None] is an undefined cell. PEER_DEL is not an event of that table. *)
Definition specTransition (s : KvStorePeerState) (e : KvStorePeerEvent)
  : option KvStorePeerState :=
  match s, e with
  | IDLE, PEER_ADD => Some SYNCING
  | IDLE, THRIFT_API_ERROR => Some IDLE
  | SYNCING, SYNC_RESP_RCVD => Some INITIALIZED
  | SYNCING, THRIFT_API_ERROR => Some IDLE
  | INITIALIZED, SYNC_RESP_RCVD => Some INITIALIZED
  | INITIALIZED, THRIFT_API_ERROR => Some IDLE
  | _, _ => None
  end.

(** ** Vocabulary of the merge, full-sync and ttl properties *)

Section Vocabulary.
Context `{Platform}.

(** The actions that put the incoming value into the second map returned by
    [mergeKeyValues] (the updates to flood). *)
Definition announced (a : MergeAction) : bool :=
  match a with
  | NoUpdate => false
  | _ => true
  end.

(** Every stored record carries a payload, as every record has that went
    through the value-update branch of [mergeKeyValues]. *)
Definition allHavePayload (kvStore : gmap string Value) : Prop :=
  ∀ k cur, kvStore !! k = Some cur → is_Some (value cur).

(** The two tests of the loop body of [dumpDifference], per key. *)
Definition sentBack (myKeyVal reqKeyVal : gmap string Value) (key : string) : bool :=
  match myKeyVal !! key, reqKeyVal !! key with
  | Some _, None => true
  | Some myVal, Some reqVal =>
      (compareValues myVal reqVal =? 1) || (compareValues myVal reqVal =? -2)
  | None, _ => false
  end.

Definition askedFor (myKeyVal reqKeyVal : gmap string Value) (key : string) : bool :=
  match myKeyVal !! key, reqKeyVal !! key with
  | None, _ => true
  | Some _, None => false
  | Some myVal, Some reqVal =>
      (compareValues myVal reqVal =? -1) || (compareValues myVal reqVal =? -2)
  end.

(** A countdown entry belongs to the record [v] stored under [key]. *)
Definition matchesEntry (key : string) (v : Value) (qE : TtlCountdownQueueEntry)
  : bool :=
  bool_decide (qKey qE = key)
  && (version v =? qVersion qE)
  && bool_decide (originatorId v = qOriginatorId qE)
  && (ttlVersion v =? qTtlVersion qE).

(** Remaining time of an entry, in milliseconds. *)
Definition timeLeft (timeNow : Z) (qE : TtlCountdownQueueEntry) : Z :=
  duration_cast_ms (expiryTime qE - timeNow).

(** The two tests that erase a record from the publication. *)
Definition aboutToExpire (ttlDecr timeNow : Z) (removeAboutToExpire : bool)
    (qE : TtlCountdownQueueEntry) : bool :=
  (timeLeft timeNow qE <=? ttlDecr)
  || (removeAboutToExpire && (timeLeft timeNow qE <? kTtlThreshold)).

(** What one matching countdown entry does to the record: erase it, or
    rewrite its ttl. *)
Definition ttlOutcome (ttlDecr timeNow : Z) (removeAboutToExpire : bool)
    (v : Value) (qE : TtlCountdownQueueEntry) : option Value :=
  if aboutToExpire ttlDecr timeNow removeAboutToExpire qE then None
  else Some (set_ttl v (timeLeft timeNow qE - ttlDecr) (ttlVersion v)).

End Vocabulary.

(** ** Vocabulary of the barrier properties *)

Section BarrierVocabulary.
Context `{Platform}.
Import Barrier.

(** Every peer of the area is INITIALIZED or has seen a thrift error. *)
Definition peersDone (db : Barrier.KvStoreDb) : Prop :=
  ∀ p peer, thriftPeers_ db !! p = Some peer →
            peerState peer = INITIALIZED ∨ 0 < numThriftApiErrors peer.

(** Every configured area has finished its initial sync. *)
Definition allCompleted (st : KvStore) : Prop :=
  ∀ a db, kvStoreDb_ st !! a = Some db → initialSyncCompleted_ db = true.

(** The area [a] is examined by [processInitializationEvent] while the
    event is processed (or was completed before it). *)
Definition checksArea (e : Event) (a : string) (st st' : KvStore) : Prop :=
  match e with
  | ThriftSuccess a' p _ =>
      a' = a ∧ ∃ db peer, kvStoreDb_ st !! a = Some db
                          ∧ thriftPeers_ db !! p = Some peer
                          ∧ peerState peer ≠ IDLE
  | ThriftFailure a' p =>
      a' = a ∧ ∃ db, kvStoreDb_ st !! a = Some db ∧ is_Some (thriftPeers_ db !! p)
  | PeerUpdates event =>
      (applyPeerEvent event st).2 = None
      ∧ ∃ db', kvStoreDb_ st' !! a = Some db' ∧ thriftPeers_ db' = ∅
  | _ => False
  end.

(** The invariant of the barrier: the signal has been sent exactly when
    there is an area and all areas are completed, and the outbound queue
    holds KVSTORE_SYNCED once if it has been sent and not at all
    otherwise. *)
Definition barrierInv (st : KvStore) : Prop :=
  (initialSyncSignalSent_ st = true → allCompleted st ∧ kvStoreDb_ st ≠ ∅)
  ∧ (allCompleted st → kvStoreDb_ st ≠ ∅ → initialSyncSignalSent_ st = true)
  ∧ syncedCount (kvStoreUpdatesQueue st)
    = (if initialSyncSignalSent_ st then 1 else 0)%nat.

(** How a step relates the database of an area before and after: the peers
    it ends with, the flag being sticky, and a flag that is newly set only
    when every peer is done. *)
Definition areaStep (st st' : KvStore) : Prop :=
  (∀ a, is_Some (kvStoreDb_ st' !! a) ↔ is_Some (kvStoreDb_ st !! a))
  ∧ (∀ a db db', kvStoreDb_ st !! a = Some db → kvStoreDb_ st' !! a = Some db' →
       (initialSyncCompleted_ db = true → initialSyncCompleted_ db' = true)
       ∧ (initialSyncCompleted_ db = false → initialSyncCompleted_ db' = true →
          peersDone db'))
  ∧ kvStoreUpdatesQueue st `prefix_of` kvStoreUpdatesQueue st'.

(** A step that leaves the flags and the signal alone and pushes no
    KVSTORE_SYNCED. *)
Definition sameFlags (st st' : KvStore) : Prop :=
  (∀ a, is_Some (kvStoreDb_ st' !! a) ↔ is_Some (kvStoreDb_ st !! a))
  ∧ (∀ a db db', kvStoreDb_ st !! a = Some db → kvStoreDb_ st' !! a = Some db' →
       initialSyncCompleted_ db' = initialSyncCompleted_ db)
  ∧ initialSyncSignalSent_ st' = initialSyncSignalSent_ st
  ∧ syncedCount (kvStoreUpdatesQueue st') = syncedCount (kvStoreUpdatesQueue st)
  ∧ kvStoreUpdatesQueue st `prefix_of` kvStoreUpdatesQueue st'.

(** The body of the loop of [processPeerUpdates] that completes the areas
    without peers. *)
Definition completeEmptyArea (s : KvStore) (entry : string * Barrier.KvStoreDb)
  : KvStore :=
  match kvStoreDb_ s !! entry.1 with
  | Some db =>
      if negb (bool_decide (getPeerCnt db = 0%nat)) then s
      else processInitializationEvent entry.1 s
  | None => s
  end.

End BarrierVocabulary.

(** ** Vocabulary of the full-sync comparison *)

(** Both records carry the same content hash. *)
Definition sameHash (v1 v2 : Value) : Prop :=
  ∃ h, hash v1 = Some h ∧ hash v2 = Some h.

(** [v1] wins against a record [v2] that carries no payload: greater
    version; or same version and greater originator id; or same version and
    originator, same content hash and greater ttl version. *)
Definition winsByHash (v1 v2 : Value) : Prop :=
  version v2 < version v1
  ∨ (version v1 = version v2
     ∧ String.compare (originatorId v1) (originatorId v2) = Gt)
  ∨ (version v1 = version v2 ∧ originatorId v1 = originatorId v2
     ∧ sameHash v1 v2 ∧ ttlVersion v2 < ttlVersion v1).

(** Neither record can be told better: same version and originator, and the
    content hashes are not both present and equal. *)
Definition comparisonUnknown (v1 v2 : Value) : Prop :=
  version v1 = version v2 ∧ originatorId v1 = originatorId v2
  ∧ ¬ sameHash v1 v2.

(** A request of hash-only records, as the initiator of a full sync sends
    them. *)
Definition hashOnlyRequest (reqKeyVal : gmap string Value) : Prop :=
  ∀ k reqVal, reqKeyVal !! k = Some reqVal → value reqVal = None.

(** ** Vocabulary of loop suppression *)

(** The keys that [mergePublication] is to send back to the sender: those
    that the publication asks for and those that were pending for the
    sender. *)
Definition keysToFinalize (rcvdPublication : Publication)
    (senderId : option string) (db : KvStoreDb) : gset string :=
  list_to_set (default [] (tobeUpdatedKeys rcvdPublication))
  ∪ match senderId with
    | Some sender =>
        match thriftPeers_ db !! sender with
        | Some peer => pendingKeysDuringInitialization peer
        | None => ∅
        end
    | None => ∅
    end.

(** The publication gets as far as the loop check: it carries a key-value,
    or it comes from a sender to which keys are to be sent back. *)
Definition reachesLoopCheck (rcvdPublication : Publication)
    (senderId : option string) (db : KvStoreDb) : bool :=
  bool_decide (keyVals rcvdPublication ≠ ∅
               ∨ (is_Some senderId
                  ∧ keysToFinalize rcvdPublication senderId db ≠ ∅)).

(** A peer after its pending keys were taken over. *)
Definition withoutPendingKeys (peer : KvStorePeer) : KvStorePeer :=
  mkPeer (peerState peer) (numThriftApiErrors peer) ∅.

(** ** Example data *)

Definition example_current : Value :=
  mkValue 1 "A" (Some "x"%string) 1000 5 (Some 3).

Definition example_db : KvStoreDb :=
  mkDb "1" "node1" None
    {["other"%string := example_current]} ∅ []
    {["k"%string := example_current]} {["k"%string]} ∅ 0 ∅ [] [].

Definition example_looped_publication : Publication :=
  mkPublication {["k"%string := example_current]} []
    (Some ["node1"%string; "node2"%string]) None None "1".

(** The same database with the peer "node2", for which the key "p" is
    pending. *)
Definition example_db_pending : KvStoreDb :=
  set_thriftPeers example_db
    {["node2"%string := mkPeer INITIALIZED 0 {["p"%string]}]}.

(** A publication of expired keys only that has passed through "node1". *)
Definition example_expired_looped_publication : Publication :=
  mkPublication ∅ ["k"%string] (Some ["node1"%string; "node2"%string])
    None None "1".

Definition example_entry : TtlCountdownQueueEntry :=
  mkQueueEntry 300000000 "k" 1 5 "A".

Definition example_outgoing : Publication :=
  mkPublication {["k"%string := example_current]} [] None None None "1".

Definition example_areas : gset string := {["1"%string]}.

(** The neighbour "peerB" is reported in area "1", the sync timer promotes
    it to SYNCING, and its full-sync response arrives. *)
Definition example_run : list Barrier.Event :=
  [ Barrier.PeerUpdates [("1"%string, Barrier.mkAreaPeerEvent ["peerB"%string] [])];
    Barrier.SyncTimer "1" ["peerB"%string];
    Barrier.ThriftSuccess "1" "peerB" [] ].

Definition example_synced_store : Barrier.KvStore :=
  Barrier.mkStore
    {["1"%string :=
        Barrier.mkDb {["peerB"%string := Barrier.mkPeer INITIALIZED 0]} true]}
    true
    [Barrier.InitializationMsg Barrier.KVSTORE_SYNCED].

(** The neighbours "peerA" and "peerB" are reported in area "1" and
    promoted to SYNCING; the full-sync response of "peerA" arrives, and then
    "peerB" is withdrawn by a second peer event. *)
Definition example_run_withdrawn : list Barrier.Event :=
  [ Barrier.PeerUpdates
      [("1"%string,
        Barrier.mkAreaPeerEvent ["peerA"%string; "peerB"%string] [])];
    Barrier.SyncTimer "1" ["peerA"%string; "peerB"%string];
    Barrier.ThriftSuccess "1" "peerA" [];
    Barrier.PeerUpdates
      [("1"%string, Barrier.mkAreaPeerEvent [] ["peerB"%string])] ].

Definition example_withdrawn_store : Barrier.KvStore :=
  Barrier.mkStore
    {["1"%string :=
        Barrier.mkDb {["peerA"%string := Barrier.mkPeer INITIALIZED 0]} false]}
    false [].

(** ** Vocabulary of the further properties *)

(** Every stored record carries a content hash, which is what the [DCHECK]
    of [dumpHashWithFilters] expects. *)
Definition allHaveHash (kvStore : gmap string Value) : Prop :=
  ∀ k cur, kvStore !! k = Some cur → is_Some (hash cur).

(** A publication of two keys, and the same two entries in the other
    order. *)
Definition example_two_keys : gmap string Value :=
  {["k"%string := mkValue 2 "B" (Some "y"%string) 1000 0 None;
    "j"%string := mkValue 1 "A" (Some "x"%string) 1000 0 None]}.

Definition example_two_keys_order : list (string * Value) :=
  reverse (map_to_list example_two_keys).


(** What each outcome of the loop body says about the incoming value and
    the entry found in the store. *)
Definition verdict `{Platform} (filters : option KvStoreFilters) (it : option Value)
    (key : string) (v : Value) (a : MergeAction) : Prop :=
  match a with
  | UpdateAll =>
      passesFilter filters key v = true ∧ validTtl v = true
      ∧ is_Some (value v)
      ∧ match it with
        | Some cur => tuple_cmp v cur = Gt
        | None => 0 < version v
        end
  | UpdateTtl =>
      passesFilter filters key v = true ∧ validTtl v = true
      ∧ ∃ cur, it = Some cur
               ∧ version v = version cur
               ∧ originatorId v = originatorId cur
               ∧ ttlVersion cur < ttlVersion v
               ∧ (value v = None ∨ value v = value cur)
  | NoUpdate =>
      passesFilter filters key v = false ∨ validTtl v = false
      ∨ match it with
        | Some cur =>
            tuple_cmp cur v = Gt
            ∨ (tuple_cmp cur v = Eq ∧ ttlVersion v ≤ ttlVersion cur)
            ∨ (value v = None
               ∧ (version cur < version v
                  ∨ (version v = version cur
                     ∧ (originatorId v ≠ originatorId cur
                        ∨ ttlVersion v ≤ ttlVersion cur))))
        | None => version v < 0 ∨ value v = None
        end
  end.

(** A store of one record, a publication that brings a newer value for its
    key, and the store after the merge on the reference platform. *)
Definition example_store : gmap string Value :=
  {["k"%string := example_current]}.

Definition example_newer : Value := mkValue 2 "B" (Some "y"%string) 1000 0 None.

Definition example_publication : gmap string Value :=
  {["k"%string := example_newer]}.

Definition example_merged : gmap string Value :=
  {["k"%string := mkValue 2 "B" (Some "y"%string) 1000 0 (Some 4)]}.


(** The filter without prefixes and originators, which matches every
    key. *)
Definition matchEverything : KvStoreFilters :=
  {| keyPrefixList_ := []; originatorIds_ := ∅ |}.


(** A database whose only record has one countdown entry that expires at
    300 ms and a later entry of another ttl version. *)
Definition example_db_expiring : KvStoreDb :=
  mkDb "1" "node1" None
    {["k"%string := example_current]} ∅
    [example_entry; mkQueueEntry 900000000 "k" 1 6 "A"]
    ∅ ∅ ∅ 0 ∅ [] [].


(** The example database after it has received its own key from another
    originator at the same version. *)
Definition example_db_refreshed : KvStoreDb :=
  set_selfOriginated example_db
    {["k"%string := mkValue 2 "A" (Some "x"%string) 1000 0 (Some 3)]}
    {["k"%string]}.


(** A buffer that holds, without a flood root, a key of the example store
    and a key that the store does not hold. *)
Definition example_buffer : PublicationBuffer :=
  {[None := {["k"%string; "gone"%string]}]}.


(** Every stored record with a payload carries the hash of its version,
    originator and payload. *)
Definition hashConsistent `{Platform} (kvStore : gmap string Value) : Prop :=
  ∀ k v, kvStore !! k = Some v → is_Some (value v) →
         hash v = Some (generateHash (version v) (originatorId v) (value v)).


(** A local write of a new key whose caller supplies a wrong hash. *)
Definition example_set_params : KeySetParams :=
  mkKeySetParams {["k"%string := mkValue 1 "A" (Some "x"%string) 1000 0 (Some 999)]}
    None None None.


(** A prefix state with one network advertised by one node, for entries
    that consist of their forwarding type and algorithm. *)
Definition example_prefix_key : PrefixState.PrefixKey (CIDRNetwork := string) :=
  PrefixState.mkPrefixKey "10.0.0.0/8"%string ("node1"%string, "1"%string).

Definition example_prefixes
  : gmap string (gmap (string * string)
                   (PrefixState.PrefixForwardingType
                    * PrefixState.PrefixForwardingAlgorithm)) :=
  {["10.0.0.0/8"%string :=
      {[("node1"%string, "1"%string) :=
          (PrefixState.IP, PrefixState.SP_ECMP)]}]}.


(** The peers to which the loop of [floodPublication] sends: known,
    INITIALIZED, and not the sender. *)
Definition sendable (senderId : option string)
    (thriftPeers : gmap string KvStorePeer) (peerName : string) : bool :=
  match thriftPeers !! peerName with
  | Some peer =>
      negb (bool_decide (senderId = Some peerName))
      && bool_decide (peerState peer = INITIALIZED)
  | None => false
  end.

(** The peers for which it keeps the keys until they are initialized. *)
Definition deferred (senderId : option string) (peer : KvStorePeer)
    (peerName : string) : bool :=
  negb (bool_decide (senderId = Some peerName))
  && negb (bool_decide (peerState peer = INITIALIZED)).


(** ** Vocabulary of the received-routes query *)

Section PrefixStateRoutesVocabulary.
Import PrefixState.
Context {CIDRNetwork PrefixEntry IpPrefix : Type}.
Variable toIpPrefix : CIDRNetwork → IpPrefix.

(** A node and area pass the optional filters of the query. *)
Definition passesFilters (nodeFilter areaFilter : option string)
    (nodeAndArea : NodeAndArea) : Prop :=
  (∀ n, nodeFilter = Some n → n = nodeAndArea.1)
  ∧ (∀ a, areaFilter = Some a → a = nodeAndArea.2).

(** What one stored entry contributes to the detail of its network. *)
Definition routeOf (nodeFilter areaFilter : option string)
    (item : NodeAndArea * PrefixEntry) : list (@ReceivedRoute PrefixEntry) :=
  if match nodeFilter with
     | Some n => negb (bool_decide (n = item.1.1))
     | None => false
     end then []
  else if match areaFilter with
          | Some a => negb (bool_decide (a = item.1.2))
          | None => false
          end then []
  else [mkReceivedRoute item.1 item.2].

(** What one network contributes to the answer. *)
Definition detailOf (nodeFilter areaFilter : option string)
    (prefix : CIDRNetwork) (prefixEntries : gmap NodeAndArea PrefixEntry)
  : list (@ReceivedRouteDetail PrefixEntry IpPrefix) :=
  match map_to_list prefixEntries ≫= routeOf nodeFilter areaFilter with
  | [] => []
  | rs => [mkReceivedRouteDetail (toIpPrefix prefix) rs]
  end.

End PrefixStateRoutesVocabulary.

(** * Properties *)

(** ** Strings and comparisons *)

Lemma string_compare_refl (a : string) : String.compare a a = Eq.
Proof.
  induction a as [|c a IH]; simpl; [reflexivity|].
  unfold Ascii.compare. rewrite N.compare_refl. exact IH.
Qed.

Lemma string_compare_eq (a b : string) : String.compare a b = Eq ↔ a = b.
Proof.
  split; [apply String.compare_eq_iff|].
  intros ->. apply string_compare_refl.
Qed.

Lemma string_compare_lt_gt (a b : string) :
  String.compare a b = Lt ↔ String.compare b a = Gt.
Proof.
  rewrite (String.compare_antisym b a).
  destruct (String.compare a b); simpl; split; congruence.
Qed.

Lemma string_compare_gt_trans (a b c : string) :
  String.compare a b = Gt → String.compare b c = Gt → String.compare a c = Gt.
Proof.
  intros Hab Hbc.
  assert (Hle : String.le c a).
  { transitivity b; unfold String.le, String.leb.
    - rewrite (String.compare_antisym c b), Hbc. simpl. exact I.
    - rewrite (String.compare_antisym b a), Hab. simpl. exact I. }
  destruct (String.compare a c) eqn:Hac; [| |reflexivity].
  - apply string_compare_eq in Hac. subst c.
    rewrite (String.compare_antisym b a), Hab in Hbc. discriminate.
  - exfalso. unfold String.le, String.leb in Hle.
    rewrite (String.compare_antisym c a), Hac in Hle. simpl in Hle. exact Hle.
Qed.

Lemma string_gt_true (a b : string) :
  string_gt a b = true ↔ String.compare a b = Gt.
Proof. unfold string_gt. destruct (String.compare a b); split; congruence. Qed.

Lemma string_gt_false (a b : string) :
  String.compare a b ≠ Gt → string_gt a b = false.
Proof. unfold string_gt. by destruct (String.compare a b). Qed.

Section CompareFacts.
Context `{Platform}.

Lemma str_compare_pos (a b : string) :
  (str_compare a b >? 0) = true ↔ String.compare a b = Gt.
Proof.
  pose proof (str_compare_sign a b) as Hs.
  rewrite Z.gtb_ltb, Z.ltb_lt.
  destruct (String.compare a b); split; intros; try congruence; lia.
Qed.

Lemma str_compare_zero (a b : string) :
  (str_compare a b =? 0) = true ↔ String.compare a b = Eq.
Proof.
  pose proof (str_compare_sign a b) as Hs.
  rewrite Z.eqb_eq.
  destruct (String.compare a b); split; intros; try congruence; lia.
Qed.

Lemma str_compare_pos_false (a b : string) :
  String.compare a b ≠ Gt → (str_compare a b >? 0) = false.
Proof.
  intros Hne. apply not_true_iff_false. by rewrite str_compare_pos.
Qed.

Lemma str_compare_zero_false (a b : string) :
  String.compare a b ≠ Eq → (str_compare a b =? 0) = false.
Proof.
  intros Hne. apply not_true_iff_false. by rewrite str_compare_zero.
Qed.

End CompareFacts.

Lemma payload_cmp_refl (p : option string) : payload_cmp p p = Eq.
Proof. destruct p; simpl; [apply string_compare_refl|reflexivity]. Qed.

Lemma payload_cmp_eq (p q : option string) : payload_cmp p q = Eq ↔ p = q.
Proof.
  destruct p, q; simpl; try (split; congruence).
  rewrite string_compare_eq. split; congruence.
Qed.

Lemma payload_cmp_gt_trans (p q r : option string) :
  payload_cmp p q = Gt → payload_cmp q r = Gt → payload_cmp p r = Gt.
Proof.
  destruct p, q, r; simpl; try congruence. apply string_compare_gt_trans.
Qed.

Lemma tuple_cmp_eq (a b : Value) :
  tuple_cmp a b = Eq ↔
  version a = version b ∧ originatorId a = originatorId b ∧ value a = value b.
Proof.
  unfold tuple_cmp.
  destruct (Z.compare_spec (version a) (version b)) as [Hv|Hv|Hv];
    [|split; [congruence|lia]..].
  destruct (String.compare (originatorId a) (originatorId b)) eqn:Ho.
  - apply string_compare_eq in Ho. rewrite payload_cmp_eq. tauto.
  - split; [congruence|]. intros (_ & Ho' & _). apply string_compare_eq in Ho'.
    congruence.
  - split; [congruence|]. intros (_ & Ho' & _). apply string_compare_eq in Ho'.
    congruence.
Qed.

Lemma tuple_cmp_gt_trans (a b c : Value) :
  tuple_cmp a b = Gt → tuple_cmp b c = Gt → tuple_cmp a c = Gt.
Proof.
  unfold tuple_cmp.
  destruct (Z.compare_spec (version a) (version b)) as [Hab|Hab|Hab];
    destruct (Z.compare_spec (version b) (version c)) as [Hbc|Hbc|Hbc];
    try congruence;
    destruct (Z.compare_spec (version a) (version c)) as [Hac|Hac|Hac];
    try lia; try congruence.
  destruct (String.compare (originatorId a) (originatorId b)) eqn:Ho1;
    destruct (String.compare (originatorId b) (originatorId c)) eqn:Ho2;
    try congruence.
  - apply string_compare_eq in Ho1, Ho2. rewrite Ho1, Ho2, string_compare_refl.
    apply payload_cmp_gt_trans.
  - apply string_compare_eq in Ho1. rewrite Ho1, Ho2. reflexivity.
  - apply string_compare_eq in Ho2. rewrite <- Ho2, Ho1. reflexivity.
  - rewrite (string_compare_gt_trans _ _ _ Ho1 Ho2). reflexivity.
Qed.

Lemma tuple_cmp_congr_l (a a' b : Value) :
  tuple_cmp a a' = Eq → tuple_cmp a b = tuple_cmp a' b.
Proof.
  intros (Hv & Ho & Hp)%tuple_cmp_eq. unfold tuple_cmp. by rewrite Hv, Ho, Hp.
Qed.

Lemma tuple_cmp_congr_r (a b b' : Value) :
  tuple_cmp b b' = Eq → tuple_cmp a b = tuple_cmp a b'.
Proof.
  intros (Hv & Ho & Hp)%tuple_cmp_eq. unfold tuple_cmp. by rewrite Hv, Ho, Hp.
Qed.

Lemma rank_le_refl (a : Value) : rank_le a a.
Proof. right. split; [by apply tuple_cmp_eq|lia]. Qed.

Lemma rank_le_trans (a b c : Value) : rank_le a b → rank_le b c → rank_le a c.
Proof.
  intros [Hab|[Hab Hab']] [Hbc|[Hbc Hbc']].
  - left. eapply tuple_cmp_gt_trans; eauto.
  - left. by rewrite (tuple_cmp_congr_l c b a Hbc).
  - left. by rewrite <- (tuple_cmp_congr_r c b a Hab).
  - right. split; [|lia]. by rewrite (tuple_cmp_congr_l c b a Hbc).
Qed.

(** ** MergeEngine *)

Section MergeEngineFacts.
Context `{Platform}.

Lemma validTtl_guard (v : Value) :
  validTtl v = true → negb (ttl v =? kTtlInfinity) && (ttl v <=? 0) = false.
Proof.
  unfold validTtl.
  destruct (Z.eqb_spec (ttl v) kTtlInfinity); simpl; [done|].
  destruct (Z.ltb_spec 0 (ttl v)), (Z.leb_spec (ttl v) 0); (done || lia).
Qed.

Lemma invalidTtl_guard (v : Value) :
  validTtl v = false → negb (ttl v =? kTtlInfinity) && (ttl v <=? 0) = true.
Proof.
  unfold validTtl.
  destruct (Z.eqb_spec (ttl v) kTtlInfinity); simpl; [done|].
  destruct (Z.ltb_spec 0 (ttl v)), (Z.leb_spec (ttl v) 0); (done || lia).
Qed.

Lemma passesFilter_guard (filters : option KvStoreFilters) key v :
  match filters with
  | Some f => negb (keyMatch f key v OR)
  | None => false
  end = negb (passesFilter filters key v).
Proof. by destruct filters. Qed.

(** The decision of the loop body for a key that is in the store, by cases
    on the three comparisons. *)
Lemma mergeAction_known (filters : option KvStoreFilters) key (cur v : Value) :
  passesFilter filters key v = true →
  validTtl v = true →
  mergeAction filters (Some cur) key v =
  match version v ?= version cur with
  | Lt => Ok NoUpdate
  | Gt =>
      match value v with
      | Some _ => Ok UpdateAll
      | None => Ok NoUpdate
      end
  | Eq =>
      match value v with
      | Some p =>
          match String.compare (originatorId v) (originatorId cur) with
          | Gt => Ok UpdateAll
          | Lt => Ok NoUpdate
          | Eq =>
              match value cur with
              | None => Raise BadFieldAccess
              | Some q =>
                  match String.compare p q with
                  | Gt => Ok UpdateAll
                  | Lt => Ok NoUpdate
                  | Eq =>
                      if ttlVersion v >? ttlVersion cur then Ok UpdateTtl
                      else Ok NoUpdate
                  end
              end
          end
      | None =>
          if bool_decide (originatorId v = originatorId cur)
             && (ttlVersion v >? ttlVersion cur)
          then Ok UpdateTtl
          else Ok NoUpdate
      end
  end.
Proof.
  intros Hf Ht. unfold mergeAction.
  rewrite passesFilter_guard, Hf, (validTtl_guard _ Ht). simpl.
  destruct (Z.compare_spec (version v) (version cur)) as [Hv|Hv|Hv].
  - rewrite (proj2 (Z.ltb_ge (version v) _)) by lia.
    unfold updateNeeded. cbv zeta.
    rewrite (Z.gtb_ltb (version v)), (proj2 (Z.ltb_ge _ (version v))) by lia.
    destruct (value v) as [p|] eqn:Hp; simpl.
    + destruct (String.compare (originatorId v) (originatorId cur)) eqn:Ho.
      * rewrite string_gt_false by congruence.
        rewrite bool_decide_eq_true_2 by (by apply string_compare_eq).
        destruct (value cur) as [q|]; simpl; [|done].
        destruct (String.compare p q) eqn:Hpq.
        -- rewrite str_compare_pos_false by congruence.
           rewrite (proj2 (str_compare_zero p q)) by done.
           by destruct (ttlVersion v >? ttlVersion cur).
        -- rewrite str_compare_pos_false by congruence.
           by rewrite str_compare_zero_false by congruence.
        -- by rewrite (proj2 (str_compare_pos p q)).
      * rewrite string_gt_false by congruence.
        rewrite bool_decide_eq_false_2; [done|].
        intros Heq%string_compare_eq. congruence.
      * by rewrite (proj2 (string_gt_true _ _)).
    + rewrite bool_decide_eq_true_2 by done. simpl.
      by destruct (bool_decide _ && _).
  - by rewrite (proj2 (Z.ltb_lt (version v) _)) by lia.
  - rewrite (proj2 (Z.ltb_ge (version v) _)) by lia.
    unfold updateNeeded. cbv zeta.
    rewrite (Z.gtb_ltb (version v)), (proj2 (Z.ltb_lt _ (version v))) by lia.
    destruct (value v) as [p|] eqn:Hp; simpl; [done|].
    rewrite bool_decide_eq_false_2 by lia. done.
Qed.

(** The decision for a key that is not in the store. *)
Lemma mergeAction_unknown (filters : option KvStoreFilters) key (v : Value) :
  passesFilter filters key v = true →
  validTtl v = true →
  mergeAction filters None key v =
  match version v ?= 0 with
  | Lt => Ok NoUpdate
  | Gt =>
      match value v with
      | Some _ => Ok UpdateAll
      | None => Ok NoUpdate
      end
  | Eq =>
      match value v with
      | Some _ => Raise EndIteratorDeref
      | None => Ok NoUpdate
      end
  end.
Proof.
  intros Hf Ht. unfold mergeAction.
  rewrite passesFilter_guard, Hf, (validTtl_guard _ Ht). simpl.
  destruct (Z.compare_spec (version v) 0) as [Hv|Hv|Hv].
  - rewrite (proj2 (Z.ltb_ge (version v) _)) by lia.
    unfold updateNeeded. cbv zeta.
    rewrite (Z.gtb_ltb (version v)), (proj2 (Z.ltb_ge _ (version v))) by lia.
    by destruct (value v).
  - by rewrite (proj2 (Z.ltb_lt (version v) _)) by lia.
  - rewrite (proj2 (Z.ltb_ge (version v) _)) by lia.
    unfold updateNeeded. cbv zeta.
    rewrite (Z.gtb_ltb (version v)), (proj2 (Z.ltb_lt _ (version v))) by lia.
    by destruct (value v).
Qed.

Lemma mergeAction_rejected (filters : option KvStoreFilters)
    (it : option Value) key (v : Value) :
  passesFilter filters key v = false ∨ validTtl v = false →
  mergeAction filters it key v = Ok NoUpdate.
Proof.
  unfold mergeAction. rewrite passesFilter_guard.
  intros [->| Ht]; [done|].
  rewrite (invalidTtl_guard _ Ht). by destruct (negb _).
Qed.

Lemma mergeAction_cases (filters : option KvStoreFilters) (key : string)
    (v : Value) :
  (passesFilter filters key v = false ∨ validTtl v = false)
  ∨ (passesFilter filters key v = true ∧ validTtl v = true).
Proof. destruct (passesFilter _ _ _), (validTtl _); auto. Qed.

Lemma tuple_cmp_storedValue (v c : Value) :
  tuple_cmp (storedValue v) c = tuple_cmp v c.
Proof. unfold storedValue. by destruct (hash v). Qed.

(** An update never moves the stored record down: a value update installs
    a strictly greater tuple, a ttl update keeps the tuple and raises the
    ttl version. *)
Lemma mergeAction_rank (filters : option KvStoreFilters) key (cur v : Value)
    (a : MergeAction) :
  mergeAction filters (Some cur) key v = Ok a →
  ∃ c', mergedEntry a (Some cur) v = Some c' ∧ rank_le cur c'
        ∧ (a = UpdateAll → tuple_cmp v cur = Gt ∧ c' = storedValue v)
        ∧ (a ≠ UpdateAll → tuple_cmp c' cur = Eq ∧ hash c' = hash cur).
Proof.
  destruct (mergeAction_cases filters key v) as [Hrej|[Hf Ht]].
  { rewrite (mergeAction_rejected _ _ _ _ Hrej). intros [= <-].
    exists cur. simpl. split_and!; [done|apply rank_le_refl|done|].
    intros _. split; [by apply tuple_cmp_eq|done]. }
  rewrite (mergeAction_known _ _ _ _ Hf Ht).
  assert (Hno : ∃ c', mergedEntry NoUpdate (Some cur) v = Some c' ∧ rank_le cur c'
        ∧ (NoUpdate = UpdateAll → tuple_cmp v cur = Gt ∧ c' = storedValue v)
        ∧ (NoUpdate ≠ UpdateAll → tuple_cmp c' cur = Eq ∧ hash c' = hash cur)).
  { exists cur. simpl. split_and!; [done|apply rank_le_refl|done|].
    intros _. split; [by apply tuple_cmp_eq|done]. }
  assert (Hall : tuple_cmp v cur = Gt →
    ∃ c', mergedEntry UpdateAll (Some cur) v = Some c' ∧ rank_le cur c'
        ∧ (UpdateAll = UpdateAll → tuple_cmp v cur = Gt ∧ c' = storedValue v)
        ∧ (UpdateAll ≠ UpdateAll → tuple_cmp c' cur = Eq ∧ hash c' = hash cur)).
  { intros Hgt. exists (storedValue v). simpl. split_and!; try done.
    left. by rewrite tuple_cmp_storedValue. }
  assert (Httl : version v = version cur → originatorId v = originatorId cur →
    ttlVersion cur < ttlVersion v →
    ∃ c', mergedEntry UpdateTtl (Some cur) v = Some c' ∧ rank_le cur c'
        ∧ (UpdateTtl = UpdateAll → tuple_cmp v cur = Gt ∧ c' = storedValue v)
        ∧ (UpdateTtl ≠ UpdateAll → tuple_cmp c' cur = Eq ∧ hash c' = hash cur)).
  { intros Hv Ho Hlt. exists (set_ttl cur (ttl v) (ttlVersion v)). simpl.
    split_and!; try done.
    - right. split; [by apply tuple_cmp_eq|simpl; lia].
    - intros _. split; [by apply tuple_cmp_eq|done]. }
  destruct (version v ?= version cur) eqn:Hvc.
  - pose proof (proj1 (Z.compare_eq_iff _ _) Hvc) as Hv.
    destruct (value v) as [p|] eqn:Hp.
    + destruct (String.compare (originatorId v) (originatorId cur)) eqn:Ho.
      * destruct (value cur) as [q|] eqn:Hq; [|done].
        destruct (String.compare p q) eqn:Hpq.
        -- rewrite Z.gtb_ltb.
           destruct (Z.ltb_spec (ttlVersion cur) (ttlVersion v)) as [Hlt|Hge];
             intros [= <-]; [|done].
           apply Httl; [done| by apply string_compare_eq |done].
        -- by intros [= <-].
        -- intros [= <-]. apply Hall. unfold tuple_cmp.
           by rewrite Hvc, Ho, Hp, Hq.
      * by intros [= <-].
      * intros [= <-]. apply Hall. unfold tuple_cmp. by rewrite Hvc, Ho.
    + destruct (bool_decide (originatorId v = originatorId cur)) eqn:Ho;
        simpl; [|by intros [= <-]].
      apply bool_decide_eq_true in Ho.
      rewrite Z.gtb_ltb.
      destruct (Z.ltb_spec (ttlVersion cur) (ttlVersion v)) as [Hlt|Hge];
        intros [= <-]; [|done].
      by apply Httl.
  - by intros [= <-].
  - destruct (value v); intros [= <-]; [|done].
    apply Hall. unfold tuple_cmp. by rewrite Hvc.
Qed.

(** *** The loop *)

Lemma applyAction_lookup (a : MergeAction) key v st st' :
  applyAction a key v st = Ok st' →
  st'.1 !! key = mergedEntry a (st.1 !! key) v
  ∧ ∀ k, k ≠ key → st'.1 !! k = st.1 !! k.
Proof.
  destruct st as [s u]. unfold applyAction.
  destruct a; simpl.
  - by intros [= <-].
  - destruct (value v); [|done]. intros [= <-]. simpl.
    split; [by rewrite lookup_insert_eq|].
    intros k Hk. by rewrite lookup_insert_ne.
  - destruct (s !! key) as [cur|] eqn:Hcur; [|done]. intros [= <-]. simpl.
    split; [by rewrite lookup_insert_eq|].
    intros k Hk. by rewrite lookup_insert_ne.
Qed.

Lemma mergeKeyValue_lookup filters st key v st' :
  mergeKeyValue filters st key v = Ok st' →
  (∃ a, mergeAction filters (st.1 !! key) key v = Ok a
        ∧ st'.1 !! key = mergedEntry a (st.1 !! key) v)
  ∧ ∀ k, k ≠ key → st'.1 !! k = st.1 !! k.
Proof.
  unfold mergeKeyValue.
  destruct (mergeAction filters (st.1 !! key) key v) as [a|] eqn:Ha; [|done].
  simpl. intros [Hk Hne]%applyAction_lookup. split; [|done]. by exists a.
Qed.

Lemma mergeLoop_lookup_notin filters kvs : ∀ st st' k,
  mergeLoop filters st kvs = Ok st' →
  k ∉ kvs.*1 →
  st'.1 !! k = st.1 !! k.
Proof.
  induction kvs as [|[key v] kvs IH]; intros st st' k; simpl.
  - by intros [= <-].
  - destruct (mergeKeyValue filters st key v) as [st1|] eqn:H1; [|done].
    simpl. intros Hloop Hnotin.
    apply not_elem_of_cons in Hnotin as [Hne Hnotin].
    rewrite (IH _ _ _ Hloop Hnotin).
    by apply (mergeKeyValue_lookup _ _ _ _ _ H1).
Qed.

Lemma mergeLoop_lookup_in filters kvs : ∀ st st' k v,
  mergeLoop filters st kvs = Ok st' →
  NoDup kvs.*1 →
  (k, v) ∈ kvs →
  ∃ a, mergeAction filters (st.1 !! k) k v = Ok a
       ∧ st'.1 !! k = mergedEntry a (st.1 !! k) v.
Proof.
  induction kvs as [|[key w] kvs IH]; intros st st' k v; simpl.
  - intros _ _ Hin. by apply elem_of_nil in Hin.
  - destruct (mergeKeyValue filters st key w) as [st1|] eqn:H1; [|done].
    simpl. intros Hloop [Hnotin Hnd]%NoDup_cons [Heq|Hin]%elem_of_cons.
    + injection Heq as -> ->.
      destruct (mergeKeyValue_lookup _ _ _ _ _ H1) as [(a & Ha & Hk) _].
      exists a. split; [done|].
      by rewrite (mergeLoop_lookup_notin _ _ _ _ _ Hloop Hnotin).
    + assert (k ≠ key) as Hne.
      { intros ->. apply Hnotin. apply list_elem_of_fmap. by exists (key, v). }
      destruct (IH _ _ _ _ Hloop Hnd Hin) as (a & Ha & Hk).
      destruct (mergeKeyValue_lookup _ _ _ _ _ H1) as [_ Hother].
      rewrite (Hother _ Hne) in Ha, Hk. by exists a.
Qed.

(** What [mergeKeyValues] leaves under a key: the entry decided by the loop
    body for the incoming value of that key, or the old entry when the
    publication does not mention the key. *)
Lemma mergeKeyValues_lookup filters kvStore keyVals kvStore' kvUpdates k :
  mergeKeyValues kvStore keyVals filters = Ok (kvStore', kvUpdates) →
  match keyVals !! k with
  | Some v =>
      ∃ a, mergeAction filters (kvStore !! k) k v = Ok a
           ∧ kvStore' !! k = mergedEntry a (kvStore !! k) v
  | None => kvStore' !! k = kvStore !! k
  end.
Proof.
  unfold mergeKeyValues. intros Hloop.
  destruct (keyVals !! k) as [v|] eqn:Hk.
  - apply (mergeLoop_lookup_in _ _ _ _ _ _ Hloop).
    + apply NoDup_fst_map_to_list.
    + by apply elem_of_map_to_list.
  - apply (mergeLoop_lookup_notin _ _ _ _ _ Hloop).
    intros ((k' & v') & -> & Hin%elem_of_map_to_list)%list_elem_of_fmap.
    simpl in Hk. congruence.
Qed.

End MergeEngineFacts.

Section MergeEngineClaims.
Context `{Platform}.

Lemma mergeAction_strictly_greater (filters : option KvStoreFilters) key
    (cur v : Value) (a : MergeAction) :
  passesFilter filters key v = true →
  validTtl v = true →
  is_Some (value v) →
  tuple_cmp v cur = Gt →
  mergeAction filters (Some cur) key v = Ok a →
  a = UpdateAll.
Proof.
  intros Hf Ht [p Hp] Hgt. rewrite (mergeAction_known _ _ _ _ Hf Ht).
  unfold tuple_cmp in Hgt. rewrite Hp in *.
  destruct (version v ?= version cur); [|done|congruence].
  destruct (String.compare (originatorId v) (originatorId cur)); [|done|congruence].
  destruct (value cur) as [q|]; [|done]. simpl in Hgt. rewrite Hgt. congruence.
Qed.

(** C1 (amended). For a key with a current record, whatever the
    publication holds for it, the record found afterwards never ranks
    strictly below the current one under the tuple order. When the
    incoming value passes the filter, has a valid ttl (infinite or
    positive) and carries a payload, the loop body takes the value-update
    branch if and only if the incoming tuple is strictly greater; the
    stored record is then the incoming value (with its hash filled in),
    and otherwise version, originator, payload and hash stay as they
    were. *)
Theorem C1_value_update_iff_strictly_greater
    (filters : option KvStoreFilters)
    (kvStore keyVals kvStore' kvUpdates : gmap string Value)
    (key : string) (cur : Value) :
  kvStore !! key = Some cur →
  mergeKeyValues kvStore keyVals filters = Ok (kvStore', kvUpdates) →
  ∃ cur',
    kvStore' !! key = Some cur'
    ∧ tuple_cmp cur' cur ≠ Lt
    ∧ ∀ incoming,
        keyVals !! key = Some incoming →
        passesFilter filters key incoming = true →
        validTtl incoming = true →
        is_Some (value incoming) →
        (tuple_cmp incoming cur = Gt
         ↔ mergeAction filters (Some cur) key incoming = Ok UpdateAll)
        ∧ (tuple_cmp incoming cur = Gt → cur' = storedValue incoming)
        ∧ (tuple_cmp incoming cur ≠ Gt
           → tuple_cmp cur' cur = Eq ∧ hash cur' = hash cur).
Proof.
  intros Hcur Hmerge.
  pose proof (mergeKeyValues_lookup _ _ _ _ _ key Hmerge) as Hk.
  rewrite Hcur in Hk.
  destruct (keyVals !! key) as [v|] eqn:Hv.
  - destruct Hk as (a & Ha & Hk).
    destruct (mergeAction_rank _ _ _ _ _ Ha) as (c' & Hc' & Hrank & Hall & Hkeep).
    exists c'. rewrite Hk, Hc'. split_and!; [done| |].
    + destruct Hrank as [-> | [-> _]]; done.
    + intros incoming [= <-] Hf Ht Hp.
      assert (tuple_cmp v cur = Gt ↔ a = UpdateAll) as Hiff.
      { split; [|by intros [? _]%Hall].
        intros Hgt. by eapply mergeAction_strictly_greater. }
      split_and!.
      * rewrite Ha, Hiff. split; congruence.
      * intros Hgt%Hiff. by apply Hall.
      * intros Hngt. apply Hkeep. by rewrite <- Hiff.
  - exists cur. rewrite Hk. split_and!; [done| |done].
    by rewrite (proj2 (tuple_cmp_eq cur cur)).
Qed.

(** C2. A value-bearing update at version 0 for a key that is not in the
    store makes [mergeKeyValues] dereference the end iterator: there is no
    result. *)
Theorem C2_unknown_key_version_zero_faults
    (filters : option KvStoreFilters) (kvStore keyVals : gmap string Value)
    (key : string) (incoming : Value) :
  kvStore !! key = None →
  keyVals !! key = Some incoming →
  passesFilter filters key incoming = true →
  validTtl incoming = true →
  version incoming = 0 →
  is_Some (value incoming) →
  mergeAction filters (kvStore !! key) key incoming = Raise EndIteratorDeref
  ∧ ∀ r, mergeKeyValues kvStore keyVals filters ≠ Ok r.
Proof.
  intros Hnone Hin Hf Ht Hv [p Hp].
  assert (mergeAction filters (kvStore !! key) key incoming
          = Raise EndIteratorDeref) as Hraise.
  { rewrite Hnone, (mergeAction_unknown _ _ _ Hf Ht), Hv, Hp. done. }
  split; [done|].
  intros [kvStore' kvUpdates] Hmerge.
  pose proof (mergeKeyValues_lookup _ _ _ _ _ key Hmerge) as Hk.
  rewrite Hin in Hk. destruct Hk as (a & Ha & _). congruence.
Qed.

(** What the loop body does for an unknown key at the versions the thrift
    comment allows (1 and above), and below zero. *)
Lemma mergeKeyValues_unknown_key
    (filters : option KvStoreFilters)
    (kvStore keyVals kvStore' kvUpdates : gmap string Value)
    (key : string) (incoming : Value) :
  kvStore !! key = None →
  keyVals !! key = Some incoming →
  passesFilter filters key incoming = true →
  validTtl incoming = true →
  version incoming ≠ 0 →
  mergeKeyValues kvStore keyVals filters = Ok (kvStore', kvUpdates) →
  kvStore' !! key =
    if (0 <? version incoming) && bool_decide (is_Some (value incoming))
    then Some (storedValue incoming)
    else None.
Proof.
  intros Hnone Hin Hf Ht Hv Hmerge.
  pose proof (mergeKeyValues_lookup _ _ _ _ _ key Hmerge) as Hk.
  rewrite Hin, Hnone in Hk. destruct Hk as (a & Ha & ->).
  rewrite (mergeAction_unknown _ _ _ Hf Ht) in Ha.
  destruct (Z.compare_spec (version incoming) 0) as [?|Hlt|Hgt]; [done| |].
  - injection Ha as <-. by rewrite (proj2 (Z.ltb_ge _ _)) by lia.
  - rewrite (proj2 (Z.ltb_lt _ _)) by lia.
    destruct (value incoming) as [p|]; injection Ha as <-.
    + by rewrite bool_decide_eq_true_2 by eauto.
    + rewrite bool_decide_eq_false_2; [done|]. by intros [? ?].
Qed.

Lemma mergeKeyValues_rank (filters : option KvStoreFilters)
    (kvStore keyVals kvStore' kvUpdates : gmap string Value)
    (key : string) (cur : Value) :
  kvStore !! key = Some cur →
  mergeKeyValues kvStore keyVals filters = Ok (kvStore', kvUpdates) →
  ∃ cur', kvStore' !! key = Some cur' ∧ rank_le cur cur'.
Proof.
  intros Hcur Hmerge.
  pose proof (mergeKeyValues_lookup _ _ _ _ _ key Hmerge) as Hk.
  rewrite Hcur in Hk.
  destruct (keyVals !! key) as [v|].
  - destruct Hk as (a & Ha & Hk).
    destruct (mergeAction_rank _ _ _ _ _ Ha) as (c' & Hc' & Hrank & _).
    exists c'. by rewrite Hk, Hc'.
  - exists cur. split; [done|apply rank_le_refl].
Qed.

(** C3 (amended). Across any sequence of merges a key that is in the
    store stays in the store and its record never moves down in the order
    (tuple, then ttl version); in particular, as long as version,
    originator and payload are the same at both ends, the ttl version has
    not decreased. *)
Theorem C3_ttlVersion_monotone_for_fixed_tuple
    (filters : option KvStoreFilters) (pubs : list (gmap string Value)) :
  ∀ (kvStore kvStore' : gmap string Value) (key : string) (cur : Value),
  mergeSequence filters kvStore pubs = Ok kvStore' →
  kvStore !! key = Some cur →
  ∃ cur',
    kvStore' !! key = Some cur'
    ∧ rank_le cur cur'
    ∧ (version cur' = version cur → originatorId cur' = originatorId cur →
       value cur' = value cur → ttlVersion cur ≤ ttlVersion cur').
Proof.
  assert (Hrank : ∀ kvStore kvStore' key cur,
    mergeSequence filters kvStore pubs = Ok kvStore' →
    kvStore !! key = Some cur →
    ∃ cur', kvStore' !! key = Some cur' ∧ rank_le cur cur').
  { induction pubs as [|keyVals rest IH]; intros kvStore kvStore' key cur; simpl.
    - intros [= <-] Hcur. exists cur. split; [done|apply rank_le_refl].
    - destruct (mergeKeyValues kvStore keyVals filters) as [[s1 u1]|] eqn:H1;
        [|done].
      simpl. intros Hrest Hcur.
      destruct (mergeKeyValues_rank _ _ _ _ _ _ _ Hcur H1) as (c1 & Hc1 & Hr1).
      destruct (IH _ _ _ _ Hrest Hc1) as (c2 & Hc2 & Hr2).
      exists c2. split; [done|]. by eapply rank_le_trans. }
  intros kvStore kvStore' key cur Hseq Hcur.
  destruct (Hrank _ _ _ _ Hseq Hcur) as (cur' & Hcur' & Hr).
  exists cur'. split_and!; [done..|].
  intros Hv Ho Hp.
  destruct Hr as [Hgt|[_ Hle]]; [|done].
  rewrite (proj2 (tuple_cmp_eq cur' cur)) in Hgt; done.
Qed.

End MergeEngineClaims.

Lemma emplace_lookup {A : Type} (k k' : string) (a : A) (m : gmap string A) :
  emplace k a m !! k' =
  match m !! k' with
  | Some x => Some x
  | None => if decide (k = k') then Some a else None
  end.
Proof.
  unfold emplace. destruct (decide (k = k')) as [->|Hne].
  - destruct (m !! k') eqn:Hk; rewrite ?Hk; [done|].
    by rewrite lookup_insert_eq.
  - destruct (m !! k) eqn:Hk; [by destruct (m !! k')|].
    rewrite lookup_insert_ne by done. by destruct (m !! k').
Qed.

(** *** Independence of the iteration order

    [std::unordered_map] does not fix the order in which the loop of
    [mergeKeyValues] visits the publication. Keys are unique, and an
    iteration only reads and writes the entry of its own key, so every order
    gives the same result, or no result at all. *)

Section MergeOrder.
Context `{Platform}.

Lemma mergeAction_applies (filters : option KvStoreFilters) (key : string)
    (v : Value) (st : gmap string Value * gmap string Value) (a : MergeAction) :
  mergeAction filters (st.1 !! key) key v = Ok a →
  ∃ st', applyAction a key v st = Ok st'.
Proof.
  destruct st as [s u]. simpl.
  unfold mergeAction, updateNeeded, applyAction.
  destruct (match filters with Some f => negb (keyMatch f key v OR) | None => false end);
    [intros [= <-]; eauto|].
  destruct (negb (ttl v =? kTtlInfinity) && (ttl v <=? 0)); [intros [= <-]; eauto|].
  destruct (s !! key) as [cur|] eqn:Hcur; simpl.
  - destruct (version v <? version cur); [intros [= <-]; eauto|].
    destruct (value v) as [p|] eqn:Hp; simpl.
    + destruct (version v >? version cur); simpl; [intros [= <-]; eauto|].
      destruct (string_gt _ _); simpl; [intros [= <-]; eauto|].
      destruct (bool_decide _); simpl; [|intros [= <-]; eauto].
      destruct (value cur) as [q|]; simpl; [|done].
      destruct (str_compare p q >? 0); simpl; [intros [= <-]; eauto|].
      destruct (str_compare p q =? 0); simpl; [|intros [= <-]; eauto].
      destruct (ttlVersion v >? ttlVersion cur); simpl; intros [= <-]; eauto.
    + destruct (_ && _); simpl; intros [= <-]; eauto.
  - destruct (version v <? 0); [intros [= <-]; eauto|].
    destruct (value v) as [p|] eqn:Hp; simpl; [|intros [= <-]; eauto].
    destruct (version v >? 0); simpl; [intros [= <-]; eauto|done].
Qed.

Lemma applyAction_updates (a : MergeAction) key v st st' :
  applyAction a key v st = Ok st' →
  st'.2 = if announced a then emplace key v st.2 else st.2.
Proof.
  destruct st as [s u]. unfold applyAction.
  destruct a; simpl.
  - by intros [= <-].
  - destruct (value v); [|done]. by intros [= <-].
  - destruct (s !! key); [|done]. by intros [= <-].
Qed.

(** What one iteration leaves under every key of the two maps. *)
Lemma mergeKeyValue_pointwise filters st key v st' :
  mergeKeyValue filters st key v = Ok st' →
  ∃ a, mergeAction filters (st.1 !! key) key v = Ok a
       ∧ (∀ k, st'.1 !! k = if decide (k = key)
                            then mergedEntry a (st.1 !! key) v
                            else st.1 !! k)
       ∧ (∀ k, st'.2 !! k = match st.2 !! k with
                            | Some x => Some x
                            | None => if decide (key = k)
                                      then (if announced a then Some v else None)
                                      else None
                            end).
Proof.
  unfold mergeKeyValue.
  destruct (mergeAction filters (st.1 !! key) key v) as [a|] eqn:Ha; [|done].
  simpl. intros Happly. exists a. split; [done|].
  destruct (applyAction_lookup _ _ _ _ _ Happly) as [Hk Hne].
  split.
  - intros k. destruct (decide (k = key)) as [->|Hk']; [done|by apply Hne].
  - intros k. rewrite (applyAction_updates _ _ _ _ _ Happly).
    destruct (announced a).
    + by rewrite emplace_lookup.
    + by destruct (st.2 !! k), (decide (key = k)).
Qed.

(** The result of the loop, key by key, for a publication with unique keys:
    it only depends on the set of pairs. *)
Lemma mergeLoop_pointwise filters kvs : ∀ st st',
  NoDup kvs.*1 →
  mergeLoop filters st kvs = Ok st' →
  ∀ k,
    match list_find (fun kv => kv.1 = k) kvs with
    | Some (_, (_, v)) =>
        ∃ a, mergeAction filters (st.1 !! k) k v = Ok a
             ∧ st'.1 !! k = mergedEntry a (st.1 !! k) v
             ∧ st'.2 !! k = match st.2 !! k with
                            | Some x => Some x
                            | None => if announced a then Some v else None
                            end
    | None => st'.1 !! k = st.1 !! k ∧ st'.2 !! k = st.2 !! k
    end.
Proof.
  induction kvs as [|[key w] kvs IH]; intros st st' Hnd; simpl.
  - by intros [= <-] k.
  - apply NoDup_cons in Hnd as [Hnotin Hnd].
    destruct (mergeKeyValue filters st key w) as [st1|] eqn:H1; [|done].
    simpl. intros Hloop k.
    destruct (mergeKeyValue_pointwise _ _ _ _ _ H1) as (a & Ha & Hs1 & Hu1).
    specialize (IH _ _ Hnd Hloop k).
    destruct (decide (key = k)) as [->|Hne]; simpl.
    + assert (list_find (fun kv : string * Value => kv.1 = k) kvs = None) as Hnone.
      { apply list_find_None, Forall_forall. intros [k' v'] Hin Heq.
        simpl in Heq. subst k'. apply Hnotin.
        apply list_elem_of_fmap. by exists (k, v'). }
      rewrite Hnone in IH. destruct IH as [-> ->].
      exists a. rewrite Hs1, Hu1.
      rewrite !decide_True by done. simpl. done.
    + specialize (Hs1 k). specialize (Hu1 k).
      rewrite decide_False in Hs1 by done.
      rewrite decide_False in Hu1 by done.
      assert (st1.2 !! k = st.2 !! k) as Hu1'.
      { rewrite Hu1. by destruct (st.2 !! k). }
      destruct (list_find _ kvs) as [[i [k' v]]|]; simpl.
      * by rewrite Hs1, Hu1' in IH.
      * by rewrite Hs1, Hu1' in IH.
Qed.

Lemma mergeLoop_defined filters kvs : ∀ st,
  NoDup kvs.*1 →
  (∀ k v, (k, v) ∈ kvs → ∃ a, mergeAction filters (st.1 !! k) k v = Ok a) →
  ∃ st', mergeLoop filters st kvs = Ok st'.
Proof.
  induction kvs as [|[key w] kvs IH]; intros st Hnd Hall; simpl; [eauto|].
  apply NoDup_cons in Hnd as [Hnotin Hnd].
  destruct (Hall key w (list_elem_of_here _ _)) as [a Ha].
  destruct (mergeAction_applies _ _ _ _ _ Ha) as [st1 Happly].
  assert (mergeKeyValue filters st key w = Ok st1) as H1.
  { unfold mergeKeyValue. by rewrite Ha. }
  rewrite H1. simpl. apply IH; [done|].
  intros k v Hin.
  assert (k ≠ key) as Hne.
  { intros ->. apply Hnotin. apply list_elem_of_fmap. by exists (key, v). }
  destruct (mergeKeyValue_lookup _ _ _ _ _ H1) as [_ Hother].
  rewrite (Hother _ Hne). apply Hall. by apply list_elem_of_further.
Qed.

Lemma NoDup_fst_unique {A : Type} (l : list (string * A)) (k : string) (x y : A) :
  NoDup l.*1 → (k, x) ∈ l → (k, y) ∈ l → x = y.
Proof.
  induction l as [|[k' z] l IH]; simpl.
  - intros _ Hin. by apply elem_of_nil in Hin.
  - intros [Hnotin Hnd]%NoDup_cons [Hx|Hx]%elem_of_cons [Hy|Hy]%elem_of_cons.
    + congruence.
    + injection Hx as -> ->. exfalso. apply Hnotin.
      apply list_elem_of_fmap. by exists (k', y).
    + injection Hy as -> ->. exfalso. apply Hnotin.
      apply list_elem_of_fmap. by exists (k', x).
    + by apply IH.
Qed.

(** Any visiting order of the publication yields what [mergeKeyValues]
    yields. *)
Lemma mergeKeyValues_order_independent (filters : option KvStoreFilters)
    (kvStore keyVals : gmap string Value) (order : list (string * Value)) :
  order ≡ₚ map_to_list keyVals →
  (∀ r, mergeLoop filters (kvStore, ∅) order = Ok r
        ↔ mergeKeyValues kvStore keyVals filters = Ok r).
Proof.
  intros Hperm.
  assert (NoDup (map_to_list keyVals).*1) as Hnd by apply NoDup_fst_map_to_list.
  assert (NoDup order.*1) as Hnd' by (by rewrite Hperm).
  assert (∀ l1 l2 : list (string * Value),
            l1 ≡ₚ l2 → NoDup l1.*1 → NoDup l2.*1 →
            ∀ r, mergeLoop filters (kvStore, ∅) l1 = Ok r →
                 mergeLoop filters (kvStore, ∅) l2 = Ok r) as Hdir.
  { intros l1 l2 Hp Hn1 Hn2 r Hr.
    destruct (mergeLoop_defined filters l2 (kvStore, ∅) Hn2) as [r' Hr'].
    { intros k v Hin. rewrite <- Hp in Hin.
      destruct (mergeLoop_lookup_in _ _ _ _ _ _ Hr Hn1 Hin) as (a & Ha & _).
      eauto. }
    rewrite Hr'. f_equal.
    assert (∀ k, r'.1 !! k = r.1 !! k ∧ r'.2 !! k = r.2 !! k) as Hpt.
    { intros k.
      pose proof (mergeLoop_pointwise _ _ _ _ Hn1 Hr k) as P1.
      pose proof (mergeLoop_pointwise _ _ _ _ Hn2 Hr' k) as P2.
      destruct (list_find (fun kv => kv.1 = k) l1) as [[i1 [k1 v1]]|] eqn:F1.
      - apply list_find_Some in F1 as (Hi1 & Hk1 & _). simpl in Hk1. subst k1.
        assert ((k, v1) ∈ l2) as Hin2.
        { rewrite <- Hp. by eapply list_elem_of_lookup_2. }
        destruct (list_find (fun kv => kv.1 = k) l2) as [[i2 [k2 v2]]|] eqn:F2.
        + apply list_find_Some in F2 as (Hi2 & Hk2 & _). simpl in Hk2. subst k2.
          assert (v2 = v1) as ->.
          { apply list_elem_of_lookup_2 in Hi2.
            by eapply (NoDup_fst_unique l2 k). }
          destruct P1 as (a1 & Ha1 & -> & ->), P2 as (a2 & Ha2 & -> & ->).
          rewrite Ha1 in Ha2. by injection Ha2 as <-.
        + exfalso. apply list_find_None in F2.
          by apply (proj1 (Forall_forall _ _) F2 (k, v1) Hin2).
      - destruct (list_find (fun kv => kv.1 = k) l2) as [[i2 [k2 v2]]|] eqn:F2.
        + exfalso. apply list_find_Some in F2 as (Hi2 & Hk2 & _).
          simpl in Hk2. subst k2.
          apply list_find_None in F1.
          apply (proj1 (Forall_forall _ _) F1 (k, v2)); [|done].
          rewrite Hp. by eapply list_elem_of_lookup_2.
        + destruct P1 as [-> ->], P2 as [-> ->]. done. }
    destruct r as [s u], r' as [s' u']. simpl in *.
    f_equal; apply map_eq; intros k; by destruct (Hpt k). }
  intros r. unfold mergeKeyValues. split; apply Hdir; done.
Qed.

End MergeOrder.

(** *** Totality and the store invariant

    The map never holds a record without payload (section 3 of the
    specification). On such a store the only way for [mergeKeyValues] not to
    return is the value-bearing update at version 0 for an unknown key. *)

Section MergeTotal.
Context `{Platform}.

Lemma mergeAction_defined (filters : option KvStoreFilters)
    (it : option Value) (key : string) (v : Value) :
  (∀ cur, it = Some cur → is_Some (value cur)) →
  (it = None → is_Some (value v) → version v ≠ 0) →
  ∃ a, mergeAction filters it key v = Ok a.
Proof.
  intros Hpayload Hzero.
  destruct (mergeAction_cases filters key v) as [Hrej|[Hf Ht]].
  { rewrite (mergeAction_rejected _ _ _ _ Hrej). eauto. }
  destruct it as [cur|].
  - rewrite (mergeAction_known _ _ _ _ Hf Ht).
    destruct (Hpayload cur eq_refl) as [q ->].
    destruct (version v ?= version cur); [|eauto|by destruct (value v); eauto].
    destruct (value v) as [p|].
    + destruct (String.compare (originatorId v) (originatorId cur)); eauto.
      destruct (String.compare p q); eauto.
      destruct (ttlVersion v >? ttlVersion cur); eauto.
    + destruct (_ && _); eauto.
  - rewrite (mergeAction_unknown _ _ _ Hf Ht).
    destruct (Z.compare_spec (version v) 0) as [Hv|Hv|Hv];
      [|eauto|by destruct (value v); eauto].
    destruct (value v) as [p|]; [|eauto].
    exfalso. by apply Hzero; eauto.
Qed.

Lemma mergeKeyValues_defined (filters : option KvStoreFilters)
    (kvStore keyVals : gmap string Value) :
  allHavePayload kvStore →
  (∀ k v, keyVals !! k = Some v → kvStore !! k = None →
          is_Some (value v) → version v ≠ 0) →
  ∃ r, mergeKeyValues kvStore keyVals filters = Ok r.
Proof.
  intros Hinv Hzero. unfold mergeKeyValues.
  apply mergeLoop_defined; [apply NoDup_fst_map_to_list|].
  intros k v Hin%elem_of_map_to_list. simpl.
  apply mergeAction_defined.
  - intros cur Hcur. by eapply Hinv.
  - intros Hnone. by apply (Hzero k).
Qed.

Lemma mergeKeyValues_keeps_payloads (filters : option KvStoreFilters)
    (kvStore keyVals kvStore' kvUpdates : gmap string Value) :
  allHavePayload kvStore →
  mergeKeyValues kvStore keyVals filters = Ok (kvStore', kvUpdates) →
  allHavePayload kvStore'.
Proof.
  intros Hinv Hmerge k cur' Hcur'.
  pose proof (mergeKeyValues_lookup _ _ _ _ _ k Hmerge) as Hk.
  destruct (keyVals !! k) as [v|]; [|rewrite Hk in Hcur'; by eapply Hinv].
  destruct Hk as (a & Ha & Hk). rewrite Hk in Hcur'.
  destruct a; simpl in Hcur'.
  - by eapply Hinv.
  - injection Hcur' as <-.
    destruct (mergeAction_applies filters k v (kvStore, ∅) UpdateAll Ha)
      as [st' Happly].
    unfold applyAction in Happly.
    destruct (value v) as [p|] eqn:Hp; [|done].
    unfold storedValue. destruct (hash v); simpl; rewrite Hp; eauto.
  - destruct (kvStore !! k) as [cur|] eqn:Hcur; [|done].
    injection Hcur' as <-. simpl. by eapply Hinv.
Qed.

End MergeTotal.

(** *** Examples on the reference platform *)

(** C1, witness: an incoming value with a greater payload replaces the
    record. *)
Lemma C1_witness :
  ∃ cur',
    ({["k"%string := mkValue 1 "A" (Some "y"%string) 1000 0 (Some 3)]}
       : gmap string Value) !! "k"%string = Some cur'
    ∧ tuple_cmp cur' example_current ≠ Lt
    ∧ ∀ incoming,
        ({["k"%string := mkValue 1 "A" (Some "y"%string) 1000 0 None]}
           : gmap string Value) !! "k"%string = Some incoming →
        passesFilter None "k" incoming = true →
        validTtl (H := reference_platform) incoming = true →
        is_Some (value incoming) →
        (tuple_cmp incoming example_current = Gt
         ↔ mergeAction (H := reference_platform) None (Some example_current)
             "k" incoming = Ok UpdateAll)
        ∧ (tuple_cmp incoming example_current = Gt
           → cur' = storedValue (H := reference_platform) incoming)
        ∧ (tuple_cmp incoming example_current ≠ Gt
           → tuple_cmp cur' example_current = Eq
             ∧ hash cur' = hash example_current).
Proof.
  apply (C1_value_update_iff_strictly_greater (H := reference_platform) None
           {["k"%string := example_current]}
           {["k"%string := mkValue 1 "A" (Some "y"%string) 1000 0 None]}
           {["k"%string := mkValue 1 "A" (Some "y"%string) 1000 0 (Some 3)]}
           {["k"%string := mkValue 1 "A" (Some "y"%string) 1000 0 None]}
           "k" example_current).
  - reflexivity.
  - reflexivity.
Defined.

(** C1, counterexample to the claim as stated: two incoming values whose
    tuple is strictly greater than the current one and which are dropped, a
    ttl refresh (no payload) at a higher version and a value whose ttl is 0. *)
Lemma C1_counterexample :
  let refresh := mkValue 2 "A" None 1000 0 None in
  let expired := mkValue 2 "A" (Some "y"%string) 0 0 None in
  tuple_cmp refresh example_current = Gt
  ∧ tuple_cmp expired example_current = Gt
  ∧ mergeKeyValues (H := reference_platform)
      {["k"%string := example_current]} {["k"%string := refresh]} None
    = Ok ({["k"%string := example_current]}, ∅)
  ∧ mergeKeyValues (H := reference_platform)
      {["k"%string := example_current]} {["k"%string := expired]} None
    = Ok ({["k"%string := example_current]}, ∅).
Proof. repeat split; reflexivity. Qed.

(** C2, witness: key "k" is unknown, the update has version 0 and a
    payload. *)
Lemma C2_witness :
  mergeAction (H := reference_platform) None
    ((∅ : gmap string Value) !! "k"%string) "k"
    (mkValue 0 "A" (Some "x"%string) 1000 0 None) = Raise EndIteratorDeref
  ∧ ∀ r, mergeKeyValues (H := reference_platform) ∅
           {["k"%string := mkValue 0 "A" (Some "x"%string) 1000 0 None]} None
         ≠ Ok r.
Proof.
  apply (C2_unknown_key_version_zero_faults (H := reference_platform) None ∅
           {["k"%string := mkValue 0 "A" (Some "x"%string) 1000 0 None]}
           "k" (mkValue 0 "A" (Some "x"%string) 1000 0 None)).
  - reflexivity.
  - reflexivity.
  - reflexivity.
  - reflexivity.
  - reflexivity.
  - simpl. eauto.
Defined.

(** C3, witness: a ttl refresh from ttl version 5 to 7. *)
Lemma C3_witness :
  ∃ cur',
    ({["k"%string := mkValue 1 "A" (Some "x"%string) 900 7 (Some 3)]}
       : gmap string Value) !! "k"%string = Some cur'
    ∧ rank_le example_current cur'
    ∧ (version cur' = version example_current →
       originatorId cur' = originatorId example_current →
       value cur' = value example_current →
       ttlVersion example_current ≤ ttlVersion cur').
Proof.
  apply (C3_ttlVersion_monotone_for_fixed_tuple (H := reference_platform) None
           [ {["k"%string := mkValue 1 "A" None 900 7 None]} ]
           {["k"%string := example_current]}
           {["k"%string := mkValue 1 "A" (Some "x"%string) 900 7 (Some 3)]}
           "k" example_current).
  - reflexivity.
  - reflexivity.
Defined.

(** C3, counterexample to the claim as stated: a value update that keeps
    version 1 and originator "A" (greater payload) takes the ttl version
    from 5 down to 0. *)
Lemma C3_counterexample :
  let incoming := mkValue 1 "A" (Some "y"%string) 1000 0 None in
  ∃ kvStore' kvUpdates cur',
    mergeKeyValues (H := reference_platform)
      {["k"%string := example_current]} {["k"%string := incoming]} None
    = Ok (kvStore', kvUpdates)
    ∧ kvStore' !! "k"%string = Some cur'
    ∧ version cur' = version example_current
    ∧ originatorId cur' = originatorId example_current
    ∧ ttlVersion cur' < ttlVersion example_current.
Proof.
  eexists _, _, (mkValue 1 "A" (Some "y"%string) 1000 0 (Some 3)).
  repeat split; reflexivity.
Qed.

(** ** Peer state machine *)

(** C7. [getNextState] returns the state of the specified table on the six
    defined cells and fails its CHECK on every other cell, as it does when
    the current state is undefined. *)
Theorem C7_getNextState_implements_table :
  (∀ (s : KvStorePeerState) (e : KvStorePeerEvent),
     getNextState (Some s) e =
     match specTransition s e with
     | Some next => Ok next
     | None => Raise CheckFailure
     end)
  ∧ (∀ e : KvStorePeerEvent, getNextState None e = Raise CheckFailure).
Proof. split; [intros [] []; reflexivity | reflexivity]. Qed.

(** ** Area lookup *)

Lemma map_size_one_inv {A : Type} (m : gmap string A) :
  size m = 1%nat → ∃ a x, m = {[a := x]} ∧ map_to_list m = [(a, x)].
Proof.
  intros Hsize. rewrite <- length_map_to_list in Hsize.
  destruct (map_to_list m) as [|[a x] [|? ?]] eqn:Hl; simplify_eq/=.
  exists a, x. split; [|done].
  rewrite <- (list_to_map_to_list m), Hl. simpl. by rewrite insert_empty.
Qed.

Section AreaLookupFacts.
Context `{Platform}.
Context {Db : Type}.

(** C9 (amended). The area lookup [getAreaDbOrThrow]: a configured area
    resolves to its own database. An area that is not configured (the empty
    name is treated like any other) resolves to the sole database when
    exactly one area is configured and either the name is the wildcard area
    or the configured area is the wildcard area itself; in every other case
    [KvStoreError] is raised. *)
Theorem C9_getAreaDbOrThrow_cases (kvStoreDb_ : gmap string Db) (areaId : string) :
  match kvStoreDb_ !! areaId with
  | Some db => getAreaDbOrThrow kvStoreDb_ areaId = inr (areaId, db)
  | None =>
      (∀ a db,
         kvStoreDb_ = {[a := db]} →
         areaId = kDefaultArea ∨ a = kDefaultArea →
         getAreaDbOrThrow kvStoreDb_ areaId = inr (a, db))
      ∧ ((¬ ∃ a db, kvStoreDb_ = {[a := db]}
                    ∧ (areaId = kDefaultArea ∨ a = kDefaultArea)) →
         getAreaDbOrThrow kvStoreDb_ areaId
         = inl (mkKvStoreError ("Invalid area: " +:+ areaId)))
  end.
Proof.
  unfold getAreaDbOrThrow.
  destruct (kvStoreDb_ !! areaId) as [db|] eqn:Hlook; [done|].
  split.
  - intros a db -> Hwild.
    rewrite map_size_singleton, bool_decide_eq_true_2 by done.
    rewrite map_to_list_singleton. simpl.
    destruct Hwild as [->| ->].
    + rewrite (bool_decide_eq_true_2 (kDefaultArea = kDefaultArea)) by done.
      by rewrite orb_true_r.
    + rewrite bool_decide_eq_true_2; [done|].
      rewrite lookup_singleton_eq. eauto.
  - intros Hnot.
    destruct (bool_decide (size kvStoreDb_ = 1%nat)) eqn:Hsize; simpl; [|done].
    apply bool_decide_eq_true in Hsize.
    destruct (map_size_one_inv _ Hsize) as (a & db & -> & Hlist).
    destruct (bool_decide (is_Some (({[a := db]} : gmap string Db) !! kDefaultArea))
              || bool_decide (areaId = kDefaultArea)) eqn:Hor; [|done].
    exfalso. apply Hnot. exists a, db. split; [done|].
    apply orb_true_iff in Hor as [Hd|Ha].
    + apply bool_decide_eq_true in Hd. destruct Hd as [x Hx].
      apply lookup_singleton_Some in Hx as [-> _]. by right.
    + apply bool_decide_eq_true in Ha. by left.
Qed.

End AreaLookupFacts.

(** C9, counterexample to the claim as stated: on a node whose only area is
    the wildcard area "0", a request with an empty area and a request for the
    unconfigured area "7" are both served by that area instead of raising. *)
Lemma C9_counterexample :
  getAreaDbOrThrow (H := reference_platform)
    ({["0"%string := 1%nat]} : gmap string nat) EmptyString = inr ("0"%string, 1%nat)
  ∧ getAreaDbOrThrow (H := reference_platform)
      ({["0"%string := 1%nat]} : gmap string nat) "7" = inr ("0"%string, 1%nat).
Proof. split; reflexivity. Qed.

(** ** Self-originated keys *)

(** C10. For a key that is not in the key-value map, [unsetSelfOriginatedKey]
    is [eraseSelfOriginatedKey]: the key leaves the self-originated cache and
    the set of keys to advertise, and nothing else changes; no tombstone is
    queued, the unset throttle is not triggered, nothing is pushed to
    subscribers or sent to peers. *)
Theorem C10_unset_of_absent_key_only_erases
    (key tombstone : string) (db : KvStoreDb) :
  kvStore_ db !! key = None →
  unsetSelfOriginatedKey key tombstone db = eraseSelfOriginatedKey key db
  ∧ unsetSelfOriginatedKey key tombstone db =
      set_selfOriginated db (delete key (selfOriginatedKeyVals_ db))
        (keysToAdvertise_ db ∖ {[key]})
  ∧ (selfOriginatedKeyVals_ (unsetSelfOriginatedKey key tombstone db) !! key
     = None)
  ∧ (key ∉ keysToAdvertise_ (unsetSelfOriginatedKey key tombstone db))
  ∧ keysToUnset_ (unsetSelfOriginatedKey key tombstone db) = keysToUnset_ db
  ∧ unsetThrottleCalls (unsetSelfOriginatedKey key tombstone db)
    = unsetThrottleCalls db
  ∧ kvStore_ (unsetSelfOriginatedKey key tombstone db) = kvStore_ db
  ∧ updatesQueue (unsetSelfOriginatedKey key tombstone db) = updatesQueue db
  ∧ peerRequests (unsetSelfOriginatedKey key tombstone db) = peerRequests db.
Proof.
  intros Habsent.
  assert (unsetSelfOriginatedKey key tombstone db = eraseSelfOriginatedKey key db)
    as Heq.
  { unfold unsetSelfOriginatedKey. simpl. by rewrite Habsent. }
  rewrite Heq. unfold eraseSelfOriginatedKey. simpl.
  split_and!; [done| done | apply lookup_delete_eq | | done..].
  rewrite elem_of_difference, elem_of_singleton. tauto.
Qed.

(** C10, witness: key "k" is cached as self-originated but not in the map. *)
Lemma C10_witness :
  unsetSelfOriginatedKey "k" EmptyString example_db = eraseSelfOriginatedKey "k" example_db
  ∧ unsetSelfOriginatedKey "k" EmptyString example_db =
      set_selfOriginated example_db
        (delete "k"%string (selfOriginatedKeyVals_ example_db))
        (keysToAdvertise_ example_db ∖ {["k"%string]})
  ∧ (selfOriginatedKeyVals_ (unsetSelfOriginatedKey "k" EmptyString example_db) !! "k"%string
     = None)
  ∧ ("k"%string ∉ keysToAdvertise_ (unsetSelfOriginatedKey "k" EmptyString example_db))
  ∧ keysToUnset_ (unsetSelfOriginatedKey "k" EmptyString example_db)
    = keysToUnset_ example_db
  ∧ unsetThrottleCalls (unsetSelfOriginatedKey "k" EmptyString example_db)
    = unsetThrottleCalls example_db
  ∧ kvStore_ (unsetSelfOriginatedKey "k" EmptyString example_db) = kvStore_ example_db
  ∧ updatesQueue (unsetSelfOriginatedKey "k" EmptyString example_db)
    = updatesQueue example_db
  ∧ peerRequests (unsetSelfOriginatedKey "k" EmptyString example_db)
    = peerRequests example_db.
Proof.
  apply (C10_unset_of_absent_key_only_erases "k" EmptyString example_db).
  reflexivity.
Defined.

(** ** Loop suppression *)

Lemma counters_addStatValue_ne (k k' : string) (n : Z) (db : KvStoreDb) :
  k ≠ k' → counters (addStatValue k n db) !! k' = counters db !! k'.
Proof. intros Hne. unfold addStatValue. simpl. by rewrite lookup_insert_ne. Qed.

Lemma counters_addStatValue_eq (k : string) (n : Z) (db : KvStoreDb) :
  counters (addStatValue k n db) !! k = Some (default 0 (counters db !! k) + n).
Proof. unfold addStatValue. simpl. by rewrite lookup_insert_eq. Qed.

Section LoopSuppression.
Context `{Platform}.
Variable floodPublication : Publication → KvStoreDb → KvStoreDb.
Variable finalizeFullSync : gset string → string → KvStoreDb → KvStoreDb.

(** The test that makes [mergePublication] return before the loop check. *)
Lemma early_return_reachesLoopCheck (rcvdPublication : Publication)
    (senderId : option string) (db : KvStoreDb) :
  map_is_empty (keyVals rcvdPublication)
  && negb (bool_decide (is_Some senderId)
           && negb (set_is_empty (keysToFinalize rcvdPublication senderId db)))
  = negb (reachesLoopCheck rcvdPublication senderId db).
Proof.
  unfold reachesLoopCheck, map_is_empty, set_is_empty.
  rewrite (bool_decide_ext (size (keyVals rcvdPublication) = 0%nat)
             (keyVals rcvdPublication = ∅)) by apply map_size_empty_iff.
  destruct (decide (keyVals rcvdPublication = ∅)) as [Hkv|Hkv].
  - rewrite (bool_decide_eq_true_2 _ Hkv). simpl.
    destruct senderId as [sender|].
    + rewrite (bool_decide_eq_true_2 (is_Some (Some sender))) by eauto. simpl.
      rewrite negb_involutive.
      destruct (decide (keysToFinalize rcvdPublication (Some sender) db = ∅))
        as [Hk|Hk].
      * rewrite (bool_decide_eq_true_2 _ Hk), bool_decide_eq_false_2; [done|].
        intros [?|[_ ?]]; done.
      * rewrite (bool_decide_eq_false_2 _ Hk), bool_decide_eq_true_2; [done|].
        right. split; [eauto|done].
    + rewrite (bool_decide_eq_false_2 (is_Some None)) by (by intros [? ?]).
      simpl. rewrite bool_decide_eq_false_2; [done|].
      intros [?|[[? ?] _]]; done.
  - rewrite (bool_decide_eq_false_2 _ Hkv). simpl.
    rewrite bool_decide_eq_true_2; [done|by left].
Qed.

(** C5 (amended). A publication whose [nodeIds] contain the local node id
    is dropped: the call reports zero updates, and the key-value map, the
    ttl countdown queue, the queue to the subscribers, the requests sent to
    peers and the self-originated key state are as they were, whatever
    flooding and finalize-sync would do. The keys pending for the sender are
    taken over and cleared, and sent to no one; no other peer changes. The
    loop counter goes up by one exactly when the publication carries a
    key-value or comes from a sender with keys to send back; otherwise the
    call returns before the loop check and the counter stays. *)
Theorem C5_looped_publication_is_dropped
    (timeNow : Z) (rcvdPublication : Publication) (senderId : option string)
    (db : KvStoreDb) (ids : list string) :
  nodeIds rcvdPublication = Some ids →
  nodeId db ∈ ids →
  ∃ db',
    mergePublication floodPublication finalizeFullSync timeNow rcvdPublication
      senderId db = Ok (db', 0%nat)
    ∧ kvStore_ db' = kvStore_ db
    ∧ ttlCountdownQueue_ db' = ttlCountdownQueue_ db
    ∧ updatesQueue db' = updatesQueue db
    ∧ peerRequests db' = peerRequests db
    ∧ selfOriginatedKeyVals_ db' = selfOriginatedKeyVals_ db
    ∧ keysToAdvertise_ db' = keysToAdvertise_ db
    ∧ keysToUnset_ db' = keysToUnset_ db
    ∧ (∀ p, thriftPeers_ db' !! p =
            if bool_decide (senderId = Some p)
            then withoutPendingKeys <$> thriftPeers_ db !! p
            else thriftPeers_ db !! p)
    ∧ counters db' !! "kvstore.looped_publications"%string
      = if reachesLoopCheck rcvdPublication senderId db
        then Some (default 0 (counters db !! "kvstore.looped_publications"%string)
                   + 1)
        else counters db !! "kvstore.looped_publications"%string.
Proof.
  intros Hids Hloop.
  pose proof (early_return_reachesLoopCheck rcvdPublication senderId db)
    as Hearly.
  unfold keysToFinalize in Hearly.
  assert (∀ k, ("kvstore.received_publications." +:+ k)%string
               ≠ "kvstore.looped_publications"%string) as Hne1.
  { intros k. cbv [String.append]. discriminate. }
  assert (∀ k, ("kvstore.received_key_vals." +:+ k)%string
               ≠ "kvstore.looped_publications"%string) as Hne2.
  { intros k. cbv [String.append]. discriminate. }
  unfold mergePublication. cbv zeta.
  destruct senderId as [sender|];
    [destruct (thriftPeers_ db !! sender) as [peer|] eqn:Hpeer|].
  all: cbn [thriftPeers_ addStatValue set_counters]; rewrite ?Hpeer;
    cbv beta iota; rewrite ?(right_id_L ∅ (∪)) in Hearly; rewrite Hearly;
    destruct (reachesLoopCheck _ _ _); cbn [negb];
    [rewrite Hids; simpl; rewrite bool_decide_eq_true_2 by done|];
    (eexists; split; [reflexivity|]; simpl; split_and!; try done);
    try (rewrite ?lookup_insert_eq;
         by rewrite !lookup_insert_ne
           by first [apply Hne1 | apply Hne2 | discriminate]);
    intros p.
  - destruct (decide (sender = p)) as [->|Hne].
    + rewrite lookup_insert_eq, bool_decide_eq_true_2 by done.
      by rewrite Hpeer.
    + rewrite lookup_insert_ne by done.
      rewrite bool_decide_eq_false_2; [done|congruence].
  - destruct (decide (sender = p)) as [->|Hne].
    + rewrite lookup_insert_eq, bool_decide_eq_true_2 by done.
      by rewrite Hpeer.
    + rewrite lookup_insert_ne by done.
      rewrite bool_decide_eq_false_2; [done|congruence].
  - destruct (decide (sender = p)) as [->|Hne].
    + rewrite bool_decide_eq_true_2 by done. by rewrite Hpeer.
    + rewrite bool_decide_eq_false_2; [done|congruence].
  - destruct (decide (sender = p)) as [->|Hne].
    + rewrite bool_decide_eq_true_2 by done. by rewrite Hpeer.
    + rewrite bool_decide_eq_false_2; [done|congruence].
Qed.

End LoopSuppression.

(** C5, witness: node "node1" receives from peer "node2", for which the key
    "p" is pending, a publication that has already passed through "node1". *)
Lemma C5_witness :
  nodeIds example_looped_publication = Some ["node1"%string; "node2"%string]
  ∧ nodeId example_db_pending ∈ ["node1"%string; "node2"%string]
  ∧ ∃ db',
      mergePublication (H := reference_platform) (fun _ db => db)
        (fun _ _ db => db) 0 example_looped_publication
        (Some "node2"%string) example_db_pending
      = Ok (db', 0%nat)
      ∧ kvStore_ db' = kvStore_ example_db_pending
      ∧ thriftPeers_ db' !! "node2"%string
        = Some (mkPeer INITIALIZED 0 ∅)
      ∧ counters db' !! "kvstore.looped_publications"%string = Some 1.
Proof.
  assert (nodeId example_db_pending ∈ ["node1"%string; "node2"%string])
    as Hin by (apply list_elem_of_here).
  split; [reflexivity|]. split; [exact Hin|].
  destruct (C5_looped_publication_is_dropped (H := reference_platform)
              (fun _ db => db) (fun _ _ db => db) 0
              example_looped_publication (Some "node2"%string)
              example_db_pending ["node1"%string; "node2"%string]
              eq_refl Hin)
    as (db' & Hrun & Hkv & _ & _ & _ & _ & _ & _ & Hpeers & Hcount).
  exists db'. split; [exact Hrun|]. split; [exact Hkv|].
  split; [exact (Hpeers "node2"%string)|exact Hcount].
Defined.

(** C5, counterexample to the claim as stated: a publication that carries
    expired keys only and has passed through "node1" is dropped by "node1"
    before the loop check, and the loop counter does not move. *)
Lemma C5_counterexample :
  nodeIds example_expired_looped_publication
  = Some ["node1"%string; "node2"%string]
  ∧ nodeId example_db = "node1"%string
  ∧ ∃ db',
      mergePublication (H := reference_platform) (fun _ db => db)
        (fun _ _ db => db) 0 example_expired_looped_publication
        (Some "node2"%string) example_db
      = Ok (db', 0%nat)
      ∧ counters db' !! "kvstore.looped_publications"%string = None
      ∧ counters db' !! "kvstore.received_publications"%string = Some 1.
Proof.
  split; [reflexivity|]. split; [reflexivity|].
  eexists. split; [reflexivity|]. split; reflexivity.
Qed.

(** ** Three-way full sync *)

Section FullSyncFacts.
Context `{Platform}.

Lemma dumpDifference_fold (myKeyVal reqKeyVal : gmap string Value)
    (keys : list string) : ∀ (acc : gmap string Value * list string),
  let res := foldl (dumpDifferenceKey myKeyVal reqKeyVal) acc keys in
  (∀ k, res.1 !! k =
        match acc.1 !! k with
        | Some x => Some x
        | None =>
            if bool_decide (k ∈ keys) && sentBack myKeyVal reqKeyVal k
            then myKeyVal !! k
            else None
        end)
  ∧ res.2 = acc.2 ++ List.filter (askedFor myKeyVal reqKeyVal) keys.
Proof.
  induction keys as [|key keys IH]; intros [kvs tobe].
  - simpl. split; [|by rewrite app_nil_r]. intros k. by destruct (kvs !! k).
  - specialize (IH (dumpDifferenceKey myKeyVal reqKeyVal (kvs, tobe) key)).
    cbv zeta in IH. destruct IH as [IHkv IHtobe].
    cbv zeta. cbn [foldl].
    split.
    + intros k. rewrite IHkv. clear IHkv IHtobe.
      unfold dumpDifferenceKey, sentBack.
      destruct (decide (k = key)) as [->|Hne].
      * rewrite (bool_decide_eq_true_2 (key ∈ key :: keys)) by apply list_elem_of_here.
        simpl.
        destruct (myKeyVal !! key) as [myVal|] eqn:Hmy; simpl.
        -- destruct (reqKeyVal !! key) as [reqVal|] eqn:Hreq; simpl.
           ++ destruct ((compareValues myVal reqVal =? 1)
                        || (compareValues myVal reqVal =? -2)) eqn:Hrc; simpl.
              ** rewrite emplace_lookup. destruct (kvs !! key); [done|].
                 by rewrite decide_True.
              ** destruct (kvs !! key); [done|].
                 by rewrite andb_false_r.
           ++ rewrite emplace_lookup. destruct (kvs !! key); [done|].
              by rewrite decide_True.
        -- destruct (kvs !! key); [done|]. by rewrite andb_false_r.
      * assert (bool_decide (k ∈ key :: keys) = bool_decide (k ∈ keys)) as ->.
        { apply bool_decide_ext. rewrite elem_of_cons. tauto. }
        assert ((dumpDifferenceKey myKeyVal reqKeyVal (kvs, tobe) key).1 !! k
                = kvs !! k) as Hsame.
        { unfold dumpDifferenceKey.
          destruct (myKeyVal !! key) as [myVal|]; [|done].
          destruct (reqKeyVal !! key) as [reqVal|]; simpl.
          - destruct (_ || _); [|done].
            rewrite emplace_lookup. destruct (kvs !! k); [done|].
            by rewrite decide_False.
          - rewrite emplace_lookup. destruct (kvs !! k); [done|].
            by rewrite decide_False. }
        unfold dumpDifferenceKey in Hsame. unfold sentBack in *.
        by rewrite Hsame.
    + rewrite IHtobe. clear IHkv IHtobe.
      unfold dumpDifferenceKey, askedFor. cbn [List.filter].
      destruct (myKeyVal !! key) as [myVal|]; simpl.
      * destruct (reqKeyVal !! key) as [reqVal|]; simpl; [|done].
        destruct ((compareValues myVal reqVal =? -1)
                  || (compareValues myVal reqVal =? -2)); simpl; [|done].
        by rewrite <- app_assoc.
      * by rewrite <- app_assoc.
Qed.

(** The publication built by [dumpDifference] by the codes of
    [compareValues]: [keyVals] holds the responder's records for the keys
    that the request lacks or for which the code is 1 or -2;
    [tobeUpdatedKeys] lists, without repetition, the keys that the responder
    lacks or for which the code is -1 or -2. *)
Lemma dumpDifference_by_codes
    (area_ : string) (myKeyVal reqKeyVal : gmap string Value) (key : string) :
  (keyVals (dumpDifference area_ myKeyVal reqKeyVal) !! key =
     match myKeyVal !! key with
     | Some myVal =>
         match reqKeyVal !! key with
         | None => Some myVal
         | Some reqVal =>
             if (compareValues myVal reqVal =? 1)
                || (compareValues myVal reqVal =? -2)
             then Some myVal
             else None
         end
     | None => None
     end)
  ∧ ∃ tobe,
      tobeUpdatedKeys (dumpDifference area_ myKeyVal reqKeyVal) = Some tobe
      ∧ NoDup tobe
      ∧ (key ∈ tobe ↔
         match myKeyVal !! key with
         | None => is_Some (reqKeyVal !! key)
         | Some myVal =>
             match reqKeyVal !! key with
             | None => False
             | Some reqVal =>
                 compareValues myVal reqVal = -1 ∨ compareValues myVal reqVal = -2
             end
         end).
Proof.
  unfold dumpDifference.
  pose proof (dumpDifference_fold myKeyVal reqKeyVal
                (elements (dom myKeyVal ∪ dom reqKeyVal)) (∅, [])) as Hfold.
  cbv zeta in Hfold.
  destruct (foldl _ _ _) as [kvs tobe]. simpl in *.
  destruct Hfold as [Hkv ->].
  assert (key ∈ elements (dom myKeyVal ∪ dom reqKeyVal)
          ↔ is_Some (myKeyVal !! key) ∨ is_Some (reqKeyVal !! key)) as Hall.
  { by rewrite elem_of_elements, elem_of_union, !elem_of_dom. }
  split.
  - rewrite Hkv, lookup_empty. unfold sentBack.
    destruct (myKeyVal !! key) as [myVal|] eqn:Hmy.
    + rewrite bool_decide_eq_true_2 by (apply Hall; eauto). simpl.
      destruct (reqKeyVal !! key); [|done]. by destruct (_ || _).
    + by rewrite andb_false_r.
  - eexists. split; [reflexivity|]. split.
    + apply NoDup_ListNoDup, List.NoDup_filter, NoDup_ListNoDup, NoDup_elements.
    + rewrite list_elem_of_In, List.filter_In, <- list_elem_of_In, Hall.
      unfold askedFor.
      destruct (myKeyVal !! key) as [myVal|] eqn:Hmy.
      * destruct (reqKeyVal !! key) as [reqVal|] eqn:Hreq.
        -- rewrite orb_true_iff, !Z.eqb_eq. split; [tauto|]. eauto.
        -- split; [by intros [_ ?]|done].
      * split; [|by auto]. intros [[Hs|Hs] _]; [by destruct Hs|done].
Qed.

(** [compareValues] against a hash-only record, as the initiator of a full
    sync sends them: the payload comparison is never reached. *)
Lemma compareValues_hash_only (myVal reqVal : Value) :
  value reqVal = None →
  compareValues myVal reqVal =
  match version myVal ?= version reqVal with
  | Gt => 1
  | Lt => -1
  | Eq =>
      match String.compare (originatorId myVal) (originatorId reqVal) with
      | Gt => 1
      | Lt => -1
      | Eq =>
          match hash myVal, hash reqVal with
          | Some h1, Some h2 =>
              if h1 =? h2 then
                match ttlVersion myVal ?= ttlVersion reqVal with
                | Gt => 1
                | Lt => -1
                | Eq => 0
                end
              else -2
          | _, _ => -2
          end
      end
  end.
Proof.
  intros Hreq. unfold compareValues.
  destruct (Z.compare_spec (version myVal) (version reqVal)) as [Hv|Hv|Hv].
  - rewrite (proj2 (Z.eqb_eq _ _) Hv). simpl.
    destruct (String.compare (originatorId myVal) (originatorId reqVal)) eqn:Ho.
    + rewrite bool_decide_eq_true_2 by (by apply string_compare_eq). simpl.
      assert (match value myVal, value reqVal with
              | Some p1, Some p2 => str_compare p1 p2
              | _, _ => -2
              end = -2) as ->.
      { rewrite Hreq. by destruct (value myVal). }
      destruct (hash myVal) as [h1|], (hash reqVal) as [h2|]; try done.
      destruct (h1 =? h2); [|done].
      destruct (Z.compare_spec (ttlVersion myVal) (ttlVersion reqVal)) as [Ht|Ht|Ht].
      * by rewrite (proj2 (Z.eqb_eq _ _) Ht).
      * rewrite (proj2 (Z.eqb_neq _ _)) by lia. simpl.
        by rewrite Z.gtb_ltb, (proj2 (Z.ltb_ge _ _)) by lia.
      * rewrite (proj2 (Z.eqb_neq _ _)) by lia. simpl.
        by rewrite Z.gtb_ltb, (proj2 (Z.ltb_lt _ _)) by lia.
    + rewrite bool_decide_eq_false_2; simpl.
      * by rewrite string_gt_false by congruence.
      * intros Heq%string_compare_eq. congruence.
    + rewrite bool_decide_eq_false_2; simpl.
      * by rewrite (proj2 (string_gt_true _ _)).
      * intros Heq%string_compare_eq. congruence.
  - rewrite (proj2 (Z.eqb_neq _ _)) by lia. simpl.
    by rewrite Z.gtb_ltb, (proj2 (Z.ltb_ge _ _)) by lia.
  - rewrite (proj2 (Z.eqb_neq _ _)) by lia. simpl.
    by rewrite Z.gtb_ltb, (proj2 (Z.ltb_lt _ _)) by lia.
Qed.

(** The three answers of [compareValues] against a hash-only record. *)
Lemma compareValues_hash_only_meaning (myVal reqVal : Value) :
  value reqVal = None →
  (compareValues myVal reqVal = 1 ↔ winsByHash myVal reqVal)
  ∧ (compareValues myVal reqVal = -1 ↔ winsByHash reqVal myVal)
  ∧ (compareValues myVal reqVal = -2 ↔ comparisonUnknown myVal reqVal).
Proof.
  intros Hreq. rewrite (compareValues_hash_only myVal reqVal Hreq).
  unfold winsByHash, comparisonUnknown, sameHash.
  destruct (Z.compare_spec (version myVal) (version reqVal)) as [Hv|Hv|Hv].
  2: { split_and!; split; try done; try lia; intros; lia. }
  2: { split_and!; split; try done; try lia; intros; lia. }
  destruct (String.compare (originatorId myVal) (originatorId reqVal)) eqn:Ho.
  - pose proof (proj1 (string_compare_eq _ _) Ho) as Hoeq.
    assert (String.compare (originatorId reqVal) (originatorId myVal) = Eq)
      as Ho' by (by apply string_compare_eq).
    destruct (hash myVal) as [h1|] eqn:Hh1, (hash reqVal) as [h2|] eqn:Hh2.
    + destruct (Z.eqb_spec h1 h2) as [->|Hne].
      * destruct (Z.compare_spec (ttlVersion myVal) (ttlVersion reqVal))
          as [Ht|Ht|Ht];
          (split_and!; split; try done; try lia;
           try (intros [?|[[_ ?]|(_ & _ & _ & ?)]]; first [lia|congruence]);
           try (intros (_ & _ & Hno); exfalso; apply Hno; eauto);
           try (intros _; right; right; split_and!; try done; eauto)).
      * split_and!; split; try done;
          try (intros [?|[[_ ?]|(_ & _ & (h & ? & ?) & _)]];
               first [lia|congruence]).
        intros _. split_and!; try done. intros (h & ? & ?). congruence.
    + split_and!; split; try done;
        try (intros [?|[[_ ?]|(_ & _ & (h & ? & ?) & _)]];
             first [lia|congruence]).
      intros _. split_and!; try done. intros (h & ? & ?). congruence.
    + split_and!; split; try done;
        try (intros [?|[[_ ?]|(_ & _ & (h & ? & ?) & _)]];
             first [lia|congruence]).
      intros _. split_and!; try done. intros (h & ? & ?). congruence.
    + split_and!; split; try done;
        try (intros [?|[[_ ?]|(_ & _ & (h & ? & ?) & _)]];
             first [lia|congruence]).
      intros _. split_and!; try done. intros (h & ? & ?). congruence.
  - pose proof (proj1 (string_compare_lt_gt _ _) Ho) as Ho'.
    assert (originatorId myVal ≠ originatorId reqVal) as Hne.
    { intros Heq%string_compare_eq. congruence. }
    split_and!; split; try done;
      try (intros [?|[[_ ?]|(_ & ? & _)]]; first [lia|congruence]);
      try (intros (_ & ? & _); congruence).
    intros _. right. left. done.
  - assert (originatorId myVal ≠ originatorId reqVal) as Hne.
    { intros Heq%string_compare_eq. congruence. }
    assert (String.compare (originatorId reqVal) (originatorId myVal) = Lt)
      as Ho' by (by apply string_compare_lt_gt).
    split_and!; split; try done;
      try (intros [?|[[_ ?]|(_ & ? & _)]]; first [lia|congruence]);
      try (intros (_ & ? & _); congruence).
    intros _. right. left. done.
Qed.

(** C6 (amended). For a request of hash-only records, in the publication
    built by [dumpDifference] [keyVals] holds exactly the responder's
    records for the keys that the request lacks, or for which the
    responder's record wins, or for which the comparison is unknown;
    [tobeUpdatedKeys] lists, without repetition, exactly the keys that the
    responder lacks, or for which the record of the request wins, or for
    which the comparison is unknown. A key with an unknown comparison is
    therefore in both. *)
Theorem C6_dumpDifference_contents
    (area_ : string) (myKeyVal reqKeyVal : gmap string Value) (key : string) :
  hashOnlyRequest reqKeyVal →
  (∀ myVal,
     keyVals (dumpDifference area_ myKeyVal reqKeyVal) !! key = Some myVal
     ↔ myKeyVal !! key = Some myVal
       ∧ (reqKeyVal !! key = None
          ∨ ∃ reqVal, reqKeyVal !! key = Some reqVal
                      ∧ (winsByHash myVal reqVal
                         ∨ comparisonUnknown myVal reqVal)))
  ∧ ∃ tobe,
      tobeUpdatedKeys (dumpDifference area_ myKeyVal reqKeyVal) = Some tobe
      ∧ NoDup tobe
      ∧ (key ∈ tobe
         ↔ (myKeyVal !! key = None ∧ is_Some (reqKeyVal !! key))
           ∨ ∃ myVal reqVal,
               myKeyVal !! key = Some myVal ∧ reqKeyVal !! key = Some reqVal
               ∧ (winsByHash reqVal myVal
                  ∨ comparisonUnknown myVal reqVal)).
Proof.
  intros Hhash.
  destruct (dumpDifference_by_codes area_ myKeyVal reqKeyVal key)
    as (Hkv & tobe & Htobe & Hnodup & Hin).
  split.
  - intros myVal. rewrite Hkv.
    destruct (myKeyVal !! key) as [mine|] eqn:Hmy.
    2: { split; [done|]. by intros [? _]. }
    destruct (reqKeyVal !! key) as [reqVal|] eqn:Hreq.
    2: { split; [intros [= <-]; eauto|]. by intros [[= <-] _]. }
    destruct (compareValues_hash_only_meaning mine reqVal (Hhash _ _ Hreq))
      as (Hone & _ & Hunk).
    destruct ((compareValues mine reqVal =? 1)
              || (compareValues mine reqVal =? -2)) eqn:Hrc.
    + apply orb_true_iff in Hrc. rewrite !Z.eqb_eq in Hrc.
      split.
      * intros [= <-]. split; [done|]. right. exists reqVal. split; [done|].
        destruct Hrc as [Hrc|Hrc]; [left; by apply Hone|right; by apply Hunk].
      * by intros [[= <-] _].
    + apply orb_false_iff in Hrc as [H1 H2].
      apply Z.eqb_neq in H1, H2.
      split; [done|].
      intros [[= <-] [?|(r & [= <-] & [Hw|Hu])]]; [done| |]; exfalso.
      * by apply H1, Hone.
      * by apply H2, Hunk.
  - exists tobe. split; [done|]. split; [done|].
    rewrite Hin.
    destruct (myKeyVal !! key) as [mine|] eqn:Hmy.
    2: { split; [by left|]. intros [[_ ?]|(? & ? & ? & _)]; done. }
    destruct (reqKeyVal !! key) as [reqVal|] eqn:Hreq.
    2: { split; [done|]. intros [[? _]|(? & ? & _ & ? & _)]; done. }
    destruct (compareValues_hash_only_meaning mine reqVal (Hhash _ _ Hreq))
      as (_ & Hneg & Hunk).
    split.
    + intros [Hrc|Hrc]; right; exists mine, reqVal; split_and!; try done;
        [left; by apply Hneg|right; by apply Hunk].
    + intros [[? _]|(m & r & [= <-] & [= <-] & [Hw|Hu])]; [done| |].
      * left. by apply Hneg.
      * right. by apply Hunk.
Qed.

End FullSyncFacts.

(** C6, counterexample to the claim as stated: the responder holds "k" with
    hash 3, the initiator sends a hash-only record for "k" with the same
    version and originator and hash 4. Neither value wins the comparison
    (the answer is -2), and the key is both returned in [keyVals] and listed
    in [tobeUpdatedKeys]. *)
Lemma C6_counterexample :
  let mine := example_current in
  let theirs := mkValue 1 "A" None 1000 5 (Some 4) in
  let pub := dumpDifference (H := reference_platform) "1"
               {["k"%string := mine]} {["k"%string := theirs]} in
  compareValues (H := reference_platform) mine theirs = -2
  ∧ keyVals pub !! "k"%string = Some mine
  ∧ tobeUpdatedKeys pub = Some ["k"%string].
Proof. repeat split; reflexivity. Qed.

(** C6, witness: the responder holds "k" with hash 3 and ttl version 5, the
    initiator sends a hash-only record for "k" with the same version,
    originator and hash and ttl version 4. *)
Lemma C6_witness :
  hashOnlyRequest {["k"%string := mkValue 1 "A" None 1000 4 (Some 3)]}
  ∧ (∀ myVal,
       keyVals (dumpDifference (H := reference_platform) "1"
                  {["k"%string := example_current]}
                  {["k"%string := mkValue 1 "A" None 1000 4 (Some 3)]})
         !! "k"%string = Some myVal
       ↔ ({["k"%string := example_current]} : gmap string Value) !! "k"%string
         = Some myVal
         ∧ (({["k"%string := mkValue 1 "A" None 1000 4 (Some 3)]}
               : gmap string Value) !! "k"%string = None
            ∨ ∃ reqVal,
                ({["k"%string := mkValue 1 "A" None 1000 4 (Some 3)]}
                   : gmap string Value) !! "k"%string = Some reqVal
                ∧ (winsByHash myVal reqVal
                   ∨ comparisonUnknown myVal reqVal))).
Proof.
  assert (hashOnlyRequest {["k"%string := mkValue 1 "A" None 1000 4 (Some 3)]})
    as Hhash.
  { intros k reqVal Hk. apply lookup_singleton_Some in Hk as [_ <-].
    reflexivity. }
  split; [exact Hhash|].
  exact (proj1 (C6_dumpDifference_contents (H := reference_platform) "1"
                  {["k"%string := example_current]}
                  {["k"%string := mkValue 1 "A" None 1000 4 (Some 3)]}
                  "k" Hhash)).
Defined.

(** ** Outbound ttl *)

Section OutboundTtlFacts.
Context `{Platform}.

Lemma updateTtlEntry_lookup (ttlDecr timeNow : Z) (flag : bool)
    (kvs : gmap string Value) (qE : TtlCountdownQueueEntry) (key : string) :
  updateTtlEntry ttlDecr timeNow flag kvs qE !! key =
  match kvs !! key with
  | Some v =>
      if matchesEntry key v qE then ttlOutcome ttlDecr timeNow flag v qE
      else Some v
  | None => None
  end.
Proof.
  unfold updateTtlEntry, matchesEntry, ttlOutcome, aboutToExpire, timeLeft.
  destruct (decide (qKey qE = key)) as [<-|Hne].
  - rewrite bool_decide_eq_true_2 by done. simpl.
    destruct (kvs !! qKey qE) as [v|] eqn:Hv; [|done].
    destruct (version v =? qVersion qE); simpl; [|done].
    destruct (bool_decide (originatorId v = qOriginatorId qE)); simpl; [|done].
    destruct (ttlVersion v =? qTtlVersion qE); simpl; [|done].
    destruct (_ <=? ttlDecr); simpl; [by rewrite lookup_delete_eq|].
    destruct (flag && _); [by rewrite lookup_delete_eq|].
    by rewrite lookup_insert_eq.
  - rewrite (bool_decide_eq_false_2 (qKey qE = key)) by done. simpl.
    assert (updateTtlEntry ttlDecr timeNow flag kvs qE !! key = kvs !! key) as Hsame.
    { unfold updateTtlEntry.
      destruct (kvs !! qKey qE) as [v|]; [|done].
      destruct (_ || _); [done|].
      destruct (_ <=? ttlDecr); [by rewrite lookup_delete_ne|].
      destruct (flag && _); [by rewrite lookup_delete_ne|].
      by rewrite lookup_insert_ne. }
    unfold updateTtlEntry, timeLeft in Hsame. rewrite Hsame.
    by destruct (kvs !! key).
Qed.

Lemma matchesEntry_set_ttl (key : string) (v : Value) (t : Z)
    (qE : TtlCountdownQueueEntry) :
  matchesEntry key (set_ttl v t (ttlVersion v)) qE = matchesEntry key v qE.
Proof. reflexivity. Qed.

Lemma updateTtl_fold_absent (ttlDecr timeNow : Z) (flag : bool) (key : string)
    (queue : list TtlCountdownQueueEntry) : ∀ kvs : gmap string Value,
  kvs !! key = None →
  foldl (updateTtlEntry ttlDecr timeNow flag) kvs queue !! key = None.
Proof.
  induction queue as [|qE queue IH]; intros kvs Hnone; simpl; [done|].
  apply IH. by rewrite updateTtlEntry_lookup, Hnone.
Qed.

Lemma updateTtl_fold_present (ttlDecr timeNow : Z) (flag : bool) (key : string)
    (queue : list TtlCountdownQueueEntry) :
  ∀ (kvs : gmap string Value) (r : Value),
  kvs !! key = Some r →
  foldl (updateTtlEntry ttlDecr timeNow flag) kvs queue !! key =
  if existsb (aboutToExpire ttlDecr timeNow flag)
       (List.filter (matchesEntry key r) queue)
  then None
  else match last (List.filter (matchesEntry key r) queue) with
       | None => Some r
       | Some qE => Some (set_ttl r (timeLeft timeNow qE - ttlDecr) (ttlVersion r))
       end.
Proof.
  induction queue as [|qE queue IH]; intros kvs r Hr; [done|].
  cbn [foldl List.filter].
  pose proof (updateTtlEntry_lookup ttlDecr timeNow flag kvs qE key) as Hstep.
  rewrite Hr in Hstep.
  destruct (matchesEntry key r qE) eqn:Hm.
  - cbn [existsb]. unfold ttlOutcome in Hstep.
    destruct (aboutToExpire ttlDecr timeNow flag qE) eqn:Hexp; simpl.
    + by apply updateTtl_fold_absent.
    + rewrite (IH _ _ Hstep).
      assert (List.filter (matchesEntry key
                (set_ttl r (timeLeft timeNow qE - ttlDecr) (ttlVersion r))) queue
              = List.filter (matchesEntry key r) queue) as ->.
      { apply List.filter_ext. intros e. apply matchesEntry_set_ttl. }
      destruct (existsb _ _); [done|].
      rewrite last_cons.
      by destruct (last (List.filter (matchesEntry key r) queue)).
  - by apply IH.
Qed.


(** Keys that the publication does not carry stay out of it. *)
Lemma updatePublicationTtl_absent
    (queue : list TtlCountdownQueueEntry) (ttlDecr timeNow : Z)
    (thriftPub : Publication) (flag : bool) (key : string) :
  keyVals thriftPub !! key = None →
  keyVals (updatePublicationTtl queue ttlDecr timeNow thriftPub flag) !! key = None.
Proof. intros Hnone. unfold updatePublicationTtl. simpl. by apply updateTtl_fold_absent. Qed.

(** Only values with a finite ttl get a countdown entry. *)
Lemma updateTtlCountdownQueue_entries (timeNow : Z) (publication : Publication)
    (db : KvStoreDb) (qE : TtlCountdownQueueEntry) :
  qE ∈ ttlCountdownQueue_ (updateTtlCountdownQueue timeNow publication db) →
  qE ∈ ttlCountdownQueue_ db
  ∨ ∃ v, keyVals publication !! qKey qE = Some v
         ∧ ttl v ≠ kTtlInfinity
         ∧ qVersion qE = version v
         ∧ qOriginatorId qE = originatorId v
         ∧ qTtlVersion qE = ttlVersion v
         ∧ expiryTime qE
           = wrap_int64 (timeNow + wrap_int64 (ttl v * 1000000)).
Proof.
  unfold updateTtlCountdownQueue. simpl.
  assert (∀ (kvs : list (string * Value)) (q : list TtlCountdownQueueEntry),
    qE ∈ foldl (fun q kv =>
                  if negb (ttl kv.2 =? kTtlInfinity) then
                    q ++ [mkQueueEntry
                            (wrap_int64
                               (timeNow + wrap_int64 (ttl kv.2 * 1000000)))
                            kv.1 (version kv.2) (ttlVersion kv.2)
                            (originatorId kv.2)]
                  else q) q kvs →
    qE ∈ q ∨ ∃ k v, (k, v) ∈ kvs ∧ ttl v ≠ kTtlInfinity
                    ∧ qE = mkQueueEntry
                             (wrap_int64
                                (timeNow + wrap_int64 (ttl v * 1000000)))
                             k (version v) (ttlVersion v) (originatorId v))
    as Hgen.
  { induction kvs as [|[k v] kvs IH]; intros q; simpl; [by left|].
    intros [Hin|(k' & v' & Hin & Hrest)]%IH.
    - destruct (Z.eqb_spec (ttl v) kTtlInfinity) as [Heq|Hne]; simpl in Hin;
        [by left|].
      apply elem_of_app in Hin as [Hin|Hin%list_elem_of_singleton]; [by left|].
      right. exists k, v. split; [apply list_elem_of_here|done].
    - right. exists k', v'. split; [by apply list_elem_of_further|done]. }
  intros [Hin|(k & v & Hin%elem_of_map_to_list & Hfin & ->)]%Hgen; [by left|].
  right. exists v. simpl. done.
Qed.

End OutboundTtlFacts.



(** ** Initialization barrier *)

Section BarrierFacts.
Context `{Platform}.
Import Barrier.

Lemma allDbSynced_true (dbs : list (string * Barrier.KvStoreDb)) :
  allDbSynced dbs = true ↔ ∀ a db, (a, db) ∈ dbs → initialSyncCompleted_ db = true.
Proof.
  induction dbs as [|[a db] dbs IH]; simpl.
  - split; [|done]. intros _ a db Hin. by apply elem_of_nil in Hin.
  - unfold getInitialSyncedWithPeers.
    destruct (initialSyncCompleted_ db) eqn:Hdb; simpl.
    + rewrite IH. split.
      * intros Hall a' db' [[= -> ->]|Hin]%elem_of_cons; [done|by eapply Hall].
      * intros Hall a' db' Hin. eapply Hall. by apply list_elem_of_further.
    + split; [done|]. intros Hall.
      rewrite <- Hdb. eapply (Hall a). apply list_elem_of_here.
Qed.

Lemma allDbSynced_map (st : KvStore) :
  allDbSynced (map_to_list (kvStoreDb_ st)) = true ↔ allCompleted st.
Proof.
  rewrite allDbSynced_true. unfold allCompleted.
  split; intros Hall a db Hin; eapply Hall; by apply elem_of_map_to_list.
Qed.

Lemma peersSynced_true (peers : list (string * Barrier.KvStorePeer)) :
  peersSynced peers = true ↔
  ∀ p peer, (p, peer) ∈ peers →
            peerState peer = INITIALIZED ∨ 0 < numThriftApiErrors peer.
Proof.
  induction peers as [|[p peer] peers IH]; simpl.
  - split; [|done]. intros _ p peer Hin. by apply elem_of_nil in Hin.
  - destruct (bool_decide (peerState peer = INITIALIZED)) eqn:Hs.
    + apply bool_decide_eq_true in Hs. rewrite IH. split.
      * intros Hall p' peer' [[= -> ->]|Hin]%elem_of_cons; [by left|by eapply Hall].
      * intros Hall p' peer' Hin. eapply Hall. by apply list_elem_of_further.
    + apply bool_decide_eq_false in Hs. rewrite Z.gtb_ltb.
      destruct (Z.ltb_spec 0 (numThriftApiErrors peer)) as [Hpos|Hnone].
      * rewrite IH. split.
        -- intros Hall p' peer' [[= -> ->]|Hin]%elem_of_cons;
             [by right|by eapply Hall].
        -- intros Hall p' peer' Hin. eapply Hall. by apply list_elem_of_further.
      * split; [done|]. intros Hall.
        destruct (Hall p peer (list_elem_of_here _ _)) as [?|?]; [done|lia].
Qed.

Lemma peersSynced_map (db : Barrier.KvStoreDb) :
  peersSynced (map_to_list (thriftPeers_ db)) = true ↔ peersDone db.
Proof.
  rewrite peersSynced_true. unfold peersDone.
  split; intros Hall p peer Hin; eapply Hall; by apply elem_of_map_to_list.
Qed.

Lemma syncedCount_app (q1 q2 : list KvStorePublication) :
  syncedCount (q1 ++ q2) = (syncedCount q1 + syncedCount q2)%nat.
Proof. unfold syncedCount. by rewrite List.filter_app, length_app. Qed.

(** *** The invariant *)

Lemma areaStep_refl (st : KvStore) : areaStep st st.
Proof.
  split_and!; [done| |done].
  intros a db db' Hdb Hdb'. simplify_eq. split; [done|congruence].
Qed.

Lemma sameFlags_refl (st : KvStore) : sameFlags st st.
Proof. split_and!; try done. intros a db db' ? ?. by simplify_eq. Qed.

Lemma sameFlags_trans (st1 st2 st3 : KvStore) :
  sameFlags st1 st2 → sameFlags st2 st3 → sameFlags st1 st3.
Proof.
  intros (Hd1 & Hf1 & Hs1 & Hc1 & Hq1) (Hd2 & Hf2 & Hs2 & Hc2 & Hq2).
  split_and!; [|
    |by rewrite Hs2|by rewrite Hc2|by etrans].
  - intros a. by rewrite Hd2, Hd1.
  - intros a db1 db3 H1 H3.
    assert (is_Some (kvStoreDb_ st2 !! a)) as [db2 H2] by (apply Hd1; eauto).
    by rewrite (Hf2 _ _ _ H2 H3), (Hf1 _ _ _ H1 H2).
Qed.

Lemma sameFlags_set_db (st : KvStore) (a : string) (db db' : Barrier.KvStoreDb) :
  kvStoreDb_ st !! a = Some db →
  initialSyncCompleted_ db' = initialSyncCompleted_ db →
  sameFlags st (set_db st a db').
Proof.
  intros Hdb Hflag. split_and!; simpl; [| |done..].
  - intros x. destruct (decide (x = a)) as [->|Hne].
    + rewrite lookup_insert_eq, Hdb. split; eauto.
    + by rewrite lookup_insert_ne.
  - intros x dbx dbx' Hx Hx'. destruct (decide (x = a)) as [->|Hne].
    + rewrite lookup_insert_eq in Hx'. by simplify_eq.
    + rewrite lookup_insert_ne in Hx' by done. by simplify_eq.
Qed.

Lemma sameFlags_push (st : KvStore) (p : Publication) :
  sameFlags st (push (PublicationMsg p) st).
Proof.
  split_and!; simpl; [done| |done| |by apply prefix_app_r].
  - intros a db db' ? ?. by simplify_eq.
  - rewrite syncedCount_app.
    change (syncedCount [PublicationMsg p]) with 0%nat. lia.
Qed.

Lemma sameFlags_inv (st st' : KvStore) :
  sameFlags st st' → barrierInv st → barrierInv st'.
Proof.
  intros (Hdom & Hflag & Hs & Hc & _) (Hsent & Hall & Hcount).
  assert (allCompleted st' ↔ allCompleted st) as Hiff.
  { unfold allCompleted. split; intros Hcompl x dbx Hx.
    - assert (is_Some (kvStoreDb_ st' !! x)) as [dbx' Hx'] by (apply Hdom; eauto).
      rewrite <- (Hflag _ _ _ Hx Hx'). by eapply Hcompl.
    - assert (is_Some (kvStoreDb_ st !! x)) as [dbx0 Hx0] by (apply Hdom; eauto).
      rewrite (Hflag _ _ _ Hx0 Hx). by eapply Hcompl. }
  assert (kvStoreDb_ st' = ∅ ↔ kvStoreDb_ st = ∅) as Hemp.
  { split; intros Hempty; apply map_eq; intros x; rewrite lookup_empty;
      apply eq_None_not_Some;
      [rewrite <- Hdom|rewrite Hdom]; rewrite Hempty, lookup_empty;
      by intros [? ?]. }
  split_and!.
  - rewrite Hs, Hiff, Hemp. done.
  - rewrite Hs, Hiff, Hemp. done.
  - by rewrite Hc, Hs.
Qed.

Lemma sameFlags_areaStep (st st' : KvStore) : sameFlags st st' → areaStep st st'.
Proof.
  intros (Hdom & Hflag & _ & _ & Hq). split_and!; [done| |done].
  intros a db db' Hdb Hdb'. rewrite (Hflag _ _ _ Hdb Hdb').
  split; [done|congruence].
Qed.

Lemma sameFlags_then_areaStep (st1 st2 st3 : KvStore) :
  sameFlags st1 st2 → areaStep st2 st3 → areaStep st1 st3.
Proof.
  intros (Hd1 & Hf1 & _ & _ & Hq1) (Hd2 & Hf2 & Hq2).
  split_and!; [| |by etrans].
  - intros a. by rewrite Hd2, Hd1.
  - intros a db1 db3 H1 H3.
    assert (is_Some (kvStoreDb_ st2 !! a)) as [db2 H2] by (apply Hd1; eauto).
    rewrite <- (Hf1 _ _ _ H1 H2). by apply (Hf2 a).
Qed.

(** Composition of two steps when the second keeps the peers of areas that
    the first one completed. *)
Lemma areaStep_trans (st1 st2 st3 : KvStore) :
  areaStep st1 st2 →
  (∀ a db2 db3,
     kvStoreDb_ st2 !! a = Some db2 → kvStoreDb_ st3 !! a = Some db3 →
     peersDone db2 → peersDone db3) →
  areaStep st2 st3 → areaStep st1 st3.
Proof.
  intros (Hdom1 & Hfl1 & Hq1) Hkeep (Hdom2 & Hfl2 & Hq2).
  split_and!.
  - intros a. by rewrite Hdom2, Hdom1.
  - intros a db1 db3 H1 H3.
    assert (is_Some (kvStoreDb_ st2 !! a)) as [db2 H2].
    { apply Hdom1. eauto. }
    destruct (Hfl1 _ _ _ H1 H2) as [Hs1 Hn1].
    destruct (Hfl2 _ _ _ H2 H3) as [Hs2 Hn2].
    split; [auto|].
    intros Hf1 Ht3.
    destruct (initialSyncCompleted_ db2) eqn:Hf2; [|auto].
    eapply Hkeep; eauto.
  - by etrans.
Qed.

(** *** [initialKvStoreDbSynced] and [processInitializationEvent] *)

Lemma initialKvStoreDbSynced_dbs (st : KvStore) :
  kvStoreDb_ (initialKvStoreDbSynced st) = kvStoreDb_ st.
Proof.
  unfold initialKvStoreDbSynced.
  destruct (negb (allDbSynced _)); [done|].
  by destruct (negb (initialSyncSignalSent_ st)).
Qed.

Lemma initialKvStoreDbSynced_queue (st : KvStore) :
  kvStoreUpdatesQueue st `prefix_of` kvStoreUpdatesQueue (initialKvStoreDbSynced st).
Proof.
  unfold initialKvStoreDbSynced.
  destruct (negb (allDbSynced _)); [done|].
  destruct (negb (initialSyncSignalSent_ st)); [|done].
  simpl. by apply prefix_app_r.
Qed.

(** The signal is published by [initialKvStoreDbSynced] exactly when every
    area is completed and it has not been published before. *)
Lemma initialKvStoreDbSynced_inv (st : KvStore) :
  kvStoreDb_ st ≠ ∅ →
  (initialSyncSignalSent_ st = true → allCompleted st) →
  syncedCount (kvStoreUpdatesQueue st)
  = (if initialSyncSignalSent_ st then 1 else 0)%nat →
  barrierInv (initialKvStoreDbSynced st).
Proof.
  intros Hne Hsent Hcount. unfold initialKvStoreDbSynced.
  destruct (allDbSynced (map_to_list (kvStoreDb_ st))) eqn:Hall; simpl.
  - apply allDbSynced_map in Hall.
    destruct (initialSyncSignalSent_ st) eqn:Hs; simpl.
    + split_and!; [done..|]. by rewrite Hs.
    + split_and!; simpl; [done..|].
      rewrite syncedCount_app, Hcount. done.
  - assert (¬ allCompleted st) as Hnot.
    { intros Hc%allDbSynced_map. congruence. }
    split_and!; [auto| |done].
    intros Hc. by destruct Hnot.
Qed.

Lemma processInitializationEvent_dbs (a : string) (st : KvStore) :
  kvStoreDb_ (processInitializationEvent a st) =
  match kvStoreDb_ st !! a with
  | Some db =>
      if peersSynced (map_to_list (thriftPeers_ db))
      then <[a := Barrier.mkDb (thriftPeers_ db) true]> (kvStoreDb_ st)
      else kvStoreDb_ st
  | None => kvStoreDb_ st
  end.
Proof.
  unfold processInitializationEvent.
  destruct (kvStoreDb_ st !! a) as [db|]; [|done].
  destruct (peersSynced _); [|done].
  by rewrite initialKvStoreDbSynced_dbs.
Qed.

Lemma processInitializationEvent_inv (a : string) (st : KvStore) :
  barrierInv st → barrierInv (processInitializationEvent a st).
Proof.
  intros (Hsent & Hall & Hcount). unfold processInitializationEvent.
  destruct (kvStoreDb_ st !! a) as [db|] eqn:Hdb; [|done].
  destruct (peersSynced _); [|done].
  apply initialKvStoreDbSynced_inv; simpl; [apply insert_non_empty| |done].
  intros Hs x dbx Hx. simpl in Hx. destruct (decide (x = a)) as [->|Hne].
  - rewrite lookup_insert_eq in Hx. by simplify_eq.
  - rewrite lookup_insert_ne in Hx by done. by eapply (proj1 (Hsent Hs)).
Qed.

Lemma processInitializationEvent_areaStep (a : string) (st : KvStore) :
  areaStep st (processInitializationEvent a st).
Proof.
  split_and!.
  - intros x. rewrite processInitializationEvent_dbs.
    destruct (kvStoreDb_ st !! a) as [db|] eqn:Hdb; [|done].
    destruct (peersSynced _); [|done].
    destruct (decide (x = a)) as [->|Hne].
    + rewrite lookup_insert_eq, Hdb. split; eauto.
    + by rewrite lookup_insert_ne.
  - intros x dbx dbx' Hx. rewrite processInitializationEvent_dbs.
    destruct (kvStoreDb_ st !! a) as [db|] eqn:Hdb;
      [|intros; simplify_eq; split; [done|congruence]].
    destruct (peersSynced _) eqn:Hp;
      [|intros; simplify_eq; split; [done|congruence]].
    destruct (decide (x = a)) as [->|Hne].
    + rewrite lookup_insert_eq. intros [= <-]. simpl. split; [done|].
      intros _ _. by apply peersSynced_map in Hp.
    + rewrite lookup_insert_ne by done. intros. simplify_eq.
      split; [done|congruence].
  - unfold processInitializationEvent.
    destruct (kvStoreDb_ st !! a) as [db|]; [|done].
    destruct (peersSynced _); [|done].
    apply (initialKvStoreDbSynced_queue (set_db st a (Barrier.mkDb (thriftPeers_ db) true))).
Qed.

(** Peers are not touched by the barrier check. *)
Lemma processInitializationEvent_peers (a x : string) (st : KvStore) :
  thriftPeers_ <$> (kvStoreDb_ (processInitializationEvent a st) !! x)
  = thriftPeers_ <$> (kvStoreDb_ st !! x).
Proof.
  rewrite processInitializationEvent_dbs.
  destruct (kvStoreDb_ st !! a) as [db|] eqn:Hdb; [|done].
  destruct (peersSynced _); [|done].
  destruct (decide (x = a)) as [->|Hne].
  - by rewrite lookup_insert_eq, Hdb.
  - by rewrite lookup_insert_ne.
Qed.

(** When the check runs on an area whose peers are all done, the area is
    completed afterwards. *)
Lemma processInitializationEvent_completes (a : string) (st : KvStore)
    (db : Barrier.KvStoreDb) :
  kvStoreDb_ st !! a = Some db →
  peersDone db →
  kvStoreDb_ (processInitializationEvent a st) !! a
  = Some (Barrier.mkDb (thriftPeers_ db) true).
Proof.
  intros Hdb Hdone%peersSynced_map.
  by rewrite processInitializationEvent_dbs, Hdb, Hdone, lookup_insert_eq.
Qed.

(** *** The operations on peers *)

Lemma getAreaDbOrThrow_lookup {Db : Type} (dbs : gmap string Db)
    (areaId a : string) (db : Db) :
  getAreaDbOrThrow dbs areaId = inr (a, db) → dbs !! a = Some db.
Proof.
  unfold getAreaDbOrThrow.
  destruct (dbs !! areaId) as [db0|] eqn:Hlook; [by intros [= <- <-]|].
  destruct (_ && _); [|done].
  destruct (map_to_list dbs) as [|[a0 db0] l] eqn:Hl; [done|].
  intros [= <- <-]. apply elem_of_map_to_list. rewrite Hl. apply list_elem_of_here.
Qed.

Lemma addUpdateKvStorePeers_sameFlags (a : string) (peers : list string)
    (st st' : KvStore) :
  addUpdateKvStorePeers a peers st = inr st' → sameFlags st st'.
Proof.
  unfold addUpdateKvStorePeers.
  destruct (getAreaDbOrThrow (kvStoreDb_ st) a) as [e|[a' db]] eqn:Hget; [done|].
  destruct (is_nil peers); [done|]. intros [= <-].
  eapply sameFlags_set_db; [by eapply getAreaDbOrThrow_lookup|done].
Qed.

Lemma deleteKvStorePeers_sameFlags (a : string) (peers : list string)
    (st st' : KvStore) :
  deleteKvStorePeers a peers st = inr st' → sameFlags st st'.
Proof.
  unfold deleteKvStorePeers.
  destruct (getAreaDbOrThrow (kvStoreDb_ st) a) as [e|[a' db]] eqn:Hget; [done|].
  destruct (is_nil peers); [done|]. intros [= <-].
  eapply sameFlags_set_db; [by eapply getAreaDbOrThrow_lookup|done].
Qed.

Lemma requestThriftPeerSync_flag (ready : list string) :
  ∀ db db' : Barrier.KvStoreDb,
  requestThriftPeerSync ready db = Ok db' →
  initialSyncCompleted_ db' = initialSyncCompleted_ db.
Proof.
  induction ready as [|p ready IH]; intros db db'; simpl.
  - by intros [= <-].
  - destruct (thriftPeers_ db !! p) as [peer|]; [|apply IH].
    destruct (bool_decide (peerState peer = IDLE)) eqn:Hs; [|apply IH].
    apply bool_decide_eq_true in Hs. rewrite Hs. simpl.
    intros Hrest. by rewrite (IH _ _ Hrest).
Qed.

Lemma applyPeerEvent_sameFlags (event : list (string * AreaPeerEvent)) :
  ∀ st : KvStore, sameFlags st (applyPeerEvent event st).1.
Proof.
  induction event as [|[a ev] event IH]; intros st; simpl; [apply sameFlags_refl|].
  destruct (negb (is_nil (peersToAdd ev))).
  - destruct (addUpdateKvStorePeers a (peersToAdd ev) st) as [e|st1] eqn:Hadd;
      [apply sameFlags_refl|].
    pose proof (addUpdateKvStorePeers_sameFlags _ _ _ _ Hadd) as H1.
    destruct (negb (is_nil (peersToDel ev))).
    + destruct (deleteKvStorePeers a (peersToDel ev) st1) as [e|st2] eqn:Hdel;
        [done|].
      pose proof (deleteKvStorePeers_sameFlags _ _ _ _ Hdel) as H2.
      eapply sameFlags_trans; [|apply IH]. by eapply sameFlags_trans.
    + eapply sameFlags_trans; [done|apply IH].
  - destruct (negb (is_nil (peersToDel ev))).
    + destruct (deleteKvStorePeers a (peersToDel ev) st) as [e|st2] eqn:Hdel;
        [apply sameFlags_refl|].
      pose proof (deleteKvStorePeers_sameFlags _ _ _ _ Hdel) as H2.
      eapply sameFlags_trans; [done|apply IH].
    + apply IH.
Qed.

(** *** Areas without peers *)

Lemma completeEmptyArea_props (s : KvStore) (entry : string * Barrier.KvStoreDb) :
  (barrierInv s → barrierInv (completeEmptyArea s entry))
  ∧ areaStep s (completeEmptyArea s entry)
  ∧ ∀ x, thriftPeers_ <$> (kvStoreDb_ (completeEmptyArea s entry) !! x)
         = thriftPeers_ <$> (kvStoreDb_ s !! x).
Proof.
  unfold completeEmptyArea.
  destruct (kvStoreDb_ s !! entry.1) as [db|];
    [|split_and!; [done|apply sameFlags_areaStep, sameFlags_refl|done]].
  destruct (negb _);
    [split_and!; [done|apply sameFlags_areaStep, sameFlags_refl|done]|].
  split_and!.
  - apply processInitializationEvent_inv.
  - apply processInitializationEvent_areaStep.
  - intros x. apply processInitializationEvent_peers.
Qed.

Lemma peersDone_same_peers (db db' : Barrier.KvStoreDb) :
  thriftPeers_ db' = thriftPeers_ db → peersDone db → peersDone db'.
Proof. unfold peersDone. by intros ->. Qed.

Lemma completeEmptyAreas_fold (l : list (string * Barrier.KvStoreDb)) :
  ∀ s : KvStore,
  (barrierInv s → barrierInv (foldl completeEmptyArea s l))
  ∧ areaStep s (foldl completeEmptyArea s l)
  ∧ ∀ x, thriftPeers_ <$> (kvStoreDb_ (foldl completeEmptyArea s l) !! x)
         = thriftPeers_ <$> (kvStoreDb_ s !! x).
Proof.
  induction l as [|entry l IH]; intros s; simpl.
  - split_and!; [done|apply sameFlags_areaStep, sameFlags_refl|done].
  - destruct (completeEmptyArea_props s entry) as (Hinv1 & Hstep1 & Hpeers1).
    destruct (IH (completeEmptyArea s entry)) as (Hinv2 & Hstep2 & Hpeers2).
    split_and!.
    + auto.
    + eapply areaStep_trans; [done| |done].
      intros a db2 db3 H2 H3. apply peersDone_same_peers.
      specialize (Hpeers2 a). rewrite H2, H3 in Hpeers2. by simplify_eq/=.
    + intros x. by rewrite Hpeers2, Hpeers1.
Qed.

Lemma completeEmptyAreas_completes (l : list (string * Barrier.KvStoreDb)) :
  ∀ (s : KvStore) (x : string) (db' : Barrier.KvStoreDb),
  x ∈ l.*1 →
  kvStoreDb_ (foldl completeEmptyArea s l) !! x = Some db' →
  thriftPeers_ db' = ∅ →
  initialSyncCompleted_ db' = true.
Proof.
  induction l as [|entry l IH]; intros s x db' Hin Hdb' Hempty; simpl in *.
  - by apply elem_of_nil in Hin.
  - apply elem_of_cons in Hin as [->|Hin]; [|by eapply IH].
    destruct (completeEmptyAreas_fold l (completeEmptyArea s entry))
      as (_ & (Hdom & Hflags & _) & Hpeers).
    assert (is_Some (kvStoreDb_ (completeEmptyArea s entry) !! entry.1))
      as [db1 Hdb1] by (apply Hdom; eauto).
    destruct (Hflags _ _ _ Hdb1 Hdb') as [Hsticky _]. apply Hsticky.
    specialize (Hpeers entry.1). rewrite Hdb', Hdb1 in Hpeers.
    injection Hpeers as Hpeers. rewrite Hempty in Hpeers.
    unfold completeEmptyArea in Hdb1.
    destruct (kvStoreDb_ s !! entry.1) as [db|] eqn:Hdb; [|congruence].
    destruct (negb (bool_decide (getPeerCnt db = 0%nat))) eqn:Hcnt.
    + exfalso. simplify_eq. apply negb_true_iff, bool_decide_eq_false in Hcnt.
      apply Hcnt. unfold getPeerCnt. by rewrite <- Hpeers, map_size_empty.
    + assert (thriftPeers_ db = ∅) as Hnone.
      { apply negb_false_iff, bool_decide_eq_true in Hcnt.
        by apply map_size_empty_inv. }
      rewrite (processInitializationEvent_completes _ _ db) in Hdb1; [by simplify_eq|done|].
      intros p peer. rewrite Hnone, lookup_empty. done.
Qed.

(** *** Steps and traces *)

Lemma pushes_sameFlags (pushed : list Publication) : ∀ st : KvStore,
  sameFlags st (foldl (fun s p => push (PublicationMsg p) s) st pushed)
  ∧ kvStoreDb_ (foldl (fun s p => push (PublicationMsg p) s) st pushed)
    = kvStoreDb_ st.
Proof.
  induction pushed as [|p pushed IH]; intros st; simpl.
  - split; [apply sameFlags_refl|done].
  - destruct (IH (push (PublicationMsg p) st)) as [Hsame Hdbs].
    split; [|by rewrite Hdbs].
    eapply sameFlags_trans; [apply sameFlags_push|done].
Qed.

(** After a peer transition in area [a], when the area was not completed,
    the barrier check runs. *)
Lemma transition_then_check (st st2 : KvStore) (a : string)
    (db db2 : Barrier.KvStoreDb) (st' : KvStore) :
  sameFlags st st2 →
  kvStoreDb_ st2 !! a = Some db →
  initialSyncCompleted_ db2 = initialSyncCompleted_ db →
  st' = (if negb (initialSyncCompleted_ db2)
         then processInitializationEvent a (set_db st2 a db2)
         else set_db st2 a db2) →
  (barrierInv st → barrierInv st')
  ∧ areaStep st st'
  ∧ ∀ db', kvStoreDb_ st' !! a = Some db' → peersDone db' →
           initialSyncCompleted_ db' = true.
Proof.
  intros Hsame Hdb Hflag ->.
  pose proof (sameFlags_set_db st2 a db db2 Hdb Hflag) as Hset.
  pose proof (sameFlags_trans _ _ _ Hsame Hset) as Hboth.
  destruct (initialSyncCompleted_ db2) eqn:Hdone; simpl.
  - split_and!.
    + by apply sameFlags_inv.
    + by apply sameFlags_areaStep.
    + intros db'. rewrite lookup_insert_eq. by intros [= <-].
  - split_and!.
    + intros Hinv. by apply processInitializationEvent_inv, (sameFlags_inv st).
    + eapply sameFlags_then_areaStep; [done|].
      apply processInitializationEvent_areaStep.
    + intros db'. rewrite processInitializationEvent_dbs. simpl.
      rewrite lookup_insert_eq.
      destruct (peersSynced (map_to_list (thriftPeers_ db2))) eqn:Hp.
      * rewrite lookup_insert_eq. by intros [= <-].
      * rewrite lookup_insert_eq. intros [= <-] Hd%peersSynced_map. congruence.
Qed.

Lemma completeEmptyAreas_unfold (st : KvStore) :
  completeEmptyAreas st = foldl completeEmptyArea st (map_to_list (kvStoreDb_ st)).
Proof. reflexivity. Qed.

Lemma step_inv (e : Event) (st st' : KvStore) :
  step e st = Ok st' →
  (barrierInv st → barrierInv st') ∧ areaStep st st'.
Proof.
  destruct e as [event|a peers|a peers|a ready|a p pushed|a p|pub]; simpl.
  - intros [= <-]. unfold processPeerUpdates.
    pose proof (applyPeerEvent_sameFlags event st) as Hsame.
    destruct (applyPeerEvent event st) as [st1 [err|]]; simpl in Hsame.
    + split; [by apply sameFlags_inv|by apply sameFlags_areaStep].
    + destruct (negb (initialSyncSignalSent_ st1)).
      * rewrite completeEmptyAreas_unfold.
        destruct (completeEmptyAreas_fold (map_to_list (kvStoreDb_ st1)) st1)
          as (Hinv & Hstep & _).
        split; [intros Hi; by apply Hinv, (sameFlags_inv st)|].
        by eapply sameFlags_then_areaStep.
      * split; [by apply sameFlags_inv|by apply sameFlags_areaStep].
  - destruct (addUpdateKvStorePeers a peers st) as [err|st1] eqn:Hadd;
      intros [= <-].
    + split; [done|apply sameFlags_areaStep, sameFlags_refl].
    + apply addUpdateKvStorePeers_sameFlags in Hadd.
      split; [by apply sameFlags_inv|by apply sameFlags_areaStep].
  - destruct (deleteKvStorePeers a peers st) as [err|st1] eqn:Hdel;
      intros [= <-].
    + split; [done|apply sameFlags_areaStep, sameFlags_refl].
    + apply deleteKvStorePeers_sameFlags in Hdel.
      split; [by apply sameFlags_inv|by apply sameFlags_areaStep].
  - destruct (kvStoreDb_ st !! a) as [db|] eqn:Hdb.
    + destruct (requestThriftPeerSync ready db) as [db1|] eqn:Hreq; [|done].
      simpl. intros [= <-].
      pose proof (sameFlags_set_db st a db db1 Hdb
                    (requestThriftPeerSync_flag _ _ _ Hreq)) as Hsame.
      split; [by apply sameFlags_inv|by apply sameFlags_areaStep].
    + intros [= <-]. split; [done|apply sameFlags_areaStep, sameFlags_refl].
  - unfold processThriftSuccess.
    destruct (kvStoreDb_ st !! a) as [db|] eqn:Hdb;
      [|intros [= <-]; split; [done|apply sameFlags_areaStep, sameFlags_refl]].
    destruct (thriftPeers_ db !! p) as [peer|] eqn:Hpeer;
      [|intros [= <-]; split; [done|apply sameFlags_areaStep, sameFlags_refl]].
    destruct (bool_decide (peerState peer = IDLE));
      [intros [= <-]; split; [done|apply sameFlags_areaStep, sameFlags_refl]|].
    destruct (getNextState (Some (peerState peer)) SYNC_RESP_RCVD) as [next|];
      [|done].
    simpl. destruct (pushes_sameFlags pushed st) as [Hsame Hdbs].
    intros Hst'.
    edestruct (transition_then_check st _ a db
                 (Barrier.mkDb (<[p := Barrier.mkPeer next (numThriftApiErrors peer)]>
                                  (thriftPeers_ db))
                    (initialSyncCompleted_ db)) st' Hsame) as (Hinv & Hstep & _);
      [by rewrite Hdbs|done| |by split].
    simpl. destruct (negb (initialSyncCompleted_ db)); by simplify_eq.
  - unfold processThriftFailure.
    destruct (kvStoreDb_ st !! a) as [db|] eqn:Hdb;
      [|intros [= <-]; split; [done|apply sameFlags_areaStep, sameFlags_refl]].
    destruct (thriftPeers_ db !! p) as [peer|] eqn:Hpeer;
      [|intros [= <-]; split; [done|apply sameFlags_areaStep, sameFlags_refl]].
    destruct (getNextState (Some (peerState peer)) THRIFT_API_ERROR) as [next|];
      [|done].
    simpl. intros Hst'.
    edestruct (transition_then_check st st a db
                 (Barrier.mkDb
                    (<[p := Barrier.mkPeer next (numThriftApiErrors peer + 1)]>
                       (thriftPeers_ db))
                    (initialSyncCompleted_ db)) st' (sameFlags_refl st))
      as (Hinv & Hstep & _); [done|done| |by split].
    simpl. destruct (negb (initialSyncCompleted_ db)); by simplify_eq.
  - intros [= <-].
    split; [apply sameFlags_inv|apply sameFlags_areaStep]; apply sameFlags_push.
Qed.

(** The barrier check reaches every area that an event leaves with all its
    peers done. *)
Lemma step_completes (e : Event) (st st' : KvStore) (a : string)
    (db' : Barrier.KvStoreDb) :
  step e st = Ok st' →
  barrierInv st →
  checksArea e a st st' →
  kvStoreDb_ st' !! a = Some db' →
  peersDone db' →
  initialSyncCompleted_ db' = true.
Proof.
  destruct e as [event|a0 peers|a0 peers|a0 ready|a0 p pushed|a0 p|pub]; simpl;
    try done.
  - intros [= <-] Hinv [Hnoerr (db0 & Hdb0 & Hempty)] Hdb' _.
    rewrite Hdb' in Hdb0. injection Hdb0 as <-.
    revert Hdb'. unfold processPeerUpdates.
    pose proof (applyPeerEvent_sameFlags event st) as Hsame.
    destruct (applyPeerEvent event st) as [st1 err]; simpl in *. subst err.
    pose proof (sameFlags_inv _ _ Hsame Hinv) as (Hsent1 & _).
    destruct (initialSyncSignalSent_ st1) eqn:Hs; simpl.
    + intros Hdb'. by eapply (proj1 (Hsent1 eq_refl)).
    + rewrite completeEmptyAreas_unfold. intros Hdb'.
      eapply completeEmptyAreas_completes; [|done..].
      destruct (completeEmptyAreas_fold (map_to_list (kvStoreDb_ st1)) st1)
        as (_ & (Hdom & _) & _).
      assert (is_Some (kvStoreDb_ st1 !! a)) as [db1 Hdb1] by (apply Hdom; eauto).
      apply list_elem_of_fmap. exists (a, db1). split; [done|].
      by apply elem_of_map_to_list.
  - intros Hst' Hinv [-> (db & peer & Hdb & Hpeer & Hidle)].
    unfold processThriftSuccess in Hst'. rewrite Hdb, Hpeer in Hst'.
    rewrite bool_decide_eq_false_2 in Hst' by done.
    destruct (getNextState (Some (peerState peer)) SYNC_RESP_RCVD) as [next|];
      [|done].
    simpl in Hst'. destruct (pushes_sameFlags pushed st) as [Hsame Hdbs].
    edestruct (transition_then_check st _ a db
                 (Barrier.mkDb (<[p := Barrier.mkPeer next (numThriftApiErrors peer)]>
                                  (thriftPeers_ db))
                    (initialSyncCompleted_ db)) st' Hsame) as (_ & _ & Hcompl);
      [by rewrite Hdbs|done| |by apply Hcompl].
    simpl. destruct (negb (initialSyncCompleted_ db)); by simplify_eq.
  - intros Hst' Hinv [-> (db & Hdb & [peer Hpeer])].
    unfold processThriftFailure in Hst'. rewrite Hdb, Hpeer in Hst'.
    destruct (getNextState (Some (peerState peer)) THRIFT_API_ERROR) as [next|];
      [|done].
    simpl in Hst'.
    edestruct (transition_then_check st st a db
                 (Barrier.mkDb
                    (<[p := Barrier.mkPeer next (numThriftApiErrors peer + 1)]>
                       (thriftPeers_ db))
                    (initialSyncCompleted_ db)) st' (sameFlags_refl st))
      as (_ & _ & Hcompl); [done|done| |by apply Hcompl].
    simpl. destruct (negb (initialSyncCompleted_ db)); by simplify_eq.
Qed.

Lemma run_app (evs1 evs2 : list Event) : ∀ st : KvStore,
  run (evs1 ++ evs2) st = st1 ← run evs1 st; run evs2 st1.
Proof.
  induction evs1 as [|e evs1 IH]; intros st; simpl; [done|].
  destruct (step e st) as [st1|]; simpl; [apply IH|done].
Qed.

Lemma run_inv (evs : list Event) : ∀ st st' : KvStore,
  run evs st = Ok st' →
  barrierInv st →
  barrierInv st'
  ∧ (∀ a, is_Some (kvStoreDb_ st' !! a) ↔ is_Some (kvStoreDb_ st !! a))
  ∧ kvStoreUpdatesQueue st `prefix_of` kvStoreUpdatesQueue st'.
Proof.
  induction evs as [|e evs IH]; intros st st'; simpl.
  - by intros [= <-].
  - destruct (step e st) as [st1|] eqn:Hstep; [|done]. simpl.
    intros Hrun Hinv.
    destruct (step_inv _ _ _ Hstep) as (Hinv1 & Hdom1 & _ & Hq1).
    destruct (IH _ _ Hrun (Hinv1 Hinv)) as (Hinv' & Hdom' & Hq').
    split_and!; [done| |by etrans].
    intros a. by rewrite Hdom', Hdom1.
Qed.

(** A completed area was, at the moment its flag was set, in a state where
    every peer was done, unless it was completed from the start. *)
Lemma run_sound (evs : list Event) : ∀ (st st' : KvStore) (a : string)
    (db' : Barrier.KvStoreDb),
  run evs st = Ok st' →
  kvStoreDb_ st' !! a = Some db' →
  initialSyncCompleted_ db' = true →
  (∃ db, kvStoreDb_ st !! a = Some db ∧ initialSyncCompleted_ db = true)
  ∨ ∃ evs1 evs2 st1 db1,
      evs = evs1 ++ evs2 ∧ run evs1 st = Ok st1
      ∧ kvStoreDb_ st1 !! a = Some db1
      ∧ initialSyncCompleted_ db1 = true ∧ peersDone db1.
Proof.
  induction evs as [|e evs IH]; intros st st' a db'; simpl.
  - intros [= <-] Hdb' Hflag. left. eauto.
  - destruct (step e st) as [s1|] eqn:Hstep; [|done]. simpl.
    intros Hrun Hdb' Hflag.
    destruct (IH _ _ _ _ Hrun Hdb' Hflag)
      as [(db1 & Hdb1 & Hf1)
         |(evs1 & evs2 & st1 & db1 & -> & Hrun1 & Hd1 & Hf1 & Hp1)].
    + destruct (step_inv _ _ _ Hstep) as (_ & Hdom & Hflags & _).
      assert (is_Some (kvStoreDb_ st !! a)) as [db0 Hdb0] by (apply Hdom; eauto).
      destruct (initialSyncCompleted_ db0) eqn:Hf0; [left; eauto|].
      right. exists [e], evs, s1, db1. simpl. rewrite Hstep. simpl.
      split_and!; try done.
      by apply (Hflags _ _ _ Hdb0 Hdb1).
    + right. exists (e :: evs1), evs2, st1, db1. simpl. rewrite Hstep. simpl.
      by split_and!.
Qed.

Lemma initial_inv (areaIds : gset string) : barrierInv (initial areaIds).
Proof.
  split_and!; simpl; [done| |done].
  intros Hall Hne. exfalso.
  destruct (map_choose _ Hne) as (a & db & Hdb).
  pose proof (Hall a db Hdb) as Hflag. simpl in Hdb.
  apply lookup_gset_to_gmap_Some in Hdb as [_ <-]. done.
Qed.

(** C8 (amended). Along every run of the store from its initial state:
    KVSTORE_SYNCED is in the outbound queue at most once; it is there
    exactly when the node has areas and each of them has
    [initialSyncCompleted_] set; an area that has the flag set was found,
    when the flag was set, with every peer INITIALIZED or with at least one
    thrift error; the check that sets the flag runs on every full-sync
    response and thrift failure of the area, and on every peer event for the
    areas left without peers; whatever happens later, the queue only grows
    and still holds the signal at most once. *)
Theorem C8_kvstore_synced_barrier
    (areaIds : gset string) (evs : list Event) (st : KvStore) :
  run evs (initial areaIds) = Ok st →
  (syncedCount (kvStoreUpdatesQueue st) ≤ 1)%nat
  ∧ (syncedCount (kvStoreUpdatesQueue st) = 1%nat ↔ areaIds ≠ ∅ ∧ allCompleted st)
  ∧ (∀ a db,
       kvStoreDb_ st !! a = Some db → initialSyncCompleted_ db = true →
       ∃ evs1 evs2 st1 db1,
         evs = evs1 ++ evs2 ∧ run evs1 (initial areaIds) = Ok st1
         ∧ kvStoreDb_ st1 !! a = Some db1
         ∧ initialSyncCompleted_ db1 = true ∧ peersDone db1)
  ∧ (∀ e st' a db',
       step e st = Ok st' → checksArea e a st st' →
       kvStoreDb_ st' !! a = Some db' → peersDone db' →
       initialSyncCompleted_ db' = true)
  ∧ (∀ more st',
       run more st = Ok st' →
       kvStoreUpdatesQueue st `prefix_of` kvStoreUpdatesQueue st'
       ∧ (syncedCount (kvStoreUpdatesQueue st') ≤ 1)%nat).
Proof.
  intros Hrun.
  destruct (run_inv _ _ _ Hrun (initial_inv areaIds))
    as ((Hsent & Hall & Hcount) & Hdom & _).
  assert (kvStoreDb_ st ≠ ∅ ↔ areaIds ≠ ∅) as Hne.
  { assert (dom (kvStoreDb_ st) = areaIds) as <-.
    { apply set_eq. intros a. rewrite elem_of_dom, Hdom. simpl.
      rewrite <- elem_of_dom. by rewrite dom_gset_to_gmap. }
    by rewrite dom_empty_iff_L. }
  split_and!.
  - rewrite Hcount. destruct (initialSyncSignalSent_ st); lia.
  - rewrite Hcount, <- Hne.
    destruct (initialSyncSignalSent_ st) eqn:Hs.
    + split; [intros _; split; by apply Hsent|done].
    + split; [done|]. intros [Hn Hc]. pose proof (Hall Hc Hn). congruence.
  - intros a db Hdb Hflag.
    destruct (run_sound _ _ _ _ _ Hrun Hdb Hflag) as [(db0 & Hdb0 & Hf0)|?];
      [|done].
    simpl in Hdb0. apply lookup_gset_to_gmap_Some in Hdb0 as [_ <-]. done.
  - intros e st' a db' Hstep Hchk Hdb' Hdone.
    by eapply (step_completes e st st').
  - intros more st' Hmore.
    destruct (run_inv _ _ _ Hmore (conj Hsent (conj Hall Hcount)))
      as ((_ & _ & Hcount') & _ & Hq).
    split; [done|].
    rewrite Hcount'. destruct (initialSyncSignalSent_ st'); lia.
Qed.

End BarrierFacts.

(** *** A run on the reference platform *)

(** C8, witness: after the run above the signal has been published once. *)
Lemma C8_witness :
  Barrier.run (H := reference_platform) example_run
    (Barrier.initial example_areas) = Ok example_synced_store
  ∧ (Barrier.syncedCount (Barrier.kvStoreUpdatesQueue example_synced_store) ≤ 1)%nat
  ∧ (Barrier.syncedCount (Barrier.kvStoreUpdatesQueue example_synced_store) = 1%nat
     ↔ example_areas ≠ ∅ ∧ allCompleted example_synced_store).
Proof.
  assert (Barrier.run (H := reference_platform) example_run
            (Barrier.initial example_areas) = Ok example_synced_store) as Hrun.
  { reflexivity. }
  split; [exact Hrun|].
  destruct (C8_kvstore_synced_barrier (H := reference_platform)
              example_areas example_run example_synced_store Hrun)
    as (Hmost & Hiff & _).
  split; [exact Hmost|exact Hiff].
Defined.

(** C8, counterexample to the claim as stated: "peerA" and "peerB" are
    added to the only area and start to sync, "peerA" answers while "peerB"
    is still syncing, and "peerB" is then withdrawn. Every peer of every
    area is now INITIALIZED, but withdrawing a peer runs no check: the area
    is not marked completed and KVSTORE_SYNCED is not published. *)
Lemma C8_counterexample :
  Barrier.run (H := reference_platform) example_run_withdrawn
    (Barrier.initial example_areas) = Ok example_withdrawn_store
  ∧ (∀ a db,
       Barrier.kvStoreDb_ example_withdrawn_store !! a = Some db →
       ∀ p peer, Barrier.thriftPeers_ db !! p = Some peer →
                 Barrier.peerState peer = INITIALIZED)
  ∧ (∀ a db,
       Barrier.kvStoreDb_ example_withdrawn_store !! a = Some db →
       Barrier.initialSyncCompleted_ db = false)
  ∧ Barrier.syncedCount (Barrier.kvStoreUpdatesQueue example_withdrawn_store)
    = 0%nat.
Proof.
  split; [reflexivity|]. split_and!; [| |reflexivity].
  - intros a db Hdb p peer Hp. unfold example_withdrawn_store in Hdb.
    simpl in Hdb. apply lookup_singleton_Some in Hdb as [_ <-]. simpl in Hp.
    by apply lookup_singleton_Some in Hp as [_ <-].
  - intros a db Hdb. unfold example_withdrawn_store in Hdb.
    simpl in Hdb. by apply lookup_singleton_Some in Hdb as [_ <-].
Qed.

(** * Further properties of the code *)

(** ** [KvStore::mergeKeyValues] as a whole *)

Section MergeEngineMore.
Context `{Platform}.

(** Both maps returned by [mergeKeyValues], key by key. *)
Lemma mergeKeyValues_pointwise (filters : option KvStoreFilters)
    (kvStore keyVals kvStore' kvUpdates : gmap string Value) (k : string) :
  mergeKeyValues kvStore keyVals filters = Ok (kvStore', kvUpdates) →
  match keyVals !! k with
  | Some v =>
      ∃ a, mergeAction filters (kvStore !! k) k v = Ok a
           ∧ kvStore' !! k = mergedEntry a (kvStore !! k) v
           ∧ kvUpdates !! k = if announced a then Some v else None
  | None => kvStore' !! k = kvStore !! k ∧ kvUpdates !! k = None
  end.
Proof.
  unfold mergeKeyValues. intros Hloop.
  pose proof (mergeLoop_pointwise filters _ _ _
                (NoDup_fst_map_to_list keyVals) Hloop k) as P.
  simpl in P. rewrite lookup_empty in P.
  destruct (list_find (fun kv => kv.1 = k) (map_to_list keyVals))
    as [[i [k' v]]|] eqn:F.
  - apply list_find_Some in F as (Hi & Hk & _). simpl in Hk. subst k'.
    apply list_elem_of_lookup_2, elem_of_map_to_list in Hi. by rewrite Hi.
  - destruct (keyVals !! k) as [v|] eqn:Hv; [|done].
    exfalso. apply list_find_None in F.
    apply (proj1 (Forall_forall _ _) F (k, v)); [|done].
    by apply elem_of_map_to_list.
Qed.

(** X1. The result of [mergeKeyValues] does not depend on the order in
    which the loop visits the entries of the publication (the iteration order
    of the unordered map): every order gives the same store and the same
    updates, or returns in no order. *)
Theorem X1_mergeKeyValues_any_iteration_order
    (filters : option KvStoreFilters)
    (kvStore keyVals : gmap string Value) (order : list (string * Value)) :
  order ≡ₚ map_to_list keyVals →
  ∀ r, mergeLoop filters (kvStore, ∅) order = Ok r
       ↔ mergeKeyValues kvStore keyVals filters = Ok r.
Proof. apply mergeKeyValues_order_independent. Qed.

Lemma mergeKeyValues_keeps_hashes (filters : option KvStoreFilters)
    (kvStore keyVals kvStore' kvUpdates : gmap string Value) :
  allHaveHash kvStore →
  mergeKeyValues kvStore keyVals filters = Ok (kvStore', kvUpdates) →
  allHaveHash kvStore'.
Proof.
  intros Hinv Hmerge k cur' Hcur'.
  pose proof (mergeKeyValues_lookup _ _ _ _ _ k Hmerge) as Hk.
  destruct (keyVals !! k) as [v|]; [|rewrite Hk in Hcur'; by eapply Hinv].
  destruct Hk as (a & Ha & Hk). rewrite Hk in Hcur'.
  destruct a; simpl in Hcur'.
  - by eapply Hinv.
  - injection Hcur' as <-. unfold storedValue.
    destruct (hash v) eqn:Hh; simpl; [rewrite Hh|]; eauto.
  - destruct (kvStore !! k) as [cur|] eqn:Hcur; [|done].
    injection Hcur' as <-. simpl. by eapply Hinv.
Qed.

(** X2. On a store whose records all carry a payload, [mergeKeyValues]
    returns for every publication that brings no value-bearing update at
    version 0 for a key the store does not know; the store it returns has
    again a payload in every record, and a hash in every record when that
    held before. *)
Theorem X2_mergeKeyValues_returns_and_keeps_invariants
    (filters : option KvStoreFilters) (kvStore keyVals : gmap string Value) :
  allHavePayload kvStore →
  (∀ k v, keyVals !! k = Some v → kvStore !! k = None →
          is_Some (value v) → version v ≠ 0) →
  ∃ kvStore' kvUpdates,
    mergeKeyValues kvStore keyVals filters = Ok (kvStore', kvUpdates)
    ∧ allHavePayload kvStore'
    ∧ (allHaveHash kvStore → allHaveHash kvStore').
Proof.
  intros Hinv Hzero.
  destruct (mergeKeyValues_defined filters kvStore keyVals Hinv Hzero)
    as [[kvStore' kvUpdates] Hmerge].
  exists kvStore', kvUpdates. split_and!; [done| |].
  - by eapply mergeKeyValues_keeps_payloads.
  - intros Hh. by eapply mergeKeyValues_keeps_hashes.
Qed.

End MergeEngineMore.

Lemma tuple_cmp_gt_version (a b : Value) :
  version b < version a → tuple_cmp a b = Gt.
Proof.
  intros Hlt. unfold tuple_cmp.
  by rewrite (proj2 (Z.compare_gt_iff (version a) (version b))) by lia.
Qed.

Lemma tuple_cmp_gt_originator (a b : Value) :
  version a = version b →
  String.compare (originatorId a) (originatorId b) = Gt →
  tuple_cmp a b = Gt.
Proof.
  intros Hv Ho. unfold tuple_cmp. by rewrite Hv, Z.compare_refl, Ho.
Qed.

Lemma tuple_cmp_gt_payload (a b : Value) :
  version a = version b →
  originatorId a = originatorId b →
  payload_cmp (value a) (value b) = Gt →
  tuple_cmp a b = Gt.
Proof.
  intros Hv Ho Hp. unfold tuple_cmp.
  by rewrite Hv, Z.compare_refl, Ho, string_compare_refl.
Qed.

Section MergeVerdict.
Context `{Platform}.

Lemma mergeAction_verdict (filters : option KvStoreFilters)
    (it : option Value) (key : string) (v : Value) (a : MergeAction) :
  mergeAction filters it key v = Ok a → verdict filters it key v a.
Proof.
  destruct (mergeAction_cases filters key v) as [Hrej|[Hf Ht]].
  { rewrite (mergeAction_rejected _ _ _ _ Hrej). intros [= <-]. simpl. tauto. }
  destruct it as [cur|].
  - rewrite (mergeAction_known _ _ _ _ Hf Ht).
    destruct (Z.compare_spec (version v) (version cur)) as [Hv|Hv|Hv].
    + destruct (value v) as [p|] eqn:Hp.
      * destruct (String.compare (originatorId v) (originatorId cur)) eqn:Ho.
        -- apply string_compare_eq in Ho.
           destruct (value cur) as [q|] eqn:Hq; [|done].
           destruct (String.compare p q) eqn:Hpq.
           ++ apply string_compare_eq in Hpq. subst q.
              destruct (Z.gtb_spec (ttlVersion v) (ttlVersion cur)) as [Hg|Hg];
                intros [= <-]; simpl.
              ** split_and!; [done..|]. exists cur. split_and!; auto.
                 right. congruence.
              ** right. right. right. left. split; [|done].
                 apply tuple_cmp_eq. by rewrite Hp, Hq.
           ++ intros [= <-]. simpl. right. right. left.
              apply tuple_cmp_gt_payload; [done..|]. rewrite Hp, Hq. simpl.
              by apply string_compare_lt_gt.
           ++ intros [= <-]. simpl. split_and!; [done|done|by rewrite Hp; eauto|].
              apply tuple_cmp_gt_payload; [done..|]. by rewrite Hp, Hq.
        -- intros [= <-]. simpl. right. right. left.
           apply tuple_cmp_gt_originator; [done|]. by apply string_compare_lt_gt.
        -- intros [= <-]. simpl. split_and!; [done|done|by rewrite Hp; eauto|].
           by apply tuple_cmp_gt_originator.
      * destruct (decide (originatorId v = originatorId cur)) as [Ho|Ho].
        -- rewrite bool_decide_eq_true_2 by done. simpl.
           destruct (Z.gtb_spec (ttlVersion v) (ttlVersion cur)) as [Hg|Hg];
             intros [= <-]; simpl.
           ++ split_and!; [done..|]. exists cur. split_and!; auto.
           ++ do 4 right. split; [done|]. right. auto.
        -- rewrite bool_decide_eq_false_2 by done. simpl.
           intros [= <-]. simpl. do 4 right. split; [done|]. right. auto.
    + intros [= <-]. simpl. right. right. left. by apply tuple_cmp_gt_version.
    + destruct (value v) as [p|] eqn:Hp; intros [= <-]; simpl.
      * split_and!; [done|done|by rewrite Hp; eauto|]. by apply tuple_cmp_gt_version.
      * do 4 right. split; [done|]. by left.
  - rewrite (mergeAction_unknown _ _ _ Hf Ht).
    destruct (Z.compare_spec (version v) 0) as [Hv|Hv|Hv].
    + destruct (value v) as [p|] eqn:Hp; [done|].
      intros [= <-]. simpl. auto.
    + intros [= <-]. simpl. auto.
    + destruct (value v) as [p|] eqn:Hp; intros [= <-]; simpl.
      * split_and!; [done|done|by rewrite Hp; eauto|done].
      * auto.
Qed.

End MergeVerdict.

Section MergeEngineOutcome.
Context `{Platform}.

Lemma storedValue_fields (v : Value) :
  version (storedValue v) = version v
  ∧ originatorId (storedValue v) = originatorId v
  ∧ value (storedValue v) = value v
  ∧ ttl (storedValue v) = ttl v
  ∧ ttlVersion (storedValue v) = ttlVersion v.
Proof. unfold storedValue. by destruct (hash v). Qed.

Lemma mergeKeyValues_updates_changes
    (filters : option KvStoreFilters)
    (kvStore keyVals kvStore' kvUpdates : gmap string Value) (k : string) :
  mergeKeyValues kvStore keyVals filters = Ok (kvStore', kvUpdates) →
  match kvUpdates !! k with
  | None => kvStore' !! k = kvStore !! k
  | Some v =>
      keyVals !! k = Some v
      ∧ kvStore' !! k ≠ kvStore !! k
      ∧ ∃ c', kvStore' !! k = Some c'
              ∧ version c' = version v
              ∧ originatorId c' = originatorId v
              ∧ ttl c' = ttl v
              ∧ ttlVersion c' = ttlVersion v
              ∧ (is_Some (value v) → value c' = value v)
  end.
Proof.
  intros Hmerge.
  pose proof (mergeKeyValues_pointwise _ _ _ _ _ k Hmerge) as P.
  destruct (keyVals !! k) as [v|] eqn:Hkv.
  2: { destruct P as [-> ->]. done. }
  destruct P as (a & Ha & Hs & ->).
  pose proof (mergeAction_verdict _ _ _ _ _ Ha) as V.
  destruct (storedValue_fields v) as (Sv & So & Sp & St & Stv).
  destruct a; simpl in *; [done| |].
  - destruct V as (_ & _ & _ & V).
    split; [done|]. rewrite Hs. split.
    + destruct (kvStore !! k) as [cur|]; [|done].
      intros [= Heq]. rewrite <- Heq in V.
      assert (tuple_cmp v (storedValue v) = Eq) as E by by apply tuple_cmp_eq.
      congruence.
    + exists (storedValue v). split_and!; done.
  - destruct V as (_ & _ & cur & Hcur & Hv & Ho & Hlt & Hp).
    split; [done|]. rewrite Hs, Hcur. simpl. split.
    + intros [= Heq]. rewrite <- Heq in Hlt. simpl in Hlt. lia.
    + eexists. split; [done|]. simpl. split_and!; try done.
      intros [p Hsome]. destruct Hp as [Hp|Hp]; congruence.
Qed.

(** X3. The updates returned by [mergeKeyValues] are exactly the changes of
    the store: a key without an update keeps its entry; a key with an update
    carries the value of the publication, its entry has changed, and the new
    entry has the version, originator, ttl and ttl version of that value
    (and its payload, when the value has one). *)
Theorem X3_mergeKeyValues_updates_are_the_changes
    (filters : option KvStoreFilters)
    (kvStore keyVals kvStore' kvUpdates : gmap string Value) (k : string) :
  mergeKeyValues kvStore keyVals filters = Ok (kvStore', kvUpdates) →
  match kvUpdates !! k with
  | None => kvStore' !! k = kvStore !! k
  | Some v =>
      keyVals !! k = Some v
      ∧ kvStore' !! k ≠ kvStore !! k
      ∧ ∃ c', kvStore' !! k = Some c'
              ∧ version c' = version v
              ∧ originatorId c' = originatorId v
              ∧ ttl c' = ttl v
              ∧ ttlVersion c' = ttlVersion v
              ∧ (is_Some (value v) → value c' = value v)
  end.
Proof. apply mergeKeyValues_updates_changes. Qed.

(** Once merged, a value has nothing more to give: the loop body decides
    for no update on the entry that it has just written. *)
Lemma mergeAction_settled (filters : option KvStoreFilters)
    (it : option Value) (key : string) (v : Value) (a : MergeAction) :
  mergeAction filters it key v = Ok a →
  mergeAction filters (mergedEntry a it v) key v = Ok NoUpdate.
Proof.
  intros Ha. pose proof (mergeAction_verdict _ _ _ _ _ Ha) as V.
  destruct (storedValue_fields v) as (Sv & So & Sp & St & Stv).
  destruct a; simpl in *; [done| |].
  - destruct V as (Hf & Ht & [p Hp] & _).
    rewrite (mergeAction_known _ _ _ _ Hf Ht).
    rewrite Sv, So, Sp, Stv, Z.compare_refl, Hp, !string_compare_refl.
    by rewrite Z.gtb_ltb, Z.ltb_irrefl.
  - destruct V as (Hf & Ht & cur & -> & Hv & Ho & Hlt & Hp). simpl.
    rewrite (mergeAction_known _ _ _ _ Hf Ht). simpl.
    rewrite Hv, Z.compare_refl, Ho, string_compare_refl.
    rewrite Z.gtb_ltb, Z.ltb_irrefl.
    destruct (value v) as [p|] eqn:Hvp.
    + destruct Hp as [Hp|Hp]; [done|]. rewrite <- Hp.
      by rewrite string_compare_refl.
    + by rewrite andb_false_r.
Qed.

(** X4. Merging is idempotent: when a publication has been merged, merging
    the same publication again returns no update and leaves the store as it
    is. *)
Theorem X4_mergeKeyValues_idempotent
    (filters : option KvStoreFilters)
    (kvStore keyVals kvStore' kvUpdates : gmap string Value) :
  mergeKeyValues kvStore keyVals filters = Ok (kvStore', kvUpdates) →
  mergeKeyValues kvStore' keyVals filters = Ok (kvStore', ∅).
Proof.
  intros Hmerge.
  assert (∀ k v, keyVals !! k = Some v →
                 mergeAction filters (kvStore' !! k) k v = Ok NoUpdate) as Hno.
  { intros k v Hkv.
    pose proof (mergeKeyValues_pointwise _ _ _ _ _ k Hmerge) as P.
    rewrite Hkv in P. destruct P as (a & Ha & -> & _).
    by apply mergeAction_settled. }
  destruct (mergeLoop_defined filters (map_to_list keyVals) (kvStore', ∅))
    as [[s2 u2] Hloop].
  { apply NoDup_fst_map_to_list. }
  { intros k v Hin%elem_of_map_to_list. simpl. eauto. }
  unfold mergeKeyValues at 1. rewrite Hloop. f_equal.
  assert (mergeKeyValues kvStore' keyVals filters = Ok (s2, u2)) as Hm2 by done.
  f_equal; apply map_eq; intros k;
    pose proof (mergeKeyValues_pointwise _ _ _ _ _ k Hm2) as P;
    destruct (keyVals !! k) as [v|] eqn:Hkv.
  - destruct P as (a & Ha & -> & _). rewrite (Hno _ _ Hkv) in Ha.
    by injection Ha as <-.
  - by destruct P as [-> _].
  - destruct P as (a & Ha & _ & ->). rewrite (Hno _ _ Hkv) in Ha.
    injection Ha as <-. by rewrite lookup_empty.
  - destruct P as [_ ->]. by rewrite lookup_empty.
Qed.

Lemma mergeKeyValues_dominates_incoming
    (filters : option KvStoreFilters)
    (kvStore keyVals kvStore' kvUpdates : gmap string Value)
    (k : string) (v : Value) :
  mergeKeyValues kvStore keyVals filters = Ok (kvStore', kvUpdates) →
  keyVals !! k = Some v →
  passesFilter filters k v = true →
  validTtl v = true →
  is_Some (value v) →
  (kvStore !! k = None → 0 < version v) →
  ∃ c', kvStore' !! k = Some c' ∧ rank_le v c'.
Proof.
  intros Hmerge Hkv Hf Ht [p Hp] Hpos.
  pose proof (mergeKeyValues_pointwise _ _ _ _ _ k Hmerge) as P.
  rewrite Hkv in P. destruct P as (a & Ha & Hs & _).
  pose proof (mergeAction_verdict _ _ _ _ _ Ha) as V.
  destruct (storedValue_fields v) as (Sv & So & Sp & St & Stv).
  rewrite Hs. destruct a; simpl in *.
  - destruct V as [V|[V|V]]; [congruence..|].
    destruct (kvStore !! k) as [cur|].
    + exists cur. split; [done|].
      destruct V as [V|[V|[V _]]]; [by left|by right|congruence].
    + destruct V as [V|V]; [|congruence]. specialize (Hpos eq_refl). lia.
  - exists (storedValue v). split; [done|]. right.
    split; [by apply tuple_cmp_eq|lia].
  - destruct V as (_ & _ & cur & -> & Hv & Ho & Hlt & Hpc). simpl.
    eexists. split; [done|]. right. simpl. split; [|lia].
    apply tuple_cmp_eq. simpl. destruct Hpc as [Hpc|Hpc]; [congruence|done].
Qed.

(** X5. After a merge the store is at least as new as what came in: for a
    value with a payload that passes the filter and the ttl test (of version
    1 or more, when the store does not know the key), the entry found under
    the key afterwards ranks at or above the incoming value. *)
Theorem X5_mergeKeyValues_store_dominates_incoming
    (filters : option KvStoreFilters)
    (kvStore keyVals kvStore' kvUpdates : gmap string Value)
    (k : string) (v : Value) :
  mergeKeyValues kvStore keyVals filters = Ok (kvStore', kvUpdates) →
  keyVals !! k = Some v →
  passesFilter filters k v = true →
  validTtl v = true →
  is_Some (value v) →
  (kvStore !! k = None → 0 < version v) →
  ∃ c', kvStore' !! k = Some c' ∧ rank_le v c'.
Proof. apply mergeKeyValues_dominates_incoming. Qed.

End MergeEngineOutcome.

(** X1, witness: the two entries of a publication visited in the other
    order. *)
Lemma X1_witness :
  example_two_keys_order ≡ₚ map_to_list example_two_keys
  ∧ ∀ r, mergeLoop (H := reference_platform) None (example_store, ∅)
           example_two_keys_order = Ok r
         ↔ mergeKeyValues (H := reference_platform) example_store
             example_two_keys None = Ok r.
Proof.
  assert (example_two_keys_order ≡ₚ map_to_list example_two_keys) as Hperm.
  { unfold example_two_keys_order. apply reverse_Permutation. }
  split; [exact Hperm|].
  exact (X1_mergeKeyValues_any_iteration_order (H := reference_platform) None
           example_store example_two_keys example_two_keys_order Hperm).
Defined.

Lemma example_store_lookup (k : string) (cur : Value) :
  example_store !! k = Some cur → k = "k"%string ∧ cur = example_current.
Proof.
  unfold example_store. intros [<- <-]%lookup_singleton_Some. done.
Qed.

(** X2, witness: a newer value for the key of a one-record store. *)
Lemma X2_witness :
  ∃ kvStore' kvUpdates,
    mergeKeyValues (H := reference_platform) example_store
      example_publication None = Ok (kvStore', kvUpdates)
    ∧ allHavePayload kvStore'
    ∧ (allHaveHash example_store → allHaveHash kvStore').
Proof.
  apply (X2_mergeKeyValues_returns_and_keeps_invariants
           (H := reference_platform) None example_store example_publication).
  - intros k cur [-> ->]%example_store_lookup. simpl. eauto.
  - intros k v Hkv Hnone. unfold example_publication in Hkv.
    apply lookup_singleton_Some in Hkv as [<- <-]. by vm_compute in Hnone.
Defined.

(** X3, witness: the update of the key and the entry that it leaves. *)
Lemma X3_witness :
  match example_publication !! "k"%string with
  | None => example_merged !! "k"%string = example_store !! "k"%string
  | Some v =>
      example_publication !! "k"%string = Some v
      ∧ example_merged !! "k"%string ≠ example_store !! "k"%string
      ∧ ∃ c', example_merged !! "k"%string = Some c'
              ∧ version c' = version v
              ∧ originatorId c' = originatorId v
              ∧ ttl c' = ttl v
              ∧ ttlVersion c' = ttlVersion v
              ∧ (is_Some (value v) → value c' = value v)
  end.
Proof.
  apply (X3_mergeKeyValues_updates_are_the_changes (H := reference_platform)
           None example_store example_publication example_merged
           example_publication "k").
  reflexivity.
Defined.

(** X4, witness: the same publication merged a second time. *)
Lemma X4_witness :
  mergeKeyValues (H := reference_platform) example_merged example_publication
    None = Ok (example_merged, ∅).
Proof.
  apply (X4_mergeKeyValues_idempotent (H := reference_platform) None
           example_store example_publication example_merged
           example_publication).
  reflexivity.
Defined.

(** X5, witness: the merged entry ranks at or above the value that came
    in. *)
Lemma X5_witness :
  ∃ c', example_merged !! "k"%string = Some c' ∧ rank_le example_newer c'.
Proof.
  apply (X5_mergeKeyValues_store_dominates_incoming (H := reference_platform)
           None example_store example_publication example_merged
           example_publication "k" example_newer).
  - reflexivity.
  - reflexivity.
  - reflexivity.
  - reflexivity.
  - simpl. eauto.
  - discriminate.
Defined.

(** ** Dumps and the three-way sync *)

Lemma collect_lookup (f : string → Value → bool) (g : Value → Value)
    (m : gmap string Value) (k : string) :
  foldl (fun kvs kv => if negb (f kv.1 kv.2) then kvs else <[kv.1 := g kv.2]> kvs)
        (∅ : gmap string Value) (map_to_list m) !! k
  = match m !! k with
    | Some v => if f k v then Some (g v) else None
    | None => None
    end.
Proof.
  assert (∀ (l : list (string * Value)) (acc : gmap string Value),
    NoDup l.*1 →
    foldl (fun kvs kv => if negb (f kv.1 kv.2) then kvs else <[kv.1 := g kv.2]> kvs)
          acc l !! k
    = match (list_to_map l : gmap string Value) !! k with
      | Some v => if f k v then Some (g v) else acc !! k
      | None => acc !! k
      end) as Hgen.
  { induction l as [|[k1 v1] l IH]; intros acc Hnd; simpl; [done|].
    apply NoDup_cons in Hnd as [Hnotin Hnd].
    rewrite (IH _ Hnd).
    destruct (decide (k1 = k)) as [->|Hne].
    - rewrite lookup_insert_eq.
      rewrite (not_elem_of_list_to_map_1 l k Hnotin).
      destruct (f k v1); simpl; [by rewrite lookup_insert_eq|done].
    - rewrite lookup_insert_ne by done.
      assert ((if negb (f k1 v1) then acc else <[k1 := g v1]> acc) !! k
              = acc !! k) as Hacc.
      { destruct (f k1 v1); simpl; [by rewrite lookup_insert_ne|done]. }
      simpl in *. by rewrite Hacc. }
  rewrite (Hgen _ _ (NoDup_fst_map_to_list m)), list_to_map_to_list.
  rewrite lookup_empty. by destruct (m !! k) as [v|]; [destruct (f k v)|].
Qed.

(** X6. [getKeyVals] answers with exactly the requested keys that the
    store holds, each with its stored value; a requested key that the store
    does not hold is left out without an error, and the publication names the
    area of the database. *)
Theorem X6_getKeyVals_returns_the_known_keys
    (area_ : string) (kvStore_ : gmap string Value) (keys : list string) :
  (∀ k, keyVals (getKeyVals area_ kvStore_ keys) !! k =
        if bool_decide (k ∈ keys) then kvStore_ !! k else None)
  ∧ area (getKeyVals area_ kvStore_ keys) = area_
  ∧ expiredKeys (getKeyVals area_ kvStore_ keys) = [].
Proof.
  split; [|done]. intros k. unfold getKeyVals. simpl.
  assert (∀ (l : list string) (acc : gmap string Value),
    foldl (fun kvs key => match kvStore_ !! key with
                          | Some v => <[key := v]> kvs
                          | None => kvs
                          end) acc l !! k
    = if bool_decide (k ∈ l) then
        match kvStore_ !! k with Some v => Some v | None => acc !! k end
      else acc !! k) as Hgen.
  { induction l as [|k1 l IH]; intros acc; simpl; [done|].
    rewrite IH.
    destruct (decide (k1 = k)) as [->|Hne].
    - rewrite (bool_decide_eq_true_2 (k ∈ k :: l)) by apply list_elem_of_here.
      destruct (kvStore_ !! k) as [v|] eqn:Hv.
      + rewrite lookup_insert_eq. by destruct (bool_decide _).
      + by destruct (bool_decide _).
    - assert (bool_decide (k ∈ k1 :: l) = bool_decide (k ∈ l)) as ->.
      { apply bool_decide_ext. rewrite elem_of_cons.
        split; [intros [Heq|Hin]; [congruence|done]|auto]. }
      destruct (kvStore_ !! k1) as [v1|]; [|done].
      by rewrite lookup_insert_ne. }
  rewrite Hgen, lookup_empty.
  destruct (bool_decide _); [|done]. by destruct (kvStore_ !! k).
Qed.

Lemma dumpHashWithFilters_lookup (area_ : string) (kvStore_ : gmap string Value)
    (kvFilters : KvStoreFilters) (k : string) :
  keyVals (dumpHashWithFilters area_ kvStore_ kvFilters) !! k =
  match kvStore_ !! k with
  | Some v => if keyMatch kvFilters k v OR then Some (hashOnly v) else None
  | None => None
  end.
Proof.
  unfold dumpHashWithFilters. simpl.
  apply (collect_lookup (fun k v => keyMatch kvFilters k v OR) hashOnly).
Qed.

(** X7. The hash dump holds one record for every stored key that matches
    the filter and for no other key; the record never has a payload and has
    the version, originator, hash, ttl and ttl version of the stored one. *)
Theorem X7_dumpHashWithFilters_strips_payloads
    (area_ : string) (kvStore_ : gmap string Value)
    (kvFilters : KvStoreFilters) (k : string) :
  match keyVals (dumpHashWithFilters area_ kvStore_ kvFilters) !! k with
  | Some h =>
      ∃ v, kvStore_ !! k = Some v
           ∧ keyMatch kvFilters k v OR = true
           ∧ value h = None
           ∧ version h = version v ∧ originatorId h = originatorId v
           ∧ hash h = hash v ∧ ttl h = ttl v ∧ ttlVersion h = ttlVersion v
  | None =>
      ∀ v, kvStore_ !! k = Some v → keyMatch kvFilters k v OR = false
  end.
Proof.
  rewrite dumpHashWithFilters_lookup.
  destruct (kvStore_ !! k) as [v|]; [|done].
  destruct (keyMatch kvFilters k v OR) eqn:Hm.
  - exists v. by split_and!.
  - intros v' [= <-]. done.
Qed.

Lemma keyMatchAll_keyMatchAny (f : KvStoreFilters) (key : string) (v : Value) :
  keyMatchAll f key v = true → keyMatchAny f key v = true.
Proof.
  unfold keyMatchAll, keyMatchAny.
  destruct (is_nil (keyPrefixList_ f)) eqn:Hp,
           (set_is_empty (originatorIds_ f)) eqn:Ho; simpl; try done.
  - by destruct (bool_decide _).
  - by destruct (keyPrefixMatch _ _).
  - by destruct (keyPrefixMatch _ _).
Qed.

Lemma dumpAllWithFilters_lookup (area_ : string) (kvStore_ : gmap string Value)
    (kvFilters : KvStoreFilters) (oper : FilterOperator) (k : string) :
  keyVals (dumpAllWithFilters area_ kvStore_ kvFilters oper) !! k =
  match kvStore_ !! k with
  | Some v => if keyMatch kvFilters k v oper then Some v else None
  | None => None
  end.
Proof.
  unfold dumpAllWithFilters. destruct oper; simpl.
  - apply (collect_lookup (fun k v => keyMatch kvFilters k v OR) (fun v => v)).
  - apply (collect_lookup (fun k v => keyMatchAll kvFilters k v) (fun v => v)).
Qed.

(** X8. A dump holds exactly the stored records that match the filter
    under the given operator; what the AND dump returns the OR dump returns
    too, and neither returns a record that is not in the store. *)
Theorem X8_dumpAllWithFilters_and_within_or
    (area_ : string) (kvStore_ : gmap string Value) (kvFilters : KvStoreFilters) :
  (∀ oper k, keyVals (dumpAllWithFilters area_ kvStore_ kvFilters oper) !! k =
             match kvStore_ !! k with
             | Some v => if keyMatch kvFilters k v oper then Some v else None
             | None => None
             end)
  ∧ keyVals (dumpAllWithFilters area_ kvStore_ kvFilters AND)
    ⊆ keyVals (dumpAllWithFilters area_ kvStore_ kvFilters OR)
  ∧ keyVals (dumpAllWithFilters area_ kvStore_ kvFilters OR) ⊆ kvStore_.
Proof.
  split; [intros oper k; apply dumpAllWithFilters_lookup|].
  split; apply map_subseteq_spec; intros k v;
    rewrite !dumpAllWithFilters_lookup;
    destruct (kvStore_ !! k) as [w|]; try done; simpl.
  - destruct (keyMatchAll kvFilters k w) eqn:Hall; [|done].
    by rewrite (keyMatchAll_keyMatchAny _ _ _ Hall).
  - by destruct (keyMatchAny kvFilters k w).
Qed.

Section FullSyncMore.
Context `{Platform}.

Lemma dumpDifference_parts (area_ : string) (myKeyVal reqKeyVal : gmap string Value) :
  (∀ k, keyVals (dumpDifference area_ myKeyVal reqKeyVal) !! k =
        if sentBack myKeyVal reqKeyVal k then myKeyVal !! k else None)
  ∧ tobeUpdatedKeys (dumpDifference area_ myKeyVal reqKeyVal) =
    Some (List.filter (askedFor myKeyVal reqKeyVal)
            (elements (dom myKeyVal ∪ dom reqKeyVal))).
Proof.
  unfold dumpDifference.
  pose proof (dumpDifference_fold myKeyVal reqKeyVal
                (elements (dom myKeyVal ∪ dom reqKeyVal)) (∅, [])) as Hfold.
  cbv zeta in Hfold.
  destruct (foldl _ _ _) as [kvs tobe]. simpl in *.
  destruct Hfold as [Hkv ->].
  split; [|done]. intros k.
  rewrite Hkv, lookup_empty. unfold sentBack.
  destruct (myKeyVal !! k) as [myVal|] eqn:Hmy.
  - rewrite bool_decide_eq_true_2; [done|].
    rewrite elem_of_elements, elem_of_union, !elem_of_dom. eauto.
  - by rewrite andb_false_r.
Qed.

Lemma compareValues_hashOnly_self (v : Value) :
  is_Some (hash v) → compareValues v (hashOnly v) = 0.
Proof.
  intros [h Hh]. unfold compareValues. simpl.
  rewrite Z.eqb_refl. simpl.
  rewrite bool_decide_eq_true_2 by done. simpl.
  by rewrite Hh, !Z.eqb_refl.
Qed.

Lemma filter_nil_of_false {A : Type} (f : A → bool) (l : list A) :
  (∀ x, x ∈ l → f x = false) → List.filter f l = [].
Proof.
  induction l as [|x l IH]; intros Hall; simpl; [done|].
  rewrite (Hall x (list_elem_of_here _ _)).
  apply IH. intros y Hy. apply Hall. by apply list_elem_of_further.
Qed.

(** X9. A store has no difference with its own hash dump: when every
    record carries a hash, the response that [dumpDifference] builds against
    the full hash dump of the same store sends no record back and asks for
    no key. *)
Theorem X9_dumpDifference_against_own_hashes
    (area_ area' : string) (kvStore_ : gmap string Value) :
  allHaveHash kvStore_ →
  keyVals (dumpDifference area_ kvStore_
             (keyVals (dumpHashWithFilters area' kvStore_ matchEverything))) = ∅
  ∧ tobeUpdatedKeys (dumpDifference area_ kvStore_
             (keyVals (dumpHashWithFilters area' kvStore_ matchEverything)))
    = Some [].
Proof.
  intros Hhash.
  set (req := keyVals (dumpHashWithFilters area' kvStore_ matchEverything)).
  assert (∀ k, req !! k = hashOnly <$> kvStore_ !! k) as Hreq.
  { intros k. unfold req. rewrite dumpHashWithFilters_lookup.
    by destruct (kvStore_ !! k). }
  destruct (dumpDifference_parts area_ kvStore_ req) as [Hkv ->].
  split.
  - apply map_eq. intros k. rewrite Hkv, lookup_empty.
    unfold sentBack. rewrite Hreq.
    destruct (kvStore_ !! k) as [v|] eqn:Hv; simpl; [|done].
    by rewrite (compareValues_hashOnly_self v) by (by eapply Hhash).
  - f_equal. apply filter_nil_of_false. intros k Hk.
    apply elem_of_elements, elem_of_union in Hk.
    rewrite !elem_of_dom, Hreq in Hk.
    unfold askedFor. rewrite Hreq.
    destruct (kvStore_ !! k) as [v|] eqn:Hv; simpl.
    + by rewrite (compareValues_hashOnly_self v) by (by eapply Hhash).
    + destruct Hk as [[? Hk]|[? Hk]]; done.
Qed.

(** X11. [compareValues] is antisymmetric in its sign: swapping the two
    values flips the sign of the answer, except when the answer is
    "unknown" (-2) in both directions. *)
Theorem X11_compareValues_antisymmetric (v1 v2 : Value) :
  Z.sgn (compareValues v1 v2) = - Z.sgn (compareValues v2 v1)
  ∨ (compareValues v1 v2 = -2 ∧ compareValues v2 v1 = -2).
Proof.
  unfold compareValues.
  destruct (Z.eqb_spec (version v1) (version v2)) as [Hv|Hv];
    destruct (Z.eqb_spec (version v2) (version v1)) as [Hv'|Hv'];
    try congruence; simpl.
  2: { left. rewrite !Z.gtb_ltb.
       destruct (Z.ltb_spec (version v2) (version v1)),
                (Z.ltb_spec (version v1) (version v2)); simpl; lia. }
  destruct (decide (originatorId v1 = originatorId v2)) as [Ho|Ho].
  - rewrite !bool_decide_eq_true_2 by done. simpl.
    destruct (hash v1) as [h1|], (hash v2) as [h2|]; simpl.
    + rewrite (Z.eqb_sym h2 h1). destruct (h1 =? h2).
      * rewrite (Z.eqb_sym (ttlVersion v2)).
        destruct (Z.eqb_spec (ttlVersion v1) (ttlVersion v2)); simpl; [by left|].
        left. rewrite !Z.gtb_ltb.
        destruct (Z.ltb_spec (ttlVersion v2) (ttlVersion v1)),
                 (Z.ltb_spec (ttlVersion v1) (ttlVersion v2)); simpl; lia.
      * destruct (value v1) as [p1|], (value v2) as [p2|]; auto.
        left. pose proof (str_compare_sign p1 p2) as S1.
        pose proof (str_compare_sign p2 p1) as S2.
        rewrite (String.compare_antisym p2 p1) in S2.
        destruct (String.compare p1 p2); simpl in S1, S2; lia.
    + destruct (value v1) as [p1|], (value v2) as [p2|]; auto.
      left. pose proof (str_compare_sign p1 p2) as S1.
      pose proof (str_compare_sign p2 p1) as S2.
      rewrite (String.compare_antisym p2 p1) in S2.
      destruct (String.compare p1 p2); simpl in S1, S2; lia.
    + destruct (value v1) as [p1|], (value v2) as [p2|]; auto.
      left. pose proof (str_compare_sign p1 p2) as S1.
      pose proof (str_compare_sign p2 p1) as S2.
      rewrite (String.compare_antisym p2 p1) in S2.
      destruct (String.compare p1 p2); simpl in S1, S2; lia.
    + destruct (value v1) as [p1|], (value v2) as [p2|]; auto.
      left. pose proof (str_compare_sign p1 p2) as S1.
      pose proof (str_compare_sign p2 p1) as S2.
      rewrite (String.compare_antisym p2 p1) in S2.
      destruct (String.compare p1 p2); simpl in S1, S2; lia.
  - rewrite !bool_decide_eq_false_2 by congruence. simpl. left.
    unfold string_gt.
    rewrite (String.compare_antisym (originatorId v2) (originatorId v1)).
    destruct (String.compare (originatorId v1) (originatorId v2)) eqn:Hc;
      simpl; try lia.
    by apply string_compare_eq in Hc.
Qed.

End FullSyncMore.

Section FullSyncConvergence.
Context `{Platform}.

(** X10. The second step of the three-way sync brings the initiator up to
    the responder: when the initiator merges the records that the responder's
    [dumpDifference] sends back for the initiator's hash dump, then for every
    record of the responder (with a payload, a valid ttl, accepted by the
    initiator's filter, and not colliding in its hash with a different
    payload of the initiator) the initiator afterwards holds an entry that
    ranks at or above it. *)
Theorem X10_full_sync_response_brings_initiator_up
    (filters : option KvStoreFilters) (areaA areaB : string)
    (dumpFilter : KvStoreFilters)
    (storeA storeB storeA' kvUpdates : gmap string Value)
    (k : string) (vB : Value) :
  mergeKeyValues storeA
    (keyVals (dumpDifference areaB storeB
                (keyVals (dumpHashWithFilters areaA storeA dumpFilter))))
    filters = Ok (storeA', kvUpdates) →
  storeB !! k = Some vB →
  passesFilter filters k vB = true →
  validTtl vB = true →
  is_Some (value vB) →
  (storeA !! k = None → 0 < version vB) →
  (∀ vA, storeA !! k = Some vA → version vA = version vB →
         originatorId vA = originatorId vB → hash vA = hash vB →
         value vA = value vB) →
  ∃ c', storeA' !! k = Some c' ∧ rank_le vB c'.
Proof.
  intros Hmerge HB Hf Ht Hp Hpos Hcoll.
  set (req := keyVals (dumpHashWithFilters areaA storeA dumpFilter)) in *.
  destruct (dumpDifference_parts areaB storeB req) as [Hkv _].
  specialize (Hkv k).
  destruct (sentBack storeB req k) eqn:Hsent.
  { rewrite HB in Hkv.
    by eapply mergeKeyValues_dominates_incoming. }
  pose proof (mergeKeyValues_pointwise _ _ _ _ _ k Hmerge) as P.
  rewrite Hkv in P. destruct P as [HA' _].
  unfold sentBack in Hsent. rewrite HB in Hsent.
  destruct (req !! k) as [reqVal|] eqn:Hreq; [|done].
  unfold req in Hreq. rewrite dumpHashWithFilters_lookup in Hreq.
  destruct (storeA !! k) as [vA|] eqn:HA; [|done].
  destruct (keyMatch dumpFilter k vA OR); [|done].
  injection Hreq as <-.
  exists vA. split; [done|].
  apply orb_false_iff in Hsent as [Hne1 Hne2].
  apply Z.eqb_neq in Hne1, Hne2.
  rewrite (compareValues_hash_only vB (hashOnly vA) eq_refl) in Hne1, Hne2.
  simpl in Hne1, Hne2.
  destruct (Z.compare_spec (version vB) (version vA)) as [Hv|Hv|Hv]; [| |done].
  2: { left. by apply tuple_cmp_gt_version. }
  destruct (String.compare (originatorId vB) (originatorId vA)) eqn:Ho; [| |done].
  2: { left. apply tuple_cmp_gt_originator; [done|].
       by apply string_compare_lt_gt. }
  apply string_compare_eq in Ho.
  destruct (hash vB) as [h1|] eqn:Hh1; [|done].
  destruct (hash vA) as [h2|] eqn:Hh2; [|done].
  destruct (Z.eqb_spec h1 h2) as [->|Hh]; [|done].
  assert (value vA = value vB) as Hval.
  { apply (Hcoll vA); congruence. }
  right. split; [by apply tuple_cmp_eq|].
  destruct (Z.compare_spec (ttlVersion vB) (ttlVersion vA)); [lia|lia|done].
Qed.

End FullSyncConvergence.

(** X9, witness: a one-record store whose record has a hash. *)
Lemma X9_witness :
  keyVals (dumpDifference (H := reference_platform) "1" example_store
             (keyVals (dumpHashWithFilters "1" example_store matchEverything))) = ∅
  ∧ tobeUpdatedKeys (dumpDifference (H := reference_platform) "1" example_store
             (keyVals (dumpHashWithFilters "1" example_store matchEverything)))
    = Some [].
Proof.
  apply (X9_dumpDifference_against_own_hashes (H := reference_platform)
           "1" "1" example_store).
  intros k cur [-> ->]%example_store_lookup. simpl. eauto.
Defined.

(** X10, witness: the initiator holds version 1 of the key, the responder
    version 2. *)
Lemma X10_witness :
  ∃ c', example_merged !! "k"%string = Some c'
        ∧ rank_le (mkValue 2 "B" (Some "y"%string) 1000 0 (Some 4)) c'.
Proof.
  apply (X10_full_sync_response_brings_initiator_up (H := reference_platform)
           None "1" "1" matchEverything
           example_store example_merged example_merged example_merged
           "k" (mkValue 2 "B" (Some "y"%string) 1000 0 (Some 4))).
  - reflexivity.
  - reflexivity.
  - reflexivity.
  - reflexivity.
  - simpl. eauto.
  - intros HA. by vm_compute in HA.
  - intros vA [_ ->]%example_store_lookup. simpl. lia.
Defined.

(** ** Outbound ttl and the countdown queue *)

Section OutboundTtlMore.
Context `{Platform}.

Lemma existsb_false_elem {A : Type} (f : A → bool) (l : list A) (x : A) :
  existsb f l = false → x ∈ l → f x = false.
Proof.
  intros Hex Hin. destruct (f x) eqn:Hfx; [|done].
  rewrite <- Hex. symmetry. apply List.existsb_exists.
  exists x. split; [by apply list_elem_of_In|done].
Qed.

(** X12. [updatePublicationTtl] adds no record to a publication and
    changes no field but the ttl; a record whose ttl it rewrites leaves with
    a ttl of at least 1 ms (on the flood path: of at least [kTtlThreshold]
    minus the decrement), so a record that had a valid ttl still has one for
    the ttl test of the receiving [mergeKeyValues]. *)
Theorem X12_updatePublicationTtl_only_lowers_ttl
    (queue : list TtlCountdownQueueEntry) (ttlDecr timeNow : Z)
    (thriftPub : Publication) (removeAboutToExpire : bool)
    (key : string) (r' : Value) :
  keyVals (updatePublicationTtl queue ttlDecr timeNow thriftPub
             removeAboutToExpire) !! key = Some r' →
  ∃ r, keyVals thriftPub !! key = Some r
       ∧ version r' = version r ∧ originatorId r' = originatorId r
       ∧ value r' = value r ∧ ttlVersion r' = ttlVersion r ∧ hash r' = hash r
       ∧ (ttl r' = ttl r
          ∨ (0 < ttl r'
             ∧ (removeAboutToExpire = true → kTtlThreshold - ttlDecr ≤ ttl r')))
       ∧ (validTtl r = true → validTtl r' = true).
Proof.
  unfold updatePublicationTtl. simpl. intros Hr'.
  destruct (keyVals thriftPub !! key) as [r|] eqn:Hr.
  2: { by rewrite (updateTtl_fold_absent _ _ _ _ _ _ Hr) in Hr'. }
  rewrite (updateTtl_fold_present _ _ _ _ _ _ _ Hr) in Hr'.
  exists r. split; [done|].
  destruct (existsb _ _) eqn:Hex; [done|].
  destruct (last _) as [qE|] eqn:Hlast; injection Hr' as <-.
  2: { split_and!; auto. }
  simpl. split_and!; try done.
  - right.
    pose proof (existsb_false_elem _ _ qE Hex (last_Some_elem_of _ _ Hlast)) as Hnot.
    unfold aboutToExpire in Hnot.
    apply orb_false_iff in Hnot as [Hdecr Hthr].
    apply Z.leb_gt in Hdecr. split; [lia|].
    intros ->. simpl in Hthr. apply Z.ltb_ge in Hthr. lia.
  - intros _. unfold validTtl. simpl.
    pose proof (existsb_false_elem _ _ qE Hex (last_Some_elem_of _ _ Hlast)) as Hnot.
    unfold aboutToExpire in Hnot.
    apply orb_false_iff in Hnot as [Hdecr _].
    apply Z.leb_gt in Hdecr. apply orb_true_iff. right. apply Z.ltb_lt. lia.
Qed.


End OutboundTtlMore.

(** X12, witness: the record that leaves a dump response with 299 ms. *)
Lemma X12_witness :
  ∃ r, keyVals example_outgoing !! "k"%string = Some r
       ∧ version (set_ttl example_current 299 5) = version r
       ∧ originatorId (set_ttl example_current 299 5) = originatorId r
       ∧ value (set_ttl example_current 299 5) = value r
       ∧ ttlVersion (set_ttl example_current 299 5) = ttlVersion r
       ∧ hash (set_ttl example_current 299 5) = hash r
       ∧ (ttl (set_ttl example_current 299 5) = ttl r
          ∨ (0 < ttl (set_ttl example_current 299 5)
             ∧ (false = true →
                kTtlThreshold (Platform := reference_platform) - 1
                ≤ ttl (set_ttl example_current 299 5))))
       ∧ (validTtl (H := reference_platform) r = true →
          validTtl (H := reference_platform) (set_ttl example_current 299 5)
          = true).
Proof.
  apply (X12_updatePublicationTtl_only_lowers_ttl (H := reference_platform)
           [example_entry] 1 0 example_outgoing false "k"
           (set_ttl example_current 299 5)).
  reflexivity.
Defined.

(** ** Ttl expiry *)

Lemma existsb_Permutation {A : Type} (f : A → bool) (l l' : list A) :
  l ≡ₚ l' → existsb f l = existsb f l'.
Proof.
  induction 1 as [|x l l' _ IH|x y l|l l' l'' _ IH1 _ IH2]; simpl.
  - done.
  - by rewrite IH.
  - by rewrite !orb_assoc, (orb_comm (f y)).
  - by rewrite IH1.
Qed.

Lemma extractMin_laws (queue : list TtlCountdownQueueEntry) :
  match extractMin queue with
  | None => queue = []
  | Some (m, others) =>
      queue ≡ₚ m :: others ∧ ∀ e, e ∈ queue → expiryTime m ≤ expiryTime e
  end.
Proof.
  induction queue as [|e rest IH]; simpl; [done|].
  destruct (extractMin rest) as [[m others]|].
  - destruct IH as [Hperm Hmin].
    destruct (Z.leb_spec (expiryTime e) (expiryTime m)) as [Hle|Hlt].
    + split; [done|]. intros x [->|Hx]%elem_of_cons; [lia|].
      specialize (Hmin x Hx). lia.
    + split.
      * rewrite Hperm. apply Permutation_swap.
      * intros x [->|Hx]%elem_of_cons; [lia|]. by apply Hmin.
  - subst rest. split; [done|].
    intros x [->|Hx]%elem_of_cons; [lia|]. by apply elem_of_nil in Hx.
Qed.

Lemma list_queue_laws : queueLaws list_top list_pop.
Proof.
  intros queue. unfold list_top, list_pop.
  pose proof (extractMin_laws queue) as Hlaws.
  by destruct (extractMin queue) as [[m others]|].
Qed.

Section TtlExpiryFacts.
Variable top : list TtlCountdownQueueEntry → option TtlCountdownQueueEntry.
Variable pop : list TtlCountdownQueueEntry → list TtlCountdownQueueEntry.
Hypothesis laws : queueLaws top pop.

Lemma expireTop_lookup (t : TtlCountdownQueueEntry)
    (st : gmap string Value * list string) (k : string) :
  (expireTop t st).1 !! k =
  match st.1 !! k with
  | Some v => if matchesEntry k v t then None else Some v
  | None => None
  end.
Proof.
  unfold expireTop, matchesEntry.
  destruct (decide (qKey t = k)) as [<-|Hne].
  - rewrite bool_decide_eq_true_2 by done. simpl.
    destruct (st.1 !! qKey t) as [v|] eqn:Hv; [|by rewrite Hv].
    destruct (_ && _ && _); simpl; [by rewrite lookup_delete_eq|by rewrite Hv].
  - rewrite (bool_decide_eq_false_2 (qKey t = k)) by done. simpl.
    destruct (st.1 !! qKey t) as [v|] eqn:Hv.
    + destruct (_ && _ && _); simpl; [rewrite lookup_delete_ne by done|];
        by destruct (st.1 !! k).
    + by destruct (st.1 !! k).
Qed.

Lemma expireTop_keys (t : TtlCountdownQueueEntry)
    (st : gmap string Value * list string) :
  (expireTop t st).2 =
  st.2 ++ match st.1 !! qKey t with
          | Some v => if matchesEntry (qKey t) v t then [qKey t] else []
          | None => []
          end.
Proof.
  unfold expireTop, matchesEntry.
  rewrite bool_decide_eq_true_2 by done. simpl.
  destruct (st.1 !! qKey t) as [v|]; [|by rewrite app_nil_r].
  destruct (_ && _ && _); simpl; [done|by rewrite app_nil_r].
Qed.

(** What the loop leaves: the entries that expire in the future, the store
    without the records matched by an expired entry, and the keys of these
    records, each once. *)
Lemma cleanupLoop_spec (now : Z) (fuel : nat) :
  ∀ (queue : list TtlCountdownQueueEntry) (st : gmap string Value * list string),
  (length queue ≤ fuel)%nat →
  (cleanupLoop top pop fuel now queue st).1
    ≡ₚ filter (fun e => now < expiryTime e) queue
  ∧ (∀ k, (cleanupLoop top pop fuel now queue st).2.1 !! k =
          match st.1 !! k with
          | Some v =>
              if existsb (fun e => matchesEntry k v e && (expiryTime e <=? now))
                   queue
              then None else Some v
          | None => None
          end)
  ∧ ∃ erased,
      (cleanupLoop top pop fuel now queue st).2.2 = st.2 ++ erased
      ∧ NoDup erased
      ∧ ∀ k, k ∈ erased ↔
             is_Some (st.1 !! k)
             ∧ (cleanupLoop top pop fuel now queue st).2.1 !! k = None.
Proof.
  induction fuel as [|fuel IH]; intros queue st Hlen.
  - destruct queue; [|simpl in Hlen; lia]. simpl.
    split; [done|]. split; [intros k; by destruct (st.1 !! k)|].
    exists []. rewrite app_nil_r. split; [done|]. split; [constructor|].
    intros k. split; [by intros ?%elem_of_nil|].
    intros [[v Hv] Hnone]. congruence.
  - simpl. pose proof (laws queue) as Hq.
    destruct (top queue) as [t|].
    2: { subst queue. simpl.
         split; [done|]. split; [intros k; by destruct (st.1 !! k)|].
         exists []. rewrite app_nil_r. split; [done|]. split; [constructor|].
         intros k. split; [by intros ?%elem_of_nil|].
         intros [[v Hv] Hnone]. congruence. }
    destruct Hq as [Hperm Hmin].
    destruct (Z.gtb_spec (expiryTime t) now) as [Hfut|Hexp].
    + (* the top expires in the future, and so does every entry *)
      assert (∀ e, e ∈ queue → now < expiryTime e) as Hall.
      { intros e He. specialize (Hmin e He). lia. }
      simpl. split.
      { clear -Hall. induction queue as [|e queue IHq]; [done|].
        rewrite filter_cons_True by (apply Hall, list_elem_of_here).
        f_equiv. apply IHq. intros x Hx. by apply Hall, list_elem_of_further. }
      assert (∀ k v, existsb (fun e => matchesEntry k v e
                                       && (expiryTime e <=? now)) queue = false)
        as Hnone.
      { intros k v. apply not_true_iff_false. intros Hex.
        apply List.existsb_exists in Hex as (e & He%list_elem_of_In & Hm).
        apply andb_true_iff in Hm as [_ Hle%Z.leb_le].
        specialize (Hall e He). lia. }
      split.
      { intros k. destruct (st.1 !! k) as [v|]; [by rewrite Hnone|done]. }
      exists []. rewrite app_nil_r. split; [done|]. split; [constructor|].
      intros k. split; [by intros ?%elem_of_nil|].
      intros [[v Hv] Hnone']. congruence.
    + (* the top has expired *)
      assert (length queue = S (length (pop queue))) as Hlen'.
      { exact (Permutation_length Hperm). }
      destruct (IH (pop queue) (expireTop t st) ltac:(lia))
        as (IHq & IHs & erased & IHe & IHnd & IHin).
      split.
      { transitivity (filter (fun e => now < expiryTime e) (t :: pop queue)).
        - by rewrite filter_cons_False by lia.
        - symmetry. by apply filter_Permutation. }
      assert (∀ k v, existsb (fun e => matchesEntry k v e
                                       && (expiryTime e <=? now)) queue
                     = matchesEntry k v t
                       || existsb (fun e => matchesEntry k v e
                                            && (expiryTime e <=? now))
                            (pop queue)) as Hex.
      { intros k v. rewrite (existsb_Permutation _ _ _ Hperm). simpl.
        by rewrite (proj2 (Z.leb_le _ _)) by lia; rewrite andb_true_r. }
      assert (∀ k, (cleanupLoop top pop fuel now (pop queue) (expireTop t st)).2.1
                   !! k =
                   match st.1 !! k with
                   | Some v =>
                       if existsb (fun e => matchesEntry k v e
                                            && (expiryTime e <=? now)) queue
                       then None else Some v
                   | None => None
                   end) as Hstore.
      { intros k. rewrite IHs, expireTop_lookup.
        destruct (st.1 !! k) as [v|]; [|done].
        rewrite Hex. by destruct (matchesEntry k v t). }
      split; [done|].
      rewrite IHe, expireTop_keys, <- app_assoc.
      eexists. split; [done|].
      destruct (st.1 !! qKey t) as [v|] eqn:Hv; simpl.
      2: { split; [done|]. intros k. rewrite IHin, expireTop_lookup.
           destruct (decide (k = qKey t)) as [->|Hne].
           - rewrite Hv. split; [by intros [[? ?] _]|by intros [[? ?] _]].
           - destruct (st.1 !! k) as [w|] eqn:Hw; [|by split; intros [[? ?] _]].
             assert (matchesEntry k w t = false) as ->; [|done].
             unfold matchesEntry.
             by rewrite (bool_decide_eq_false_2 (qKey t = k)) by done. }
      destruct (matchesEntry (qKey t) v t) eqn:Hm; simpl.
      * split.
        { apply NoDup_cons. split; [|done].
          rewrite IHin, expireTop_lookup, Hv, Hm. by intros [[? ?] _]. }
        intros k. rewrite elem_of_cons, IHin, expireTop_lookup.
        destruct (decide (k = qKey t)) as [->|Hne].
        -- rewrite Hv, Hm. split; [|by left].
           intros _. split; [eauto|].
           rewrite Hstore, Hv, Hex, Hm. done.
        -- destruct (st.1 !! k) as [w|] eqn:Hw.
           ++ assert (matchesEntry k w t = false) as ->.
              { unfold matchesEntry.
                by rewrite (bool_decide_eq_false_2 (qKey t = k)) by done. }
              split; [by intros [?|?]|by right].
           ++ split; [by intros [?|[[? ?] _]]|by intros [[? ?] _]].
      * split; [done|]. intros k. rewrite IHin, expireTop_lookup.
        destruct (st.1 !! k) as [w|] eqn:Hw; [|by split; intros [[? ?] _]].
        destruct (matchesEntry k w t) eqn:Hmk; [|done].
        exfalso. unfold matchesEntry in Hmk.
        destruct (decide (qKey t = k)) as [<-|Hne].
        -- rewrite Hv in Hw. injection Hw as <-. unfold matchesEntry in Hm.
           congruence.
        -- by rewrite (bool_decide_eq_false_2 (qKey t = k)) in Hmk by done.
Qed.

End TtlExpiryFacts.

Section TtlExpiryClaims.
Variable top : list TtlCountdownQueueEntry → option TtlCountdownQueueEntry.
Variable pop : list TtlCountdownQueueEntry → list TtlCountdownQueueEntry.

(** X14. [cleanupTtlCountdownQueue] erases from the store exactly the
    records for which the queue holds an entry that has expired and that
    carries the key, version, originator and ttl version of the record;
    every other record stays as it is (a record whose ttl was refreshed to a
    new ttl version is not erased by the entries of the old one). *)
Theorem X14_cleanup_erases_exactly_the_expired_records
    (now : Z) (db : KvStoreDb) (k : string) :
  queueLaws top pop →
  kvStore_ (cleanupTtlCountdownQueue top pop now db).1 !! k =
  match kvStore_ db !! k with
  | Some v =>
      if existsb (fun e => matchesEntry k v e && (expiryTime e <=? now))
           (ttlCountdownQueue_ db)
      then None else Some v
  | None => None
  end.
Proof.
  intros laws. unfold cleanupTtlCountdownQueue.
  destruct (cleanupLoop_spec top pop laws now (length (ttlCountdownQueue_ db))
              (ttlCountdownQueue_ db) (kvStore_ db, []) (le_n _))
    as (_ & Hstore & _).
  destruct (cleanupLoop _ _ _ _ _ _) as [queue' [kvStore' expired]].
  simpl in Hstore. rewrite <- Hstore.
  by destruct (is_nil expired).
Qed.

(** X15. After [cleanupTtlCountdownQueue] the queue holds the entries that
    expire in the future and no other. When no record was erased nothing is
    published and the store and the counters are untouched; otherwise the
    publication handed to [floodPublication] has no key-values and lists,
    each once, exactly the keys of the erased records, and the counter of
    expired key-values grows by their number. *)
Theorem X15_cleanup_queue_and_expired_keys (now : Z) (db : KvStoreDb) :
  queueLaws top pop →
  ttlCountdownQueue_ (cleanupTtlCountdownQueue top pop now db).1
    ≡ₚ filter (fun e => now < expiryTime e) (ttlCountdownQueue_ db)
  ∧ match (cleanupTtlCountdownQueue top pop now db).2 with
    | None =>
        kvStore_ (cleanupTtlCountdownQueue top pop now db).1 = kvStore_ db
        ∧ counters (cleanupTtlCountdownQueue top pop now db).1 = counters db
    | Some p =>
        expiredKeys p ≠ [] ∧ NoDup (expiredKeys p)
        ∧ (∀ k, k ∈ expiredKeys p ↔
                is_Some (kvStore_ db !! k)
                ∧ kvStore_ (cleanupTtlCountdownQueue top pop now db).1 !! k
                  = None)
        ∧ keyVals p = ∅ ∧ area p = area_ db
        ∧ counters (cleanupTtlCountdownQueue top pop now db).1
            !! "kvstore.expired_key_vals"%string
          = Some (default 0 (counters db !! "kvstore.expired_key_vals"%string)
                  + Z.of_nat (length (expiredKeys p)))
    end.
Proof.
  intros laws. unfold cleanupTtlCountdownQueue.
  destruct (cleanupLoop_spec top pop laws now (length (ttlCountdownQueue_ db))
              (ttlCountdownQueue_ db) (kvStore_ db, []) (le_n _))
    as (Hqueue & Hstore & erased & Herased & Hnd & Hin).
  destruct (cleanupLoop _ _ _ _ _ _) as [queue' [kvStore' expired]].
  simpl in *. subst expired.
  destruct erased as [|k0 erased]; simpl.
  - split; [done|]. split; [|done].
    apply map_eq. intros k.
    destruct (kvStore' !! k) as [v|] eqn:Hk.
    + rewrite Hstore in Hk. destruct (kvStore_ db !! k) as [w|]; [|done].
      by destruct (existsb _ _).
    + destruct (kvStore_ db !! k) as [w|] eqn:Hw; [|done].
      exfalso. apply (elem_of_nil k), Hin. eauto.
  - split; [done|]. split_and!; try done.
    unfold addStatValue. simpl. by rewrite lookup_insert_eq.
Qed.

End TtlExpiryClaims.

(** X14, witness: at 400 ms the record is erased by its first entry. *)
Lemma X14_witness :
  kvStore_ (cleanupTtlCountdownQueue list_top list_pop 400000000
              example_db_expiring).1 !! "k"%string =
  match kvStore_ example_db_expiring !! "k"%string with
  | Some v =>
      if existsb (fun e => matchesEntry "k" v e && (expiryTime e <=? 400000000))
           (ttlCountdownQueue_ example_db_expiring)
      then None else Some v
  | None => None
  end.
Proof.
  apply (X14_cleanup_erases_exactly_the_expired_records list_top list_pop
           400000000 example_db_expiring "k").
  apply list_queue_laws.
Defined.

(** X15, witness: the later entry stays queued and the key is published as
    expired. *)
Lemma X15_witness :
  ttlCountdownQueue_ (cleanupTtlCountdownQueue list_top list_pop 400000000
                        example_db_expiring).1
    ≡ₚ filter (fun e => 400000000 < expiryTime e)
         (ttlCountdownQueue_ example_db_expiring)
  ∧ match (cleanupTtlCountdownQueue list_top list_pop 400000000
             example_db_expiring).2 with
    | None =>
        kvStore_ (cleanupTtlCountdownQueue list_top list_pop 400000000
                    example_db_expiring).1 = kvStore_ example_db_expiring
        ∧ counters (cleanupTtlCountdownQueue list_top list_pop 400000000
                      example_db_expiring).1 = counters example_db_expiring
    | Some p =>
        expiredKeys p ≠ [] ∧ NoDup (expiredKeys p)
        ∧ (∀ k, k ∈ expiredKeys p ↔
                is_Some (kvStore_ example_db_expiring !! k)
                ∧ kvStore_ (cleanupTtlCountdownQueue list_top list_pop 400000000
                              example_db_expiring).1 !! k = None)
        ∧ keyVals p = ∅ ∧ area p = area_ example_db_expiring
        ∧ counters (cleanupTtlCountdownQueue list_top list_pop 400000000
                      example_db_expiring).1
            !! "kvstore.expired_key_vals"%string
          = Some (default 0 (counters example_db_expiring
                               !! "kvstore.expired_key_vals"%string)
                  + Z.of_nat (length (expiredKeys p)))
    end.
Proof.
  apply (X15_cleanup_queue_and_expired_keys list_top list_pop 400000000
           example_db_expiring).
  apply list_queue_laws.
Defined.

(** The example evaluated: the record is gone, the second entry is left and
    the key is reported. *)
Example cleanup_example :
  let r := cleanupTtlCountdownQueue list_top list_pop 400000000
             example_db_expiring in
  kvStore_ r.1 = ∅
  ∧ ttlCountdownQueue_ r.1 = [mkQueueEntry 900000000 "k" 1 6 "A"]
  ∧ (expiredKeys <$> r.2) = Some ["k"%string].
Proof. by vm_compute. Qed.

(** ** Peer state machine in its callers *)

Section PeerTransitions.
Context `{Platform}.
Import Barrier.

Lemma requestThriftPeerSync_defined (ready : list string) :
  ∀ db : Barrier.KvStoreDb, ∃ db', requestThriftPeerSync ready db = Ok db'.
Proof.
  induction ready as [|peerName rest IH]; intros db; simpl; [eauto|].
  destruct (thriftPeers_ db !! peerName) as [peer|]; [|apply IH].
  destruct (bool_decide (peerState peer = IDLE)) eqn:Hidle; [|apply IH].
  apply bool_decide_eq_true in Hidle. rewrite Hidle. simpl. apply IH.
Qed.

Lemma step_defined (e : Event) (st : KvStore) : ∃ st', step e st = Ok st'.
Proof.
  destruct e as [event|a peers|a peers|a ready|a peerName pushed|a peerName|p];
    simpl.
  - eauto.
  - destruct (addUpdateKvStorePeers a peers st); eauto.
  - destruct (deleteKvStorePeers a peers st); eauto.
  - destruct (kvStoreDb_ st !! a) as [db|]; [|eauto].
    destruct (requestThriftPeerSync_defined ready db) as [db' ->]. simpl. eauto.
  - unfold processThriftSuccess.
    destruct (kvStoreDb_ st !! a) as [db|]; [|eauto].
    destruct (thriftPeers_ db !! peerName) as [peer|]; [|eauto].
    destruct (bool_decide (peerState peer = IDLE)) eqn:Hidle; [eauto|].
    apply bool_decide_eq_false in Hidle.
    destruct (peerState peer); [done| |]; simpl;
      destruct (initialSyncCompleted_ db); simpl; eauto.
  - unfold processThriftFailure.
    destruct (kvStoreDb_ st !! a) as [db|]; [|eauto].
    destruct (thriftPeers_ db !! peerName) as [peer|]; [|eauto].
    destruct (peerState peer); simpl;
      destruct (initialSyncCompleted_ db); simpl; eauto.
  - eauto.
Qed.

(** X16. No caller drives the peer state machine into an undefined
    transition: whatever sequence of peer updates, peer additions and
    deletions, sync timers, full-sync responses, thrift failures and floods
    the store goes through, from whatever state, no [CHECK] of
    [getNextState] fails. *)
Theorem X16_no_undefined_peer_transition (evs : list Event) :
  ∀ st : KvStore, ∃ st', run evs st = Ok st'.
Proof.
  induction evs as [|e evs IH]; intros st; simpl; [eauto|].
  destruct (step_defined e st) as [st1 ->]. simpl. apply IH.
Qed.

(** X17. A thrift failure of a known peer puts the peer in IDLE, whatever
    its state was, and adds one to its error count; the other peers of the
    area and the peers of the other areas are as before. *)
Theorem X17_thrift_failure_resets_the_peer
    (a peerName : string) (st : KvStore) (db : Barrier.KvStoreDb)
    (peer : Barrier.KvStorePeer) :
  kvStoreDb_ st !! a = Some db →
  thriftPeers_ db !! peerName = Some peer →
  ∃ st' db',
    processThriftFailure a peerName st = Ok st'
    ∧ kvStoreDb_ st' !! a = Some db'
    ∧ thriftPeers_ db'
      = <[peerName := Barrier.mkPeer IDLE (numThriftApiErrors peer + 1)]>
          (thriftPeers_ db)
    ∧ ∀ x, x ≠ a →
           thriftPeers_ <$> (kvStoreDb_ st' !! x)
           = thriftPeers_ <$> (kvStoreDb_ st !! x).
Proof.
  intros Hdb Hpeer. unfold processThriftFailure. rewrite Hdb, Hpeer.
  assert (getNextState (Some (peerState peer)) THRIFT_API_ERROR = Ok IDLE) as ->.
  { by destruct (peerState peer). }
  simpl.
  set (db1 := Barrier.mkDb
                (<[peerName := Barrier.mkPeer IDLE (numThriftApiErrors peer + 1)]>
                   (thriftPeers_ db))
                (initialSyncCompleted_ db)).
  assert (kvStoreDb_ (set_db st a db1) !! a = Some db1) as Hset.
  { simpl. by rewrite lookup_insert_eq. }
  destruct (initialSyncCompleted_ db); simpl.
  - exists (set_db st a db1), db1. split_and!; [done|done|done|].
    intros x Hx. simpl. by rewrite lookup_insert_ne.
  - pose proof (processInitializationEvent_peers a a (set_db st a db1)) as Hp.
    rewrite Hset in Hp. simpl in Hp.
    destruct (kvStoreDb_ (processInitializationEvent a (set_db st a db1)) !! a)
      as [db'|] eqn:Hdb'; [|done].
    injection Hp as Hp.
    exists (processInitializationEvent a (set_db st a db1)), db'.
    split_and!; [done|done|done|].
    intros x Hx. rewrite processInitializationEvent_peers. simpl.
    by rewrite lookup_insert_ne.
Qed.

End PeerTransitions.

(** X17, witness: the initialized peer of the example fails. *)
Lemma X17_witness :
  ∃ st' db',
    Barrier.processThriftFailure "1" "peerB" example_synced_store = Ok st'
    ∧ Barrier.kvStoreDb_ st' !! "1"%string = Some db'
    ∧ Barrier.thriftPeers_ db'
      = <["peerB"%string :=
            Barrier.mkPeer IDLE
              (Barrier.numThriftApiErrors (Barrier.mkPeer INITIALIZED 0) + 1)]>
          (Barrier.thriftPeers_
             (Barrier.mkDb {["peerB"%string := Barrier.mkPeer INITIALIZED 0]} true))
    ∧ ∀ x, x ≠ "1"%string →
           Barrier.thriftPeers_ <$> (Barrier.kvStoreDb_ st' !! x)
           = Barrier.thriftPeers_ <$> (Barrier.kvStoreDb_ example_synced_store !! x).
Proof.
  apply (X17_thrift_failure_resets_the_peer
           "1" "peerB" example_synced_store
           (Barrier.mkDb {["peerB"%string := Barrier.mkPeer INITIALIZED 0]} true)
           (Barrier.mkPeer INITIALIZED 0)).
  - reflexivity.
  - reflexivity.
Defined.

(** ** Self-originated keys *)

Lemma wrap_int64_small (z : Z) : - 2 ^ 63 ≤ z < 2 ^ 63 → wrap_int64 z = z.
Proof. intros Hz. unfold wrap_int64. rewrite Z.mod_small; lia. Qed.

Section UnsetWins.
Context `{Platform}.

(** X18. The tombstone that [unsetSelfOriginatedKey] queues for a key of
    the store overrides the stored record: it carries the node's id, the
    given value and the next version, and [mergeKeyValues] decides for a
    value update on it (when no tombstone was already queued for the key, the
    version does not overflow, and the filter and the ttl test let the
    tombstone pass). *)
Theorem X18_unset_tombstone_overrides_stored_record
    (filters : option KvStoreFilters) (key tombstone : string)
    (db : KvStoreDb) (cur : Value) :
  kvStore_ db !! key = Some cur →
  keysToUnset_ db !! key = None →
  - 2 ^ 63 ≤ version cur < 2 ^ 63 - 1 →
  validTtl cur = true →
  (∀ v, originatorId v = nodeId db → passesFilter filters key v = true) →
  ∃ t, keysToUnset_ (unsetSelfOriginatedKey key tombstone db) !! key = Some t
       ∧ version t = version cur + 1
       ∧ originatorId t = nodeId db
       ∧ value t = Some tombstone
       ∧ ttlVersion t = 0
       ∧ mergeAction filters (Some cur) key t = Ok UpdateAll.
Proof.
  intros Hcur Hfree Hrange Httl Hfilter.
  unfold unsetSelfOriginatedKey. simpl. rewrite Hcur. simpl.
  unfold emplace. rewrite Hfree, lookup_insert_eq.
  rewrite wrap_int64_small by lia.
  eexists. split; [done|]. simpl. split_and!; try done.
  rewrite mergeAction_known; simpl.
  - by rewrite (proj2 (Z.compare_gt_iff _ _)) by lia.
  - by apply Hfilter.
  - done.
Qed.

End UnsetWins.

(** X18, witness: the record of the example store is unset. *)
Lemma X18_witness :
  ∃ t, keysToUnset_ (unsetSelfOriginatedKey "other" "gone" example_db)
         !! "other"%string = Some t
       ∧ version t = version example_current + 1
       ∧ originatorId t = nodeId example_db
       ∧ value t = Some "gone"%string
       ∧ ttlVersion t = 0
       ∧ mergeAction (H := reference_platform) None (Some example_current)
           "other" t = Ok UpdateAll.
Proof.
  apply (X18_unset_tombstone_overrides_stored_record (H := reference_platform)
           None "other" "gone" example_db example_current).
  - reflexivity.
  - reflexivity.
  - simpl. lia.
  - reflexivity.
  - reflexivity.
Defined.

Section SelfOriginatedRefresh.

Lemma refreshSelfOriginatedKey_frame (nodeId : string)
    (st st' : gmap string Value * gset string) (key : string) (rcvd : Value) :
  refreshSelfOriginatedKey nodeId st key rcvd = Ok st' →
  (∀ k, k ≠ key → st'.1 !! k = st.1 !! k) ∧ st.2 ⊆ st'.2.
Proof.
  unfold refreshSelfOriginatedKey.
  destruct (value rcvd) as [p|]; [|by intros [= <-]].
  destruct (st.1 !! key) as [c|]; [|by intros [= <-]].
  destruct (version c >? version rcvd); [by intros [= <-]|].
  destruct (version c <? version rcvd); simpl.
  { intros [= <-]. simpl. split; [|apply union_subseteq_l].
    intros k Hk. by rewrite lookup_insert_ne. }
  destruct (bool_decide (originatorId rcvd = nodeId)); simpl.
  2: { intros [= <-]. simpl. split; [|apply union_subseteq_l].
       intros k Hk. by rewrite lookup_insert_ne. }
  destruct (value c) as [q|]; simpl; [|done].
  destruct (bool_decide (q = p)); simpl.
  - destruct (ttlVersion c <? ttlVersion rcvd); intros [= <-]; simpl;
      [|done]. split; [|done]. intros k Hk. by rewrite lookup_insert_ne.
  - intros [= <-]. simpl. split; [|apply union_subseteq_l].
    intros k Hk. by rewrite lookup_insert_ne.
Qed.

Ltac solve_entry :=
  split_and!; try done;
  try (intros _; apply elem_of_union; right; by apply elem_of_singleton);
  try (intros _ Hrange; rewrite ?wrap_int64_small by lia;
       split; [lia|]; intros ?; split_and!; first [done|lia]).

(** The entry of the key after the loop body, for a value with a payload
    whose version can be incremented. *)
Lemma refreshSelfOriginatedKey_entry (nodeId : string)
    (st st' : gmap string Value * gset string) (key : string)
    (rcvd c : Value) :
  refreshSelfOriginatedKey nodeId st key rcvd = Ok st' →
  st.1 !! key = Some c →
  ∃ c', st'.1 !! key = Some c'
        ∧ originatorId c' = originatorId c ∧ value c' = value c
        ∧ ttl c' = ttl c
        ∧ (version c' ≠ version c → key ∈ st'.2)
        ∧ (is_Some (value rcvd) → - 2 ^ 63 ≤ version rcvd < 2 ^ 63 - 1 →
           version rcvd ≤ version c'
           ∧ (version c' = version rcvd →
              originatorId rcvd = nodeId ∧ value c = value rcvd
              ∧ ttlVersion rcvd ≤ ttlVersion c')).
Proof.
  unfold refreshSelfOriginatedKey. intros Hstep Hc. rewrite Hc in Hstep.
  destruct (value rcvd) as [p|] eqn:Hp.
  2: { injection Hstep as <-. exists c. split_and!; try done;
         by intros [? ?]. }
  destruct (Z.gtb_spec (version c) (version rcvd)) as [Hgt|Hle].
  { injection Hstep as <-. exists c. solve_entry. }
  destruct (Z.ltb_spec (version c) (version rcvd)) as [Hlt|Hge]; simpl in Hstep.
  { injection Hstep as <-. simpl. rewrite lookup_insert_eq.
    eexists. split; [done|]. simpl. solve_entry. }
  destruct (decide (originatorId rcvd = nodeId)) as [Ho|Ho].
  2: { rewrite bool_decide_eq_false_2 in Hstep by done. simpl in Hstep.
       injection Hstep as <-. simpl. rewrite lookup_insert_eq.
       eexists. split; [done|]. simpl. solve_entry. }
  rewrite bool_decide_eq_true_2 in Hstep by done. simpl in Hstep.
  destruct (value c) as [q|] eqn:Hq; simpl in Hstep; [|done].
  destruct (decide (q = p)) as [->|Hqp].
  - rewrite bool_decide_eq_true_2 in Hstep by done. simpl in Hstep.
    destruct (Z.ltb_spec (ttlVersion c) (ttlVersion rcvd)) as [Htv|Htv];
      injection Hstep as <-; simpl.
    + rewrite lookup_insert_eq. eexists. split; [done|]. simpl. solve_entry.
    + exists c. solve_entry.
  - rewrite bool_decide_eq_false_2 in Hstep by done. simpl in Hstep.
    injection Hstep as <-. simpl. rewrite lookup_insert_eq.
    eexists. split; [done|]. simpl. solve_entry.
Qed.

Lemma refreshLoop_frame (nodeId : string) (kvs : list (string * Value)) :
  ∀ st st' : gmap string Value * gset string,
  refreshLoop nodeId st kvs = Ok st' →
  (∀ k, k ∉ kvs.*1 → st'.1 !! k = st.1 !! k) ∧ st.2 ⊆ st'.2.
Proof.
  induction kvs as [|[key rcvd] kvs IH]; intros st st'; simpl.
  - by intros [= <-].
  - destruct (refreshSelfOriginatedKey nodeId st key rcvd) as [st1|] eqn:H1;
      [|done].
    simpl. intros Hrest.
    destruct (refreshSelfOriginatedKey_frame _ _ _ _ _ H1) as [Hother Hsub].
    destruct (IH _ _ Hrest) as [IHother IHsub].
    split; [|by etrans].
    intros k Hk. apply not_elem_of_cons in Hk as [Hne Hk].
    by rewrite IHother, Hother.
Qed.

Lemma refreshLoop_entry (nodeId : string) (kvs : list (string * Value)) :
  ∀ (st st' : gmap string Value * gset string) (k : string) (rcvd : Value),
  NoDup kvs.*1 →
  refreshLoop nodeId st kvs = Ok st' →
  (k, rcvd) ∈ kvs →
  ∃ st1 st2,
    refreshSelfOriginatedKey nodeId st1 k rcvd = Ok st2
    ∧ st1.1 !! k = st.1 !! k
    ∧ st'.1 !! k = st2.1 !! k
    ∧ st2.2 ⊆ st'.2.
Proof.
  induction kvs as [|[key w] kvs IH]; intros st st' k rcvd Hnd; simpl.
  - intros _ Hin. by apply elem_of_nil in Hin.
  - apply NoDup_cons in Hnd as [Hnotin Hnd].
    destruct (refreshSelfOriginatedKey nodeId st key w) as [st1|] eqn:H1;
      [|done].
    simpl. intros Hrest [[= -> ->]|Hin]%elem_of_cons.
    + destruct (refreshLoop_frame _ _ _ _ Hrest) as [Hother Hsub].
      exists st, st1. split_and!; [done|done| |done]. by apply Hother.
    + destruct (IH _ _ _ _ Hnd Hrest Hin) as (s1 & s2 & Hs & Hk1 & Hk2 & Hsub).
      exists s1, s2. split_and!; [done| |done|done].
      rewrite Hk1.
      destruct (refreshSelfOriginatedKey_frame _ _ _ _ _ H1) as [Hother _].
      apply Hother. intros ->. apply Hnotin.
      apply list_elem_of_fmap. by exists (key, rcvd).
Qed.

(** X19. [processPublicationForSelfOriginatedKey] keeps the node's cache of
    self-originated keys ahead of what it receives: a cached key stays
    cached with its originator, payload and ttl; its version ends at or above
    the version of a received value with a payload, and equal only to that of
    a value from this node with the same payload, whose ttl version the cache
    then has reached; and every key whose version the call changes is marked
    to be advertised. *)
Theorem X19_self_originated_cache_stays_ahead
    (publication : Publication) (db db' : KvStoreDb) (calls : nat)
    (k : string) (c : Value) :
  processPublicationForSelfOriginatedKey publication db = Ok (db', calls) →
  selfOriginatedKeyVals_ db !! k = Some c →
  ∃ c', selfOriginatedKeyVals_ db' !! k = Some c'
        ∧ originatorId c' = originatorId c ∧ value c' = value c
        ∧ ttl c' = ttl c
        ∧ (version c' ≠ version c → k ∈ keysToAdvertise_ db')
        ∧ keysToAdvertise_ db ⊆ keysToAdvertise_ db'
        ∧ kvStore_ db' = kvStore_ db
        ∧ ∀ rcvd, keyVals publication !! k = Some rcvd →
                  is_Some (value rcvd) →
                  - 2 ^ 63 ≤ version rcvd < 2 ^ 63 - 1 →
                  version rcvd ≤ version c'
                  ∧ (version c' = version rcvd →
                     originatorId rcvd = nodeId db ∧ value c = value rcvd
                     ∧ ttlVersion rcvd ≤ ttlVersion c').
Proof.
  unfold processPublicationForSelfOriginatedKey. intros Hcall Hc.
  destruct (map_is_empty (selfOriginatedKeyVals_ db)) eqn:Hempty.
  { unfold map_is_empty in Hempty. apply bool_decide_eq_true in Hempty.
    apply map_size_empty_inv in Hempty. rewrite Hempty in Hc. done. }
  destruct (refreshLoop _ _ _) as [st|] eqn:Hloop; [|done].
  simpl in Hcall. injection Hcall as <- <-. simpl.
  destruct (refreshLoop_frame _ _ _ _ Hloop) as [Hother Hsub]. simpl in *.
  destruct (keyVals publication !! k) as [rcvd|] eqn:Hk.
  - apply elem_of_map_to_list in Hk.
    destruct (refreshLoop_entry _ _ _ _ _ _ (NoDup_fst_map_to_list _) Hloop Hk)
      as (s1 & s2 & Hs & Hk1 & Hk2 & Hsub2). simpl in Hk1.
    rewrite Hc in Hk1.
    destruct (refreshSelfOriginatedKey_entry _ _ _ _ _ _ Hs Hk1)
      as (c' & Hc' & Ho & Hv & Ht & Hadv & Hrcvd).
    exists c'. rewrite Hk2. split_and!; try done.
    + intros Hne. apply Hsub2. by apply Hadv.
    + intros r [= <-]. apply Hrcvd.
  - exists c. split_and!; try done.
    rewrite <- Hc. apply Hother. intros (kv & Hkv & Hin)%list_elem_of_fmap.
    destruct kv as [k' v']. simpl in Hkv. subst k'.
    apply elem_of_map_to_list in Hin. congruence.
Qed.

End SelfOriginatedRefresh.

(** X19, witness: the cached key comes back from another originator at the
    cached version; the cache moves to the next version. *)
Lemma X19_witness :
  ∃ c', selfOriginatedKeyVals_ example_db_refreshed !! "k"%string = Some c'
        ∧ originatorId c' = originatorId example_current
        ∧ value c' = value example_current
        ∧ ttl c' = ttl example_current
        ∧ (version c' ≠ version example_current →
           "k"%string ∈ keysToAdvertise_ example_db_refreshed)
        ∧ keysToAdvertise_ example_db ⊆ keysToAdvertise_ example_db_refreshed
        ∧ kvStore_ example_db_refreshed = kvStore_ example_db
        ∧ ∀ rcvd, keyVals example_outgoing !! "k"%string = Some rcvd →
                  is_Some (value rcvd) →
                  - 2 ^ 63 ≤ version rcvd < 2 ^ 63 - 1 →
                  version rcvd ≤ version c'
                  ∧ (version c' = version rcvd →
                     originatorId rcvd = nodeId example_db
                     ∧ value example_current = value rcvd
                     ∧ ttlVersion rcvd ≤ ttlVersion c').
Proof.
  apply (X19_self_originated_cache_stays_ahead example_outgoing example_db
           example_db_refreshed 1 "k" example_current).
  - by vm_compute.
  - reflexivity.
Defined.

(** ** Rate-limited flooding *)

Lemma bufferKey_elem (r root : option string) (buffer : PublicationBuffer)
    (key k : string) :
  k ∈ default ∅ (bufferKey r buffer key !! root)
  ↔ k ∈ default ∅ (buffer !! root) ∨ (root = r ∧ k = key).
Proof.
  unfold bufferKey. destruct (decide (r = root)) as [->|Hne].
  - rewrite lookup_insert_eq. simpl.
    rewrite elem_of_union, elem_of_singleton. split.
    + intros [Hin| ->]; [by left|by right].
    + intros [Hin|[_ ->]]; [by left|by right].
  - rewrite lookup_insert_ne by done. split; [by left|].
    intros [Hin|[-> _]]; done.
Qed.

Lemma bufferKeys_elem (r root : option string) (keys : list string) (k : string) :
  ∀ buffer : PublicationBuffer,
  k ∈ default ∅ (foldl (bufferKey r) buffer keys !! root)
  ↔ k ∈ default ∅ (buffer !! root) ∨ (root = r ∧ k ∈ keys).
Proof.
  induction keys as [|key keys IH]; intros buffer; simpl.
  - split; [auto|]. intros [?|[_ ?%elem_of_nil]]; done.
  - rewrite IH, bufferKey_elem, elem_of_cons. tauto.
Qed.

(** X20. [bufferPublication] loses no key: afterwards the buffer holds,
    under the flood root id of the publication, its key-value keys and its
    expired keys besides what was buffered before; the keys buffered under
    other root ids are as before, and the store is untouched. *)
Theorem X20_bufferPublication_adds_the_keys
    (publication : Publication) (db : KvStoreDb) (buffer : PublicationBuffer) :
  (∀ root k,
     k ∈ default ∅ ((bufferPublication publication (db, buffer)).2 !! root)
     ↔ k ∈ default ∅ (buffer !! root)
       ∨ (root = floodRootId publication
          ∧ (is_Some (keyVals publication !! k) ∨ k ∈ expiredKeys publication)))
  ∧ kvStore_ (bufferPublication publication (db, buffer)).1 = kvStore_ db.
Proof.
  split; [|done]. intros root k. unfold bufferPublication. simpl.
  rewrite bufferKeys_elem.
  assert (∀ (l : list (string * Value)) (b : PublicationBuffer),
            foldl (fun b kv => bufferKey (floodRootId publication) b kv.1) b l
            = foldl (bufferKey (floodRootId publication)) b l.*1) as ->.
  { induction l as [|kv l IH]; intros b; simpl; [done|]. apply IH. }
  rewrite bufferKeys_elem.
  assert (k ∈ (map_to_list (keyVals publication)).*1
          ↔ is_Some (keyVals publication !! k)) as ->.
  { rewrite list_elem_of_fmap. split.
    - intros ([k' v] & -> & Hin%elem_of_map_to_list). simpl. eauto.
    - intros [v Hv]. exists (k, v). split; [done|].
      by apply elem_of_map_to_list. }
  tauto.
Qed.

Lemma mergedPublication_fold (kvStore_ : gmap string Value) (keys : list string) :
  ∀ acc : Publication,
  let p := foldl (fun publication key =>
                    match kvStore_ !! key with
                    | Some v =>
                        set_keyVals publication
                          (emplace key v (keyVals publication))
                    | None =>
                        set_expiredKeys publication
                          (expiredKeys publication ++ [key])
                    end) acc keys in
  (∀ k, keyVals p !! k =
        match keyVals acc !! k with
        | Some x => Some x
        | None => if bool_decide (k ∈ keys) then kvStore_ !! k else None
        end)
  ∧ expiredKeys p
    = expiredKeys acc ++ filter (fun k => kvStore_ !! k = None) keys
  ∧ floodRootId p = floodRootId acc ∧ nodeIds p = nodeIds acc
  ∧ area p = area acc.
Proof.
  induction keys as [|key keys IH]; intros acc; simpl.
  - split; [intros k; by destruct (keyVals acc !! k)|].
    by rewrite app_nil_r.
  - specialize (IH (match kvStore_ !! key with
                    | Some v => set_keyVals acc (emplace key v (keyVals acc))
                    | None => set_expiredKeys acc (expiredKeys acc ++ [key])
                    end)).
    cbv zeta in IH. destruct IH as (IHkv & IHex & IHroot & IHnodes & IHarea).
    split_and!.
    + intros k. rewrite IHkv.
      destruct (decide (k = key)) as [->|Hne].
      * rewrite (bool_decide_eq_true_2 (key ∈ key :: keys))
          by apply list_elem_of_here.
        destruct (kvStore_ !! key) as [v|] eqn:Hv; simpl.
        -- rewrite emplace_lookup. destruct (keyVals acc !! key); [done|].
           by rewrite decide_True.
        -- destruct (keyVals acc !! key); [done|]. by destruct (bool_decide _).
      * assert (bool_decide (k ∈ key :: keys) = bool_decide (k ∈ keys)) as ->.
        { apply bool_decide_ext. rewrite elem_of_cons.
          split; [intros [?|?]; [done|done]|auto]. }
        destruct (kvStore_ !! key) as [v|]; simpl; [|done].
        rewrite emplace_lookup. destruct (keyVals acc !! k); [done|].
        by rewrite decide_False.
    + rewrite IHex. destruct (kvStore_ !! key) as [v|] eqn:Hv; simpl.
      * by rewrite filter_cons_False by (by rewrite Hv).
      * rewrite filter_cons_True by done. by rewrite <- app_assoc.
    + rewrite IHroot. by destruct (kvStore_ !! key).
    + rewrite IHnodes. by destruct (kvStore_ !! key).
    + rewrite IHarea. by destruct (kvStore_ !! key).
Qed.

(** X21. [floodBufferedUpdates] empties the buffer and hands over one
    publication for each buffered root id: it carries that root id and no
    node ids, reports every buffered key exactly once, with the value that
    the store holds now, or as expired when the store no longer holds the
    key, and its area is the empty default. *)
Theorem X21_floodBufferedUpdates_reports_every_key
    (kvStore_ : gmap string Value) (buffer : PublicationBuffer)
    (rootId : option string) (keys : gset string) :
  buffer !! rootId = Some keys →
  (floodBufferedUpdates kvStore_ buffer).2 = ∅
  ∧ length (floodBufferedUpdates kvStore_ buffer).1 = size buffer
  ∧ ∃ p, p ∈ (floodBufferedUpdates kvStore_ buffer).1
         ∧ floodRootId p = rootId ∧ nodeIds p = None
         ∧ area p = EmptyString
         ∧ (∀ k, keyVals p !! k =
                 if bool_decide (k ∈ keys) then kvStore_ !! k else None)
         ∧ NoDup (expiredKeys p)
         ∧ (∀ k, k ∈ expiredKeys p ↔ k ∈ keys ∧ kvStore_ !! k = None).
Proof.
  intros Hroot. unfold floodBufferedUpdates.
  rewrite bool_decide_eq_false_2.
  2: { intros Hsize. apply map_size_empty_inv in Hsize.
       by rewrite Hsize in Hroot. }
  simpl. split; [done|].
  split; [by rewrite length_fmap, length_map_to_list|].
  exists (mergedPublication kvStore_ rootId (elements keys)).
  split.
  { apply list_elem_of_fmap. exists (rootId, keys).
    split; [done|]. by apply elem_of_map_to_list. }
  unfold mergedPublication.
  pose proof (mergedPublication_fold kvStore_ (elements keys)
                (mkPublication ∅ [] None None rootId EmptyString)) as Hfold.
  cbv zeta in Hfold.
  destruct Hfold as (Hkv & Hex & Hr & Hn & Ha). simpl in *.
  split_and!; try done.
  - intros k. rewrite Hkv, lookup_empty.
    by rewrite (bool_decide_ext (k ∈ elements keys) (k ∈ keys))
      by apply elem_of_elements.
  - rewrite Hex. apply NoDup_filter, NoDup_elements.
  - intros k. rewrite Hex, list_elem_of_filter, elem_of_elements. tauto.
Qed.

(** X21, witness: one publication with the stored key and the missing key. *)
Lemma X21_witness :
  (floodBufferedUpdates example_store example_buffer).2 = ∅
  ∧ length (floodBufferedUpdates example_store example_buffer).1
    = size example_buffer
  ∧ ∃ p, p ∈ (floodBufferedUpdates example_store example_buffer).1
         ∧ floodRootId p = None ∧ nodeIds p = None
         ∧ area p = EmptyString
         ∧ (∀ k, keyVals p !! k =
                 if bool_decide (k ∈ ({["k"%string; "gone"%string]} : gset string))
                 then example_store !! k else None)
         ∧ NoDup (expiredKeys p)
         ∧ (∀ k, k ∈ expiredKeys p
                 ↔ k ∈ ({["k"%string; "gone"%string]} : gset string)
                   ∧ example_store !! k = None).
Proof.
  apply (X21_floodBufferedUpdates_reports_every_key example_store
           example_buffer None {["k"%string; "gone"%string]}).
  reflexivity.
Defined.

Example floodBufferedUpdates_example :
  (fun p => (keyVals p, expiredKeys p))
    <$> (floodBufferedUpdates example_store example_buffer).1
  = [(example_store, ["gone"%string])].
Proof. by vm_compute. Qed.

(** ** [mergePublication] and [setKeyVals] on the store *)

Section MergePublicationStore.
Context `{Platform}.
Variable floodPublication : Publication → KvStoreDb → KvStoreDb.
Variable finalizeFullSync : gset string → string → KvStoreDb → KvStoreDb.
Hypothesis flood_frame : ∀ p d, kvStore_ (floodPublication p d) = kvStore_ d.
Hypothesis finalize_frame :
  ∀ ks s d, kvStore_ (finalizeFullSync ks s d) = kvStore_ d.

(** The store after [mergePublication]: untouched on the two early
    returns, and otherwise the store that [mergeKeyValues] returns. *)
Lemma mergePublication_store (timeNow : Z) (rcvdPublication : Publication)
    (senderId : option string) (db db' : KvStoreDb) (n : nat) :
  mergePublication floodPublication finalizeFullSync timeNow rcvdPublication
    senderId db = Ok (db', n) →
  (kvStore_ db' = kvStore_ db ∧ n = 0%nat)
  ∨ ∃ merged,
      mergeKeyValues (kvStore_ db) (keyVals rcvdPublication) (filters db)
      = Ok merged
      ∧ kvStore_ db' = merged.1 ∧ n = size merged.2.
Proof.
  unfold mergePublication. cbv zeta.
  destruct senderId as [sender|];
    [destruct (thriftPeers_ _ !! sender) as [peer|]|];
    (match goal with
     | |- context [if ?b then Ok (?d, 0%nat) else _] => destruct b
     end; [intros [= <- <-]; by left|]);
    (match goal with
     | |- context [if ?b then Ok (?d, 0%nat) else _] => destruct b
     end; [intros [= <- <-]; by left|]);
    simpl;
    (destruct (mergeKeyValues (kvStore_ db) (keyVals rcvdPublication) (filters db))
       as [merged|] eqn:Hmerge; [|done]);
    simpl; intros [= <- <-]; right; exists merged;
    (split; [done|]); (split; [|done]);
    repeat match goal with
           | |- context [if ?b then _ else _] => destruct b
           end;
    rewrite ?finalize_frame, ?flood_frame; done.
Qed.

End MergePublicationStore.

Section MergePublicationClaims.
Context `{Platform}.
Variable floodPublication : Publication → KvStoreDb → KvStoreDb.
Variable finalizeFullSync : gset string → string → KvStoreDb → KvStoreDb.

(** X22. The number that [mergePublication] reports is the number of keys
    whose entry in the store has changed, and these are keys of the
    publication; in particular the store is untouched when it reports 0
    (given that flooding and finalize-sync do not write the store). *)
Theorem X22_mergePublication_reports_the_changed_keys
    (timeNow : Z) (rcvdPublication : Publication) (senderId : option string)
    (db db' : KvStoreDb) (n : nat) :
  (∀ p d, kvStore_ (floodPublication p d) = kvStore_ d) →
  (∀ ks s d, kvStore_ (finalizeFullSync ks s d) = kvStore_ d) →
  mergePublication floodPublication finalizeFullSync timeNow rcvdPublication
    senderId db = Ok (db', n) →
  ∃ changed : gset string,
    n = size changed
    ∧ (∀ k, k ∈ changed ↔ kvStore_ db' !! k ≠ kvStore_ db !! k)
    ∧ changed ⊆ dom (keyVals rcvdPublication).
Proof.
  intros Hflood Hfin Hcall.
  destruct (mergePublication_store _ _ Hflood Hfin _ _ _ _ _ _ Hcall)
    as [[Hsame ->]|([s' u] & Hmerge & Hs' & ->)].
  - exists ∅. split; [done|]. split; [|apply empty_subseteq].
    intros k. rewrite Hsame. split; [by intros ?%elem_of_empty|done].
  - simpl in *. exists (dom u). split; [by rewrite size_dom|].
    split.
    + intros k. rewrite Hs', elem_of_dom.
      pose proof (mergeKeyValues_updates_changes _ _ _ _ _ k Hmerge) as P.
      destruct (u !! k) as [v|].
      * split; [intros _; by destruct P as (_ & ? & _)|eauto].
      * split; [by intros [? ?]|done].
    + intros k [v Hk]%elem_of_dom. apply elem_of_dom.
      pose proof (mergeKeyValues_updates_changes _ _ _ _ _ k Hmerge) as P.
      rewrite Hk in P. destruct P as (? & _). eauto.
Qed.

Lemma withContentHash_fields (v : Value) :
  version (withContentHash v) = version v
  ∧ originatorId (withContentHash v) = originatorId v
  ∧ value (withContentHash v) = value v
  ∧ (is_Some (value v) →
     hash (withContentHash v)
     = Some (generateHash (version v) (originatorId v) (value v))).
Proof.
  unfold withContentHash. destruct (value v) as [p|] eqn:Hp; simpl.
  - by rewrite Hp.
  - split_and!; try done; by intros [? ?].
Qed.

(** X23. A local write keeps the hashes of the store right: [setKeyVals]
    overwrites the hash of every value that has a payload with the hash of
    its content before merging, so that a store in which every record with a
    payload carries its content hash is again such a store afterwards,
    whatever hash the caller supplied (given that flooding does not write the
    store). *)
Theorem X23_setKeyVals_keeps_content_hashes
    (unixNow timeNow : Z) (setParams : KeySetParams) (db db' : KvStoreDb) :
  (∀ p d, kvStore_ (floodPublication p d) = kvStore_ d) →
  hashConsistent (kvStore_ db) →
  setKeyVals floodPublication finalizeFullSync unixNow timeNow setParams db
  = Ok db' →
  hashConsistent (kvStore_ db').
Proof.
  intros Hflood Hinv. unfold setKeyVals.
  set (db1 := match ks_timestamp_ms setParams with
              | Some timestamp_ms =>
                  if unixNow - timestamp_ms >? 0
                  then addStatValue "kvstore.flood_duration_ms"
                         (unixNow - timestamp_ms)
                         (addStatValue "kvstore.cmd_key_set" 1 db)
                  else addStatValue "kvstore.cmd_key_set" 1 db
              | None => addStatValue "kvstore.cmd_key_set" 1 db
              end).
  assert (kvStore_ db1 = kvStore_ db ∧ filters db1 = filters db) as [Hkv Hfl].
  { unfold db1. destruct (ks_timestamp_ms setParams) as [ts|]; [|done].
    by destruct (_ >? 0). }
  set (pub := mkPublication (withContentHash <$> ks_keyVals setParams) []
                (ks_nodeIds setParams) None (ks_floodRootId setParams)
                EmptyString).
  assert (mergePublication floodPublication finalizeFullSync timeNow pub None db1
          = mergePublication floodPublication (fun _ _ d => d) timeNow pub None db1)
    as ->.
  { unfold mergePublication. cbv zeta. simpl. done. }
  destruct (mergePublication _ _ _ _ _ _) as [[db2 n]|] eqn:Hcall; [|done].
  simpl. intros [= <-].
  destruct (mergePublication_store _ _ Hflood (fun _ _ _ => eq_refl)
              _ _ _ _ _ _ Hcall)
    as [[Hsame _]|([s' u] & Hmerge & Hs' & _)].
  { rewrite Hsame, Hkv. done. }
  simpl in *. rewrite Hs'. rewrite Hkv in Hmerge.
  intros k c' Hc' Hpayload.
  pose proof (mergeKeyValues_lookup _ _ _ _ _ k Hmerge) as P.
  rewrite lookup_fmap in P.
  destruct (ks_keyVals setParams !! k) as [v|]; simpl in P.
  2: { rewrite P in Hc'. by eapply Hinv. }
  destruct P as (a & Ha & Hk). rewrite Hk in Hc'.
  destruct (withContentHash_fields v) as (Wv & Wo & Wp & Wh).
  destruct a; simpl in Hc'.
  - by eapply Hinv.
  - injection Hc' as <-.
    pose proof (mergeAction_verdict _ _ _ _ _ Ha) as (_ & _ & Hsome & _).
    rewrite Wp in Hsome. specialize (Wh Hsome).
    unfold storedValue. rewrite Wh. by rewrite Wh, Wv, Wo, Wp.
  - destruct (kvStore_ db !! k) as [cur|] eqn:Hcur; [|done].
    injection Hc' as <-. simpl in *. by eapply Hinv.
Qed.

End MergePublicationClaims.

(** X22, witness: a publication that brings one new key, with flooding and
    finalize-sync that do nothing. *)
Lemma X22_witness :
  ∃ db' n,
    mergePublication (H := reference_platform) (fun _ d => d) (fun _ _ d => d)
      0 example_outgoing None example_db = Ok (db', n)
    ∧ ∃ changed : gset string,
        n = size changed
        ∧ (∀ k, k ∈ changed ↔ kvStore_ db' !! k ≠ kvStore_ example_db !! k)
        ∧ changed ⊆ dom (keyVals example_outgoing).
Proof.
  eexists _, _. split; [reflexivity|].
  eapply (X22_mergePublication_reports_the_changed_keys
            (H := reference_platform) (fun _ d => d) (fun _ _ d => d)
            0 example_outgoing None example_db).
  - reflexivity.
  - reflexivity.
  - reflexivity.
Defined.

(** X23, witness: the record is stored with the hash of its content. *)
Lemma X23_witness :
  ∃ db',
    setKeyVals (H := reference_platform) (fun _ d => d) (fun _ _ d => d)
      0 0 example_set_params example_db = Ok db'
    ∧ hashConsistent (H := reference_platform) (kvStore_ db').
Proof.
  eexists. split; [reflexivity|].
  eapply (X23_setKeyVals_keeps_content_hashes (H := reference_platform)
            (fun _ d => d) (fun _ _ d => d) 0 0 example_set_params example_db).
  - reflexivity.
  - intros k v Hk _. simpl in Hk.
    apply lookup_singleton_Some in Hk as [<- <-]. reflexivity.
  - reflexivity.
Defined.

Example setKeyVals_example :
  (fun db' => kvStore_ db' !! "k"%string)
    <$> match setKeyVals (H := reference_platform) (fun _ d => d)
                (fun _ _ d => d) 0 0 example_set_params example_db with
        | Ok db' => Some db'
        | Raise _ => None
        end
  = Some (Some (mkValue 1 "A" (Some "x"%string) 1000 0 (Some 3))).
Proof. by vm_compute. Qed.

(** ** [PrefixState] *)

Section PrefixStateFacts.
Import PrefixState.
Context {CIDRNetwork : Type} `{Countable CIDRNetwork}.
Context {PrefixEntry : Type} `{EqDecision PrefixEntry}.

Lemma entryAt_insert (prefixes_ : gmap CIDRNetwork (gmap NodeAndArea PrefixEntry))
    (network network' : CIDRNetwork) (entries : gmap NodeAndArea PrefixEntry)
    (nodeAndArea : NodeAndArea) :
  entryAt (<[network := entries]> prefixes_) network' nodeAndArea =
  if decide (network = network') then entries !! nodeAndArea
  else entryAt prefixes_ network' nodeAndArea.
Proof.
  unfold entryAt. destruct (decide (network = network')) as [->|Hne].
  - by rewrite lookup_insert_eq.
  - by rewrite lookup_insert_ne.
Qed.

Lemma updatePrefix_eq (key : PrefixKey) (entry : PrefixEntry)
    (prefixes_ : gmap CIDRNetwork (gmap NodeAndArea PrefixEntry)) :
  updatePrefix key entry prefixes_ =
  if decide (entryAt prefixes_ (getCIDRNetwork key) (getNodeAndArea key)
             = Some entry)
  then (∅, prefixes_)
  else ({[getCIDRNetwork key]},
        <[getCIDRNetwork key :=
            <[getNodeAndArea key := entry]>
              (default ∅ (prefixes_ !! getCIDRNetwork key))]> prefixes_).
Proof.
  unfold updatePrefix, entryAt.
  destruct (prefixes_ !! getCIDRNetwork key) as [entries|]; cbn [from_option id].
  - destruct (entries !! getNodeAndArea key) as [old|].
    + destruct (decide (old = entry)) as [->|Hne].
      * by rewrite decide_True.
      * by rewrite decide_False by congruence.
    + by rewrite decide_False.
  - rewrite lookup_empty. by rewrite decide_False.
Qed.

(** X24. [updatePrefix] stores the entry under the network and the (node,
    area) of the key and touches no other entry; it reports the network as
    changed unless this very entry was stored already, in which case the
    state is left as it is; repeating the call reports no change; and no
    network is left without entries. *)
Theorem X24_updatePrefix_stores_and_reports
    (key : PrefixKey) (entry : PrefixEntry)
    (prefixes_ : gmap CIDRNetwork (gmap NodeAndArea PrefixEntry)) :
  entryAt (updatePrefix key entry prefixes_).2
    (getCIDRNetwork key) (getNodeAndArea key) = Some entry
  ∧ (∀ network nodeAndArea,
       (network, nodeAndArea) ≠ (getCIDRNetwork key, getNodeAndArea key) →
       entryAt (updatePrefix key entry prefixes_).2 network nodeAndArea
       = entryAt prefixes_ network nodeAndArea)
  ∧ ((updatePrefix key entry prefixes_).1 = ∅
     ∧ (updatePrefix key entry prefixes_).2 = prefixes_
     ∧ entryAt prefixes_ (getCIDRNetwork key) (getNodeAndArea key) = Some entry
     ∨ (updatePrefix key entry prefixes_).1 = {[getCIDRNetwork key]}
       ∧ entryAt prefixes_ (getCIDRNetwork key) (getNodeAndArea key)
         ≠ Some entry)
  ∧ updatePrefix key entry (updatePrefix key entry prefixes_).2
    = (∅, (updatePrefix key entry prefixes_).2)
  ∧ (noEmptyEntries prefixes_ →
     noEmptyEntries (updatePrefix key entry prefixes_).2).
Proof.
  destruct key as [net na].
  remember (updatePrefix (mkPrefixKey net na) entry prefixes_) as r eqn:Hr.
  rewrite updatePrefix_eq in Hr. simpl in *.
  destruct (decide (entryAt prefixes_ net na = Some entry)) as [Hsame|Hdiff];
    subst r; simpl.
  - split_and!; try done.
    + by left.
    + rewrite updatePrefix_eq. simpl. by rewrite decide_True.
  - assert (entryAt (<[net := <[na := entry]> (default ∅ (prefixes_ !! net))]>
                       prefixes_) net na = Some entry) as Hnew.
    { by rewrite entryAt_insert, decide_True, lookup_insert_eq. }
    split_and!; try done.
    + intros network nodeAndArea Hne. rewrite entryAt_insert.
      destruct (decide (net = network)) as [<-|Hn]; [|done].
      rewrite lookup_insert_ne by congruence.
      unfold entryAt. by destruct (prefixes_ !! net).
    + by right.
    + rewrite updatePrefix_eq. simpl. by rewrite decide_True.
    + intros Hinv network es.
      destruct (decide (net = network)) as [<-|Hn].
      * rewrite lookup_insert_eq. intros [= <-]. apply insert_non_empty.
      * rewrite lookup_insert_ne by done. apply Hinv.
Qed.

Lemma deletePrefix_eq (key : PrefixKey)
    (prefixes_ : gmap CIDRNetwork (gmap NodeAndArea PrefixEntry)) :
  deletePrefix key prefixes_ =
  match prefixes_ !! getCIDRNetwork key with
  | Some entries =>
      if bool_decide (is_Some (entries !! getNodeAndArea key)) then
        ({[getCIDRNetwork key]},
         if bool_decide (delete (getNodeAndArea key) entries = ∅)
         then delete (getCIDRNetwork key) prefixes_
         else <[getCIDRNetwork key := delete (getNodeAndArea key) entries]>
                prefixes_)
      else (∅, prefixes_)
  | None => (∅, prefixes_)
  end.
Proof.
  unfold deletePrefix.
  destruct (prefixes_ !! getCIDRNetwork key) as [entries|]; [|done].
  destruct (entries !! getNodeAndArea key) as [old|] eqn:Hold.
  - rewrite (bool_decide_eq_true_2 (is_Some (Some old))) by eauto. simpl.
    by rewrite (bool_decide_ext
                  (size (delete (getNodeAndArea key) entries) = 0%nat)
                  (delete (getNodeAndArea key) entries = ∅))
      by apply map_size_empty_iff.
  - rewrite bool_decide_eq_false_2; [done|]. by intros [? ?].
Qed.

(** X25. [deletePrefix] removes the entry of the key and no other entry,
    reports the network as changed exactly when there was an entry to
    remove, and drops a network whose last entry it has removed, so that no
    network is left without entries; deleting a key right after it was added
    by [updatePrefix] gives back the state before. *)
Theorem X25_deletePrefix_removes_and_cleans_up
    (key : PrefixKey)
    (prefixes_ : gmap CIDRNetwork (gmap NodeAndArea PrefixEntry)) :
  noEmptyEntries prefixes_ →
  entryAt (deletePrefix key prefixes_).2
    (getCIDRNetwork key) (getNodeAndArea key) = None
  ∧ (∀ network nodeAndArea,
       (network, nodeAndArea) ≠ (getCIDRNetwork key, getNodeAndArea key) →
       entryAt (deletePrefix key prefixes_).2 network nodeAndArea
       = entryAt prefixes_ network nodeAndArea)
  ∧ (deletePrefix key prefixes_).1
    = (if bool_decide (is_Some (entryAt prefixes_ (getCIDRNetwork key)
                                  (getNodeAndArea key)))
       then {[getCIDRNetwork key]} else ∅)
  ∧ noEmptyEntries (deletePrefix key prefixes_).2
  ∧ ∀ entry,
      entryAt prefixes_ (getCIDRNetwork key) (getNodeAndArea key) = None →
      (deletePrefix key (updatePrefix key entry prefixes_).2).2 = prefixes_.
Proof.
  intros Hinv. destruct key as [net na].
  split_and!.
  - rewrite deletePrefix_eq. unfold entryAt. simpl.
    destruct (prefixes_ !! net) as [entries|] eqn:Hnet; simpl; [|by rewrite Hnet].
    destruct (bool_decide (is_Some (entries !! na))) eqn:Hin; simpl.
    + destruct (bool_decide (delete na entries = ∅)).
      * by rewrite lookup_delete_eq.
      * by rewrite lookup_insert_eq, lookup_delete_eq.
    + rewrite Hnet. apply bool_decide_eq_false in Hin.
      by apply eq_None_not_Some.
  - intros network nodeAndArea Hne. rewrite deletePrefix_eq. simpl.
    destruct (prefixes_ !! net) as [entries|] eqn:Hnet; [|done].
    destruct (bool_decide (is_Some (entries !! na))); [|done]. simpl.
    destruct (bool_decide (delete na entries = ∅)) eqn:Hempty.
    + apply bool_decide_eq_true in Hempty. unfold entryAt.
      destruct (decide (net = network)) as [<-|Hn].
      * rewrite lookup_delete_eq, Hnet.
        assert (na ≠ nodeAndArea) as Hna.
        { intros ->. by apply Hne. }
        by rewrite <- (lookup_delete_ne entries na nodeAndArea Hna), Hempty.
      * by rewrite lookup_delete_ne.
    + rewrite entryAt_insert.
      destruct (decide (net = network)) as [<-|Hn]; [|done].
      assert (na ≠ nodeAndArea) as Hna.
      { intros ->. by apply Hne. }
      rewrite lookup_delete_ne by done. unfold entryAt. by rewrite Hnet.
  - rewrite deletePrefix_eq. unfold entryAt. simpl.
    destruct (prefixes_ !! net) as [entries|]; simpl.
    + by destruct (bool_decide (is_Some (entries !! na))).
    + done.
  - rewrite deletePrefix_eq. simpl.
    destruct (prefixes_ !! net) as [entries|] eqn:Hnet; [|done].
    destruct (bool_decide (is_Some (entries !! na))); [|done]. simpl.
    destruct (bool_decide (delete na entries = ∅)) eqn:Hempty.
    + intros network es [_ Hes]%lookup_delete_Some. by eapply Hinv.
    + apply bool_decide_eq_false in Hempty. intros network es.
      destruct (decide (net = network)) as [<-|Hn].
      * rewrite lookup_insert_eq. by intros [= <-].
      * rewrite lookup_insert_ne by done. apply Hinv.
  - intros entry Habsent. simpl in Habsent. rewrite updatePrefix_eq. simpl.
    rewrite decide_False by (by rewrite Habsent). simpl.
    rewrite deletePrefix_eq. simpl. rewrite lookup_insert_eq.
    rewrite lookup_insert_eq.
    rewrite bool_decide_eq_true_2 by eauto.
    simpl. unfold entryAt in Habsent.
    destruct (prefixes_ !! net) as [entries|] eqn:Hnet; simpl.
    + rewrite delete_insert_id by done.
      rewrite bool_decide_eq_false_2 by (by eapply Hinv).
      rewrite insert_insert_eq. by apply insert_id.
    + rewrite delete_insert_id by apply lookup_empty.
      rewrite bool_decide_eq_true_2 by done.
      by apply delete_insert_id.
Qed.

Variable forwardingType : PrefixEntry → PrefixForwardingType.
Variable forwardingAlgorithm : PrefixEntry → PrefixForwardingAlgorithm.

Lemma conflictsWith_true (firstEntry : PrefixEntry)
    (entries : list (NodeAndArea * PrefixEntry)) :
  conflictsWith forwardingType forwardingAlgorithm firstEntry entries = true
  ↔ ∃ na e, (na, e) ∈ entries
            ∧ (forwardingAlgorithm firstEntry ≠ forwardingAlgorithm e
               ∨ forwardingType firstEntry ≠ forwardingType e).
Proof.
  induction entries as [|[na e] entries IH]; simpl.
  - split; [done|]. by intros (? & ? & ?%elem_of_nil & _).
  - destruct (decide (forwardingAlgorithm firstEntry = forwardingAlgorithm e))
      as [Ha|Ha].
    2: { rewrite bool_decide_eq_false_2 by done. simpl.
         split; [|done]. intros _. exists na, e.
         split; [apply list_elem_of_here|by left]. }
    rewrite bool_decide_eq_true_2 by done. simpl.
    destruct (decide (forwardingType firstEntry = forwardingType e)) as [Ht|Ht].
    2: { rewrite bool_decide_eq_false_2 by done. simpl.
         split; [|done]. intros _. exists na, e.
         split; [apply list_elem_of_here|by right]. }
    rewrite bool_decide_eq_true_2 by done. simpl. rewrite IH. split.
    + intros (na' & e' & Hin & Hd). exists na', e'.
      split; [by apply list_elem_of_further|done].
    + intros (na' & e' & [[= -> ->]|Hin]%elem_of_cons & Hd).
      * destruct Hd; done.
      * eauto.
Qed.

(** X26. [hasConflictingForwardingInfo] answers true exactly when two of
    the entries disagree on the forwarding algorithm or on the forwarding
    type, whichever entry the map yields first; it answers false for no
    entries. *)
Theorem X26_hasConflictingForwardingInfo_iff_two_entries_disagree
    (prefixEntries : gmap NodeAndArea PrefixEntry) :
  hasConflictingForwardingInfo forwardingType forwardingAlgorithm prefixEntries
  = true
  ↔ ∃ na1 e1 na2 e2,
      prefixEntries !! na1 = Some e1 ∧ prefixEntries !! na2 = Some e2
      ∧ (forwardingAlgorithm e1 ≠ forwardingAlgorithm e2
         ∨ forwardingType e1 ≠ forwardingType e2).
Proof.
  unfold hasConflictingForwardingInfo.
  destruct (map_to_list prefixEntries) as [|[na0 e0] rest] eqn:Hlist.
  - split; [done|]. intros (na1 & e1 & _ & _ & Hin%elem_of_map_to_list & _).
    rewrite Hlist in Hin. by apply elem_of_nil in Hin.
  - assert ((na0, e0) ∈ map_to_list prefixEntries) as Hfirst.
    { rewrite Hlist. apply list_elem_of_here. }
    rewrite <- Hlist, conflictsWith_true. split.
    + intros (na & e & Hin & Hd). exists na0, e0, na, e.
      split_and!; [by apply elem_of_map_to_list..|done].
    + intros (na1 & e1 & na2 & e2 & H1 & H2 & Hd).
      apply elem_of_map_to_list in H1, H2.
      destruct (decide (forwardingAlgorithm e0 = forwardingAlgorithm e1))
        as [Ha1|Ha1]; [|by exists na1, e1; auto].
      destruct (decide (forwardingType e0 = forwardingType e1))
        as [Ht1|Ht1]; [|by exists na1, e1; auto].
      exists na2, e2. split; [done|]. rewrite Ha1, Ht1. done.
Qed.

End PrefixStateFacts.

(** X25, witness: the only entry of the only network is deleted. *)
Lemma X25_witness :
  PrefixState.entryAt (PrefixState.deletePrefix example_prefix_key example_prefixes).2
    (PrefixState.getCIDRNetwork example_prefix_key)
    (PrefixState.getNodeAndArea example_prefix_key) = None
  ∧ (∀ network nodeAndArea,
       (network, nodeAndArea)
       ≠ (PrefixState.getCIDRNetwork example_prefix_key,
          PrefixState.getNodeAndArea example_prefix_key) →
       PrefixState.entryAt
         (PrefixState.deletePrefix example_prefix_key example_prefixes).2
         network nodeAndArea
       = PrefixState.entryAt example_prefixes network nodeAndArea)
  ∧ (PrefixState.deletePrefix example_prefix_key example_prefixes).1
    = (if bool_decide
            (is_Some (PrefixState.entryAt example_prefixes
                        (PrefixState.getCIDRNetwork example_prefix_key)
                        (PrefixState.getNodeAndArea example_prefix_key)))
       then {[PrefixState.getCIDRNetwork example_prefix_key]} else ∅)
  ∧ PrefixState.noEmptyEntries
      (PrefixState.deletePrefix example_prefix_key example_prefixes).2
  ∧ ∀ entry,
      PrefixState.entryAt example_prefixes
        (PrefixState.getCIDRNetwork example_prefix_key)
        (PrefixState.getNodeAndArea example_prefix_key) = None →
      (PrefixState.deletePrefix example_prefix_key
         (PrefixState.updatePrefix example_prefix_key entry example_prefixes).2).2
      = example_prefixes.
Proof.
  apply (X25_deletePrefix_removes_and_cleans_up example_prefix_key
           example_prefixes).
  intros network entries Hl. unfold example_prefixes in Hl.
  apply lookup_singleton_Some in Hl as [_ <-].
  apply map_non_empty_singleton.
Defined.

Example deletePrefix_example :
  PrefixState.deletePrefix example_prefix_key example_prefixes
  = ({["10.0.0.0/8"%string]}, ∅).
Proof. by vm_compute. Qed.

(** ** Flooding to peers *)

Lemma floodToPeer_spec (senderId : option string) (keyVals : gmap string Value)
    (db : KvStoreDb) (peerName : string) :
  (∀ p, thriftPeers_ (floodToPeer senderId keyVals db peerName) !! p =
        match thriftPeers_ db !! p with
        | Some peer =>
            if bool_decide (p = peerName) && deferred senderId peer p
            then Some (mkPeer (peerState peer) (numThriftApiErrors peer)
                         (pendingKeysDuringInitialization peer ∪ dom keyVals))
            else Some peer
        | None => None
        end)
  ∧ peerRequests (floodToPeer senderId keyVals db peerName)
    = peerRequests db
      ++ (if sendable senderId (thriftPeers_ db) peerName
          then [(peerName, keyVals)] else [])
  ∧ kvStore_ (floodToPeer senderId keyVals db peerName) = kvStore_ db.
Proof.
  unfold floodToPeer, sendable, deferred.
  destruct (thriftPeers_ db !! peerName) as [peer|] eqn:Hpeer.
  2: { split_and!; [|by rewrite app_nil_r|done].
       intros p. destruct (thriftPeers_ db !! p) as [q|] eqn:Hq; [|done].
       rewrite bool_decide_eq_false_2 by congruence. done. }
  destruct (bool_decide (senderId = Some peerName)) eqn:Hs; simpl.
  { split_and!; [|by rewrite app_nil_r|done].
    intros p. destruct (thriftPeers_ db !! p) as [q|] eqn:Hq; [|done].
    destruct (decide (p = peerName)) as [->|Hne].
    - by rewrite Hs, andb_false_r.
    - by rewrite (bool_decide_eq_false_2 (p = peerName)). }
  destruct (bool_decide (peerState peer = INITIALIZED)) eqn:Hi; simpl.
  - split_and!; [|done|done].
    intros p. destruct (thriftPeers_ db !! p) as [q|] eqn:Hq; [|done].
    destruct (decide (p = peerName)) as [->|Hne].
    + rewrite Hpeer in Hq. injection Hq as <-. by rewrite Hs, Hi, andb_false_r.
    + by rewrite (bool_decide_eq_false_2 (p = peerName)).
  - split_and!; [|by rewrite app_nil_r|done].
    intros p. destruct (decide (p = peerName)) as [->|Hne].
    + rewrite lookup_insert_eq, Hpeer, Hs, Hi.
      by rewrite bool_decide_eq_true_2.
    + rewrite lookup_insert_ne by done.
      destruct (thriftPeers_ db !! p) as [q|]; [|done].
      by rewrite (bool_decide_eq_false_2 (p = peerName)).
Qed.

(** X27. The loop of [floodPublication] over the flood peers sends the
    key-values once to every listed peer that is known, INITIALIZED and not
    the sender of the publication, in the order of the list, and to no one
    else; for a listed peer that is known, not INITIALIZED and not the sender
    it adds every key of the publication to the peer's pending keys; the peer
    states, the other pending keys and the store are untouched. *)
Theorem X27_flood_sends_or_defers_for_every_peer
    (senderId : option string) (keyVals : gmap string Value)
    (floodPeers : list string) (db : KvStoreDb) :
  peerRequests (floodToPeers senderId keyVals floodPeers db)
  = peerRequests db
    ++ ((fun p => (p, keyVals))
          <$> List.filter (sendable senderId (thriftPeers_ db)) floodPeers)
  ∧ (∀ p, thriftPeers_ (floodToPeers senderId keyVals floodPeers db) !! p =
          match thriftPeers_ db !! p with
          | Some peer =>
              if bool_decide (p ∈ floodPeers) && deferred senderId peer p
              then Some (mkPeer (peerState peer) (numThriftApiErrors peer)
                           (pendingKeysDuringInitialization peer ∪ dom keyVals))
              else Some peer
          | None => None
          end)
  ∧ kvStore_ (floodToPeers senderId keyVals floodPeers db) = kvStore_ db.
Proof.
  unfold floodToPeers. revert db.
  induction floodPeers as [|p0 rest IH]; intros db; simpl.
  - split_and!; [by rewrite app_nil_r| |done].
    intros p. by destruct (thriftPeers_ db !! p).
  - destruct (floodToPeer_spec senderId keyVals db p0) as (Hpeers & Hreq & Hkv).
    destruct (IH (floodToPeer senderId keyVals db p0)) as (IHreq & IHpeers & IHkv).
    assert (∀ p, sendable senderId
                   (thriftPeers_ (floodToPeer senderId keyVals db p0)) p
                 = sendable senderId (thriftPeers_ db) p) as Hsend.
    { intros p. unfold sendable. rewrite Hpeers.
      destruct (thriftPeers_ db !! p) as [q|]; [|done].
      by destruct (_ && _). }
    split_and!.
    + rewrite IHreq, Hreq, <- app_assoc. f_equal.
      rewrite (List.filter_ext _ _ Hsend).
      by destruct (sendable senderId (thriftPeers_ db) p0).
    + intros p. rewrite IHpeers, Hpeers.
      destruct (thriftPeers_ db !! p) as [q|]; [|done].
      destruct (decide (p = p0)) as [->|Hne].
      * rewrite (bool_decide_eq_true_2 (p0 ∈ p0 :: rest))
          by apply list_elem_of_here.
        rewrite bool_decide_eq_true_2 by done. simpl.
        destruct (deferred senderId q p0) eqn:Hd; simpl.
        -- unfold deferred in *. simpl. rewrite Hd.
           destruct (bool_decide (p0 ∈ rest)); simpl; [|done].
           f_equal. f_equal.
           by rewrite <- (assoc_L (∪)), (union_idemp_L (dom keyVals)).
        -- rewrite Hd. by rewrite andb_false_r.
      * rewrite (bool_decide_eq_false_2 (p = p0)) by done. simpl.
        assert (bool_decide (p ∈ p0 :: rest) = bool_decide (p ∈ rest)) as ->.
        { apply bool_decide_ext. rewrite elem_of_cons.
          split; [intros [?|?]; [done|done]|auto]. }
        done.
    + by rewrite IHkv.
Qed.

(** ** Peer set maintenance *)

Section PeerSet.
Import Barrier.

Lemma addThriftPeers_lookup (peers : list string) (p : string) :
  ∀ ps : gmap string Barrier.KvStorePeer,
  foldl (fun ps peerName =>
           match ps !! peerName with
           | Some peer =>
               <[peerName := Barrier.mkPeer IDLE (numThriftApiErrors peer)]> ps
           | None => <[peerName := Barrier.mkPeer IDLE 0]> ps
           end) ps peers !! p
  = if bool_decide (p ∈ peers)
    then Some (Barrier.mkPeer IDLE
                 (default 0 (numThriftApiErrors <$> ps !! p)))
    else ps !! p.
Proof.
  induction peers as [|p0 rest IH]; intros ps; simpl; [done|].
  rewrite IH.
  destruct (decide (p = p0)) as [->|Hne].
  - rewrite (bool_decide_eq_true_2 (p0 ∈ p0 :: rest)) by apply list_elem_of_here.
    destruct (ps !! p0) as [peer|] eqn:Hp; rewrite lookup_insert_eq; simpl;
      by destruct (bool_decide (p0 ∈ rest)).
  - assert (bool_decide (p ∈ p0 :: rest) = bool_decide (p ∈ rest)) as ->.
    { apply bool_decide_ext. rewrite elem_of_cons.
      split; [intros [?|?]; [done|done]|auto]. }
    by destruct (ps !! p0); rewrite lookup_insert_ne.
Qed.

Lemma delThriftPeers_lookup (peers : list string) (p : string) :
  ∀ ps : gmap string Barrier.KvStorePeer,
  foldl (fun ps peerName => delete peerName ps) ps peers !! p
  = if bool_decide (p ∈ peers) then None else ps !! p.
Proof.
  induction peers as [|p0 rest IH]; intros ps; simpl; [done|].
  rewrite IH.
  destruct (decide (p = p0)) as [->|Hne].
  - rewrite (bool_decide_eq_true_2 (p0 ∈ p0 :: rest)) by apply list_elem_of_here.
    rewrite lookup_delete_eq. by destruct (bool_decide _).
  - assert (bool_decide (p ∈ p0 :: rest) = bool_decide (p ∈ rest)) as ->.
    { apply bool_decide_ext. rewrite elem_of_cons.
      split; [intros [?|?]; [done|done]|auto]. }
    by rewrite lookup_delete_ne.
Qed.

(** X28. [addThriftPeers] leaves every listed peer in IDLE, with the error
    count that it had if it was known and with none if it is new, and
    [delThriftPeers] removes every listed peer (a peer that is not known is
    skipped); neither touches another peer nor the completion flag of the
    area, and deleting peers right after they were added as new peers gives
    back the peers as they were. *)
Theorem X28_add_and_delete_peers
    (peers : list string) (db : Barrier.KvStoreDb) :
  (∀ p, thriftPeers_ (addThriftPeers peers db) !! p =
        if bool_decide (p ∈ peers)
        then Some (Barrier.mkPeer IDLE
                     (default 0 (numThriftApiErrors <$> thriftPeers_ db !! p)))
        else thriftPeers_ db !! p)
  ∧ (∀ p, thriftPeers_ (delThriftPeers peers db) !! p =
          if bool_decide (p ∈ peers) then None else thriftPeers_ db !! p)
  ∧ initialSyncCompleted_ (addThriftPeers peers db) = initialSyncCompleted_ db
  ∧ initialSyncCompleted_ (delThriftPeers peers db) = initialSyncCompleted_ db
  ∧ ((∀ p, p ∈ peers → thriftPeers_ db !! p = None) →
     delThriftPeers peers (addThriftPeers peers db) = db).
Proof.
  split_and!; try done.
  - intros p. apply addThriftPeers_lookup.
  - intros p. apply delThriftPeers_lookup.
  - intros Hnew. destruct db as [ps flag]. unfold delThriftPeers. simpl.
    f_equal. apply map_eq. intros p.
    rewrite delThriftPeers_lookup, addThriftPeers_lookup.
    destruct (bool_decide (p ∈ peers)) eqn:Hin; [|done].
    apply bool_decide_eq_true in Hin. symmetry. by apply (Hnew p).
Qed.

Lemma requestThriftPeerSync_spec (ready : list string) :
  ∀ db : Barrier.KvStoreDb,
  ∃ db',
    requestThriftPeerSync ready db = Ok db'
    ∧ initialSyncCompleted_ db' = initialSyncCompleted_ db
    ∧ ∀ p, thriftPeers_ db' !! p =
           match thriftPeers_ db !! p with
           | Some peer =>
               if bool_decide (p ∈ ready) && bool_decide (peerState peer = IDLE)
               then Some (Barrier.mkPeer SYNCING (numThriftApiErrors peer))
               else Some peer
           | None => None
           end.
Proof.
  induction ready as [|p0 rest IH]; intros db; simpl.
  - exists db. split_and!; try done.
    intros p. by destruct (thriftPeers_ db !! p).
  - destruct (thriftPeers_ db !! p0) as [peer0|] eqn:Hp0.
    2: { destruct (IH db) as (db' & -> & Hflag & Hpeers).
         exists db'. split_and!; try done.
         intros p. rewrite Hpeers.
         destruct (thriftPeers_ db !! p) as [peer|] eqn:Hp; [|done].
         assert (bool_decide (p ∈ p0 :: rest) = bool_decide (p ∈ rest)) as ->;
           [|done].
         apply bool_decide_ext. rewrite elem_of_cons.
         split; [intros [->|?]; [congruence|done]|auto]. }
    destruct (bool_decide (peerState peer0 = IDLE)) eqn:Hidle.
    + apply bool_decide_eq_true in Hidle. rewrite Hidle. simpl.
      destruct (IH (Barrier.mkDb
                      (<[p0 := Barrier.mkPeer SYNCING (numThriftApiErrors peer0)]>
                         (thriftPeers_ db))
                      (initialSyncCompleted_ db)))
        as (db' & -> & Hflag & Hpeers).
      exists db'. split_and!; try done.
      intros p. rewrite Hpeers. simpl.
      destruct (decide (p = p0)) as [->|Hne].
      * rewrite lookup_insert_eq, Hp0. simpl.
        rewrite (bool_decide_eq_true_2 (p0 ∈ p0 :: rest))
          by apply list_elem_of_here.
        rewrite (bool_decide_eq_true_2 (peerState peer0 = IDLE)) by done.
        by rewrite andb_false_r.
      * rewrite lookup_insert_ne by done.
        destruct (thriftPeers_ db !! p) as [peer|]; [|done].
        assert (bool_decide (p ∈ p0 :: rest) = bool_decide (p ∈ rest)) as ->;
          [|done].
        apply bool_decide_ext. rewrite elem_of_cons.
        split; [intros [?|?]; [done|done]|auto].
    + destruct (IH db) as (db' & -> & Hflag & Hpeers).
      exists db'. split_and!; try done.
      intros p. rewrite Hpeers.
      destruct (thriftPeers_ db !! p) as [peer|] eqn:Hp; [|done].
      destruct (decide (p = p0)) as [->|Hne].
      * rewrite Hp0 in Hp. injection Hp as <-.
        by rewrite Hidle, !andb_false_r.
      * assert (bool_decide (p ∈ p0 :: rest) = bool_decide (p ∈ rest)) as ->;
          [|done].
        apply bool_decide_ext. rewrite elem_of_cons.
        split; [intros [?|?]; [done|done]|auto].
Qed.

(** X29. The sync timer promotes to SYNCING exactly the peers that it
    reaches and that are IDLE, keeping their error count; a peer in another
    state, a peer that it does not reach and an unknown name are left as
    they are, the completion flag of the area does not change, and the
    transition is always defined. *)
Theorem X29_sync_timer_promotes_idle_peers
    (ready : list string) (db : Barrier.KvStoreDb) :
  ∃ db',
    requestThriftPeerSync ready db = Ok db'
    ∧ initialSyncCompleted_ db' = initialSyncCompleted_ db
    ∧ ∀ p, thriftPeers_ db' !! p =
           match thriftPeers_ db !! p with
           | Some peer =>
               if bool_decide (p ∈ ready) && bool_decide (peerState peer = IDLE)
               then Some (Barrier.mkPeer SYNCING (numThriftApiErrors peer))
               else Some peer
           | None => None
           end.
Proof. apply requestThriftPeerSync_spec. Qed.

End PeerSet.

(** ** The received-routes query of the prefix state *)

Section PrefixStateRoutes.
Import PrefixState.
Context {CIDRNetwork : Type} `{Countable CIDRNetwork}.
Context {PrefixEntry : Type} `{EqDecision PrefixEntry}.
Context {IpPrefix : Type}.
Variable toIPNetwork : IpPrefix → CIDRNetwork.
Variable toIpPrefix : CIDRNetwork → IpPrefix.

Lemma foldl_app_bind {A B : Type} (f : list B → A → list B) (g : A → list B)
    (l : list A) :
  (∀ acc x, f acc x = acc ++ g x) →
  ∀ acc, foldl f acc l = acc ++ (l ≫= g).
Proof.
  intros Hf. induction l as [|x l IH]; intros acc; simpl.
  - by rewrite app_nil_r.
  - by rewrite IH, Hf, <- app_assoc.
Qed.

Lemma routeOf_elem (nodeFilter areaFilter : option string)
    (item : NodeAndArea * PrefixEntry) (r : @ReceivedRoute PrefixEntry) :
  r ∈ routeOf nodeFilter areaFilter item
  ↔ r = mkReceivedRoute item.1 item.2
    ∧ passesFilters nodeFilter areaFilter item.1.
Proof.
  unfold routeOf, passesFilters.
  destruct nodeFilter as [n|], areaFilter as [a|]; simpl;
    repeat case_bool_decide; simpl;
    rewrite ?elem_of_nil, ?list_elem_of_singleton;
    split; try (intros []; fail); try (intros ->; split_and!; congruence);
    try (intros (-> & Hn & Ha); done);
    try (intros (_ & Hn & Ha);
         first [ by specialize (Hn _ eq_refl) | by specialize (Ha _ eq_refl) ]).
Qed.

Lemma filterAndAddReceivedRoute_eq
    (routes : list (@ReceivedRouteDetail PrefixEntry IpPrefix))
    (nodeFilter areaFilter : option string)
    (prefix : CIDRNetwork) (prefixEntries : gmap NodeAndArea PrefixEntry) :
  filterAndAddReceivedRoute toIpPrefix routes nodeFilter areaFilter prefix
    prefixEntries
  = routes ++
    match map_to_list prefixEntries ≫= routeOf nodeFilter areaFilter with
    | [] => []
    | rs => [mkReceivedRouteDetail (toIpPrefix prefix) rs]
    end.
Proof.
  unfold filterAndAddReceivedRoute.
  rewrite (foldl_app_bind _ (routeOf nodeFilter areaFilter)).
  2: { intros acc [na e]. unfold routeOf. simpl.
       destruct nodeFilter, areaFilter; simpl;
         repeat case_bool_decide; simpl; by rewrite ?app_nil_r. }
  simpl. case_bool_decide as Hsize.
  - apply map_size_empty_iff in Hsize. subst prefixEntries.
    rewrite map_to_list_empty. simpl. by rewrite app_nil_r.
  - destruct (map_to_list prefixEntries ≫= routeOf nodeFilter areaFilter);
      simpl; [by rewrite app_nil_r|done].
Qed.

Lemma detailOf_elem (nodeFilter areaFilter : option string)
    (prefix : CIDRNetwork) (prefixEntries : gmap NodeAndArea PrefixEntry)
    (d : @ReceivedRouteDetail PrefixEntry IpPrefix) :
  d ∈ detailOf toIpPrefix nodeFilter areaFilter prefix prefixEntries
  ↔ rd_routes d ≠ []
    ∧ d = mkReceivedRouteDetail (toIpPrefix prefix)
            (map_to_list prefixEntries ≫= routeOf nodeFilter areaFilter).
Proof.
  unfold detailOf.
  destruct (map_to_list prefixEntries ≫= routeOf nodeFilter areaFilter)
    as [|r rs] eqn:Hrs.
  - rewrite elem_of_nil. split; [done|]. by intros [Hne ->].
  - rewrite list_elem_of_singleton. split; [by intros ->|by intros [_ ->]].
Qed.

Lemma detail_route_elem (nodeFilter areaFilter : option string)
    (prefixEntries : gmap NodeAndArea PrefixEntry)
    (r : @ReceivedRoute PrefixEntry) :
  r ∈ map_to_list prefixEntries ≫= routeOf nodeFilter areaFilter
  ↔ prefixEntries !! rr_key r = Some (rr_route r)
    ∧ passesFilters nodeFilter areaFilter (rr_key r).
Proof.
  rewrite list_elem_of_bind. split.
  - intros ([na e] & Hr & Hin). apply routeOf_elem in Hr as [-> Hpass].
    simpl in *. by apply elem_of_map_to_list in Hin.
  - intros [Hlk Hpass]. exists (rr_key r, rr_route r). split.
    + apply routeOf_elem. simpl. by destruct r.
    + by apply elem_of_map_to_list.
Qed.

Lemma getReceivedRoutesFiltered_eq
    (filter : @ReceivedRouteFilter IpPrefix)
    (prefixes_ : gmap CIDRNetwork (gmap NodeAndArea PrefixEntry)) :
  getReceivedRoutesFiltered toIPNetwork toIpPrefix filter prefixes_
  = match rf_prefixes filter with
    | Some prefixes =>
        prefixes ≫= (fun prefix =>
          match prefixes_ !! toIPNetwork prefix with
          | None => []
          | Some entries =>
              detailOf toIpPrefix (rf_nodeName filter) (rf_areaName filter)
                (toIPNetwork prefix) entries
          end)
    | None =>
        map_to_list prefixes_ ≫= (fun item =>
          detailOf toIpPrefix (rf_nodeName filter) (rf_areaName filter) item.1 item.2)
    end.
Proof.
  unfold getReceivedRoutesFiltered.
  destruct (rf_prefixes filter) as [prefixes|].
  - erewrite foldl_app_bind; [done|].
    intros acc prefix. simpl.
    destruct (prefixes_ !! toIPNetwork prefix);
      [apply filterAndAddReceivedRoute_eq|by rewrite app_nil_r].
  - erewrite foldl_app_bind; [done|].
    intros acc item. apply filterAndAddReceivedRoute_eq.
Qed.

(** X30. [getReceivedRoutesFiltered] answers with details that each hold at
    least one route; a detail is the detail of a stored network (one of the
    listed prefixes when the query lists prefixes), and its routes are
    exactly the stored entries of that network whose node and area pass the
    optional node and area filters.  Every stored entry that passes the
    filters, under a listed network when prefixes are listed, is in the
    answer. *)
Theorem X30_getReceivedRoutesFiltered_sound_and_complete
    (filter : @ReceivedRouteFilter IpPrefix)
    (prefixes_ : gmap CIDRNetwork (gmap NodeAndArea PrefixEntry)) :
  let answer :=
    getReceivedRoutesFiltered toIPNetwork toIpPrefix filter prefixes_ in
  let listed network :=
    ∀ prefixes, rf_prefixes filter = Some prefixes →
                ∃ prefix, prefix ∈ prefixes ∧ toIPNetwork prefix = network in
  (∀ d, d ∈ answer →
        rd_routes d ≠ []
        ∧ ∃ network,
            listed network
            ∧ rd_prefix d = toIpPrefix network
            ∧ ∀ r, r ∈ rd_routes d ↔
                   entryAt prefixes_ network (rr_key r) = Some (rr_route r)
                   ∧ passesFilters (rf_nodeName filter) (rf_areaName filter)
                       (rr_key r))
  ∧ (∀ network nodeAndArea entry,
        listed network →
        entryAt prefixes_ network nodeAndArea = Some entry →
        passesFilters (rf_nodeName filter) (rf_areaName filter) nodeAndArea →
        ∃ d, d ∈ answer
             ∧ rd_prefix d = toIpPrefix network
             ∧ mkReceivedRoute nodeAndArea entry ∈ rd_routes d).
Proof.
  intros answer listed. subst answer.
  rewrite getReceivedRoutesFiltered_eq. split.
  - intros d Hd.
    assert (∃ network entries,
              listed network ∧ prefixes_ !! network = Some entries
              ∧ d ∈ detailOf toIpPrefix (rf_nodeName filter) (rf_areaName filter)
                      network entries)
      as (network & entries & Hlisted & Hlk & Hin).
    { subst listed. destruct (rf_prefixes filter) as [prefixes|] eqn:Hps.
      - apply list_elem_of_bind in Hd as (prefix & Hd & Hprefix).
        destruct (prefixes_ !! toIPNetwork prefix) as [entries|] eqn:Hlk;
          [|by apply elem_of_nil in Hd].
        exists (toIPNetwork prefix), entries. split_and!; try done.
        intros ? [= <-]. by exists prefix.
      - apply list_elem_of_bind in Hd as ([network entries] & Hd & Hitem).
        apply elem_of_map_to_list in Hitem.
        exists network, entries. split_and!; done. }
    apply detailOf_elem in Hin as [Hne ->]. split; [done|].
    exists network. split_and!; try done.
    intros r. simpl. unfold entryAt. rewrite Hlk. apply detail_route_elem.
  - intros network nodeAndArea entry Hlisted Hentry Hpass.
    unfold entryAt in Hentry.
    destruct (prefixes_ !! network) as [entries|] eqn:Hlk; [|done].
    assert (mkReceivedRoute nodeAndArea entry
            ∈ map_to_list entries
                ≫= routeOf (rf_nodeName filter) (rf_areaName filter)) as Hr.
    { by apply detail_route_elem. }
    set (d := mkReceivedRouteDetail (toIpPrefix network)
                (map_to_list entries
                   ≫= routeOf (rf_nodeName filter) (rf_areaName filter))).
    assert (d ∈ detailOf toIpPrefix (rf_nodeName filter) (rf_areaName filter)
                  network entries) as Hd.
    { apply detailOf_elem. split; [|done]. simpl.
      intros Hnil. rewrite Hnil in Hr. by apply elem_of_nil in Hr. }
    exists d. split_and!; try done.
    subst listed. destruct (rf_prefixes filter) as [prefixes|] eqn:Hps.
    + destruct (Hlisted _ eq_refl) as (prefix & Hin & Hnet).
      apply list_elem_of_bind. exists prefix. split; [|done].
      by rewrite Hnet, Hlk.
    + apply list_elem_of_bind. exists (network, entries). split; [done|].
      by apply elem_of_map_to_list.
Qed.

End PrefixStateRoutes.

Lemma X28_witness :
  (∀ p, p ∈ ["node2"; "node3"] →
        Barrier.thriftPeers_ (Barrier.mkDb ∅ false) !! p = None)
  ∧ Barrier.delThriftPeers ["node2"; "node3"]
      (Barrier.addThriftPeers ["node2"; "node3"] (Barrier.mkDb ∅ false))
    = Barrier.mkDb ∅ false.
Proof.
  split; [intros p _; apply lookup_empty|].
  destruct (X28_add_and_delete_peers ["node2"; "node3"] (Barrier.mkDb ∅ false))
    as (_ & _ & _ & _ & Hback).
  apply Hback. intros p _. apply lookup_empty.
Defined.
